(** * ahocorapy: the Aho-Corasick keyword tree of [keywordtree.py] and the
    re-implementation of [reimplement_keywordtree.py], embedded in Rocq.

    Python objects live in a store: a [State] object is addressed by its
    position in the list [heap] of the tree that owns it, attributes holding
    a [State] hold an address, and [None] is [None].  A [dict] is an
    association list in insertion order (the order in which Python iterates
    over it).  Loops whose termination is not structural take a [fuel]. *)

From Stdlib Require Import ZArith Lia Ascii String.
From stdpp Require Import base decidable option list gmap strings sorting.

Local Open Scope Z_scope.
Local Open Scope nat_scope.
Local Open Scope list_scope.

(** ** Outcomes of a call *)

Inductive exn : Type :=
| ValueError (msg : string)
| AttributeError        (* attribute access on [None] *)
| TypeError             (* [len(None)], subscript of [None] *)
| IndexError            (* list index out of range *)
| RuntimeError          (* dictionary changed size during iteration *)
| RecursionError        (* maximum recursion depth exceeded *)
| DanglingRef.          (* an address without object: no Python run has it *)

Inductive result (A : Type) : Type :=
| Ok (a : A)
| Raise (e : exn)
| OutOfFuel.
Arguments Ok {A} a.
Arguments Raise {A} e.
Arguments OutOfFuel {A}.

(** How a generator stops: exhausted, by an exception, or (in the model)
    because the fuel ran out. *)
Inductive ending : Type :=
| Done
| Raised (e : exn)
| Starved.

Definition msg_no_more_additions : string :=
  "KeywordTree has been finalized. No more keyword additions allowed".
Definition msg_not_finalized : string :=
  "KeywordTree has not been finalized. No search allowed. Call finalize() first.".
Definition msg_already_finalized : string :=
  "KeywordTree has already been finalized.".

(** ** Python dicts, in insertion order *)

Section Dict.
Context {K V : Type} `{EqDecision K}.

Fixpoint dict_get (k : K) (d : list (K * V)) : option V :=
  match d with
  | [] => None
  | (k', v) :: d' => if decide (k = k') then Some v else dict_get k d'
  end.

(** [d[k] = v]: an existing key keeps its place, a new one goes last. *)
Fixpoint dict_set (k : K) (v : V) (d : list (K * V)) : list (K * V) :=
  match d with
  | [] => [(k, v)]
  | (k', v') :: d' =>
      if decide (k = k') then (k, v) :: d' else (k', v') :: dict_set k v d'
  end.

Definition dict_has (k : K) (d : list (K * V)) : bool :=
  match dict_get k d with Some _ => true | None => false end.

Definition dict_values (d : list (K * V)) : list V := d.*2.
Definition dict_keys (d : list (K * V)) : list K := d.*1.
End Dict.

(** ** keywordtree.py *)

Abbreviation addr := nat (only parsing).

Section KeywordTree.
Context {sym : Type} `{EqDecision sym}.
(** [str.lower], a built-in of the language. *)
Variable lower : list sym → list sym.

Record State : Type := mkState {
  identifier : nat;
  symbol : option sym;
  success : bool;
  transitions : list (sym * addr);
  parent : option addr;
  matched_keyword : option (list sym);
  longest_strict_suffix : option addr
}.

(** [State.__init__(identifier, symbol, parent)] *)
Definition State_init (identifier : nat) (symbol : option sym)
    (parent : option addr) : State :=
  {| identifier := identifier; symbol := symbol; success := false;
     transitions := []; parent := parent; matched_keyword := None;
     longest_strict_suffix := None |}.

Definition set_transitions (d : list (sym * addr)) (s : State) : State :=
  {| identifier := identifier s; symbol := symbol s; success := success s;
     transitions := d; parent := parent s;
     matched_keyword := matched_keyword s;
     longest_strict_suffix := longest_strict_suffix s |}.

Definition set_longest_strict_suffix (f : option addr) (s : State) : State :=
  {| identifier := identifier s; symbol := symbol s; success := success s;
     transitions := transitions s; parent := parent s;
     matched_keyword := matched_keyword s;
     longest_strict_suffix := f |}.

Definition set_match (kw : list sym) (s : State) : State :=
  {| identifier := identifier s; symbol := symbol s; success := true;
     transitions := transitions s; parent := parent s;
     matched_keyword := Some kw;
     longest_strict_suffix := longest_strict_suffix s |}.

Record KeywordTree : Type := mkTree {
  heap : list State;
  _zero_state : addr;
  _counter : nat;
  _finalized : bool;
  _case_insensitive : bool
}.

(** [KeywordTree.__init__(case_insensitive)] *)
Definition KeywordTree_init (case_insensitive : bool) : KeywordTree :=
  {| heap := [State_init 0 None None]; _zero_state := 0; _counter := 1;
     _finalized := false; _case_insensitive := case_insensitive |}.

Definition with_heap (h : list State) (self : KeywordTree) : KeywordTree :=
  {| heap := h; _zero_state := _zero_state self; _counter := _counter self;
     _finalized := _finalized self;
     _case_insensitive := _case_insensitive self |}.

Definition with_counter (c : nat) (self : KeywordTree) : KeywordTree :=
  {| heap := heap self; _zero_state := _zero_state self; _counter := c;
     _finalized := _finalized self;
     _case_insensitive := _case_insensitive self |}.

Definition with_finalized (b : bool) (self : KeywordTree) : KeywordTree :=
  {| heap := heap self; _zero_state := _zero_state self;
     _counter := _counter self; _finalized := b;
     _case_insensitive := _case_insensitive self |}.

(** Assignment to attributes of the object at [a]. *)
Definition mutate (a : addr) (f : State → State) (self : KeywordTree)
    : KeywordTree :=
  with_heap (alter f a (heap self)) self.

(** *** add *)

(** The [for char in keyword] loop of [add]; the [try]/[except KeyError]
    is the case distinction on [dict_get]. *)
Fixpoint add_loop (keyword : list sym) (current_state : addr)
    (self : KeywordTree) : result addr * KeywordTree :=
  match keyword with
  | [] => (Ok current_state, self)
  | char :: keyword' =>
      match heap self !! current_state with
      | None => (Raise DanglingRef, self)
      | Some cur =>
          match dict_get char (transitions cur) with
          | Some nxt => add_loop keyword' nxt self
          | None =>
              let next_state := length (heap self) in
              let self1 :=
                with_heap (heap self ++
                  [State_init (_counter self) (Some char) (Some current_state)])
                  self in
              let self2 := with_counter (S (_counter self1)) self1 in
              let self3 :=
                mutate current_state
                  (λ s, set_transitions (dict_set char next_state (transitions s)) s)
                  self2 in
              add_loop keyword' next_state self3
          end
      end
  end.

Definition add (keyword : list sym) (self : KeywordTree)
    : result unit * KeywordTree :=
  if _finalized self then
    (Raise (ValueError msg_no_more_additions), self)
  else
    let original_keyword := keyword in
    let keyword :=
      if _case_insensitive self then lower keyword else keyword in
    if decide (length keyword ≤ 0) then (Ok (), self)
    else
      match add_loop keyword (_zero_state self) self with
      | (Ok current_state, self1) =>
          (Ok (), mutate current_state (set_match original_keyword) self1)
      | (Raise e, self1) => (Raise e, self1)
      | (OutOfFuel, self1) => (OutOfFuel, self1)
      end.

(** *** search_all, search_one *)

(** The [while state != self._zero_state] loop of [search_all] at text
    position [idx]. *)
Fixpoint output_loop (fuel : nat) (self : KeywordTree) (idx : nat)
    (state : option addr) : list (list sym * Z) * ending :=
  match fuel with
  | 0 => ([], Starved)
  | S fuel' =>
      if decide (state = Some (_zero_state self)) then ([], Done)
      else
        match state with
        | None => ([], Raised AttributeError)
        | Some a =>
            match heap self !! a with
            | None => ([], Raised DanglingRef)
            | Some st =>
                if success st then
                  match matched_keyword st with
                  | None => ([], Raised TypeError)
                  | Some keyword =>
                      let '(ys, e) :=
                        output_loop fuel' self idx (longest_strict_suffix st) in
                      ((keyword, (Z.of_nat idx + 1 - Z.of_nat (length keyword))%Z)
                         :: ys, e)
                  end
                else output_loop fuel' self idx (longest_strict_suffix st)
            end
        end
  end.

(** The [for idx, symbol in enumerate(text)] loop of [search_all]. *)
Fixpoint search_loop (fuel : nat) (self : KeywordTree) (idx : nat)
    (text : list sym) (current_state : addr)
    : list (list sym * Z) * ending :=
  match text with
  | [] => ([], Done)
  | symbol :: text' =>
      match heap self !! current_state, heap self !! _zero_state self with
      | Some cur, Some zero =>
          let current_state' :=
            default (default (_zero_state self)
                       (dict_get symbol (transitions zero)))
                    (dict_get symbol (transitions cur)) in
          match output_loop fuel self idx (Some current_state') with
          | (ys, Done) =>
              let '(ys', e) :=
                search_loop fuel self (S idx) text' current_state' in
              (ys ++ ys', e)
          | (ys, e) => (ys, e)
          end
      | _, _ => ([], Raised DanglingRef)
      end
  end.

(** The generator [search_all(text)]: what it yields, and how it ends. *)
Definition search_all (fuel : nat) (self : KeywordTree) (text : list sym)
    : list (list sym * Z) * ending :=
  if negb (_finalized self) then
    ([], Raised (ValueError msg_not_finalized))
  else
    let text := if _case_insensitive self then lower text else text in
    search_loop fuel self 0 text (_zero_state self).

(** [next(result_gen)], with [StopIteration] turned into [None]. *)
Definition search_one (fuel : nat) (self : KeywordTree) (text : list sym)
    : result (option (list sym * Z)) :=
  match search_all fuel self text with
  | (m :: _, _) => Ok (Some m)
  | ([], Done) => Ok None
  | ([], Raised e) => Raise e
  | ([], Starved) => OutOfFuel
  end.

Definition search := search_one.

(** *** finalize *)

(** The [while True] loop of [search_lss]; [traversed] may be [None]. *)
Fixpoint lss_loop (fuel : nat) (self : KeywordTree) (state : addr)
    (state_symbol : option sym) (traversed : option addr) : result addr :=
  match fuel with
  | 0 => OutOfFuel
  | S fuel' =>
      match traversed with
      | None => Raise AttributeError
      | Some tr =>
          match heap self !! tr with
          | None => Raise DanglingRef
          | Some trs =>
              let target :=
                match state_symbol with
                | Some c => dict_get c (transitions trs)
                | None => None
                end in
              match target with
              | Some tgt =>
                  if decide (tgt ≠ state) then Ok tgt
                  else if decide (tr = _zero_state self) then
                    Ok (_zero_state self)
                  else lss_loop fuel' self state state_symbol
                         (longest_strict_suffix trs)
              | None =>
                  if decide (tr = _zero_state self) then
                    Ok (_zero_state self)
                  else lss_loop fuel' self state state_symbol
                         (longest_strict_suffix trs)
              end
          end
      end
  end.

(** The [for symbol, next_state in suffix.transitions.items()] loop of
    [search_lss], on the dict [state.transitions] it assigns to. *)
Fixpoint merge_loop (items : list (sym * addr)) (suffix_is_zero : bool)
    (own : list (sym * addr)) : list (sym * addr) :=
  match items with
  | [] => own
  | (symbol, next_state) :: items' =>
      if negb (dict_has symbol own) && negb suffix_is_zero then
        merge_loop items' suffix_is_zero (dict_set symbol next_state own)
      else merge_loop items' suffix_is_zero own
  end.

Fixpoint search_lss (fuel : nat) (self : KeywordTree) (state : addr)
    : result unit * KeywordTree :=
  match fuel with
  | 0 => (OutOfFuel, self)
  | S fuel' =>
      match heap self !! state with
      | None => (Raise DanglingRef, self)
      | Some st =>
          match longest_strict_suffix st with
          | Some _ => (Ok (), self)
          | None =>
              match parent st with
              | None => (Raise AttributeError, self)
              | Some p =>
                  match heap self !! p with
                  | None => (Raise DanglingRef, self)
                  | Some pst =>
                      match lss_loop fuel' self state (symbol st)
                              (longest_strict_suffix pst) with
                      | Ok suffix =>
                          let self1 :=
                            mutate state
                              (set_longest_strict_suffix (Some suffix)) self in
                          match heap self1 !! suffix with
                          | None => (Raise DanglingRef, self1)
                          | Some sst =>
                              let '(r, self2) :=
                                match longest_strict_suffix sst with
                                | None => search_lss fuel' self1 suffix
                                | Some _ => (Ok (), self1)
                                end in
                              match r with
                              | Ok _ =>
                                  match heap self2 !! suffix with
                                  | None => (Raise DanglingRef, self2)
                                  | Some sst2 =>
                                      (Ok (),
                                       mutate state
                                         (λ s, set_transitions
                                            (merge_loop (transitions sst2)
                                               (bool_decide (suffix = _zero_state self2))
                                               (transitions s)) s)
                                         self2)
                                  end
                              | _ => (r, self2)
                              end
                          end
                      | Raise e => (Raise e, self)
                      | OutOfFuel => (OutOfFuel, self)
                      end
                  end
              end
          end
      end
  end.

(** The [for child in state.transitions.values()] loop of
    [search_lss_for_children].  The dict of the object at [state] is read
    anew at each step, as Python's iterator does: a dict whose size is no
    longer [size] ends the loop in a [RuntimeError], position [i] past the
    end ends it normally.  [to_process] has its top (the end of the Python
    list) first. *)
Fixpoint children_loop (steps : nat) (fuel : nat) (processed : gset nat)
    (state : addr) (size i : nat) (to_process : list addr)
    (self : KeywordTree) : result (list addr) * KeywordTree :=
  match steps with
  | 0 => (OutOfFuel, self)
  | S steps' =>
      match heap self !! state with
      | None => (Raise DanglingRef, self)
      | Some st =>
          if decide (length (transitions st) ≠ size) then
            (Raise RuntimeError, self)
          else
            match dict_values (transitions st) !! i with
            | None => (Ok to_process, self)
            | Some child =>
                match heap self !! child with
                | None => (Raise DanglingRef, self)
                | Some cst =>
                    if decide (identifier cst ∈ processed) then
                      children_loop steps' fuel processed state size (S i)
                        to_process self
                    else
                      match search_lss fuel self child with
                      | (Ok _, self1) =>
                          children_loop steps' fuel processed state size
                            (S i) (child :: to_process) self1
                      | (Raise e, self1) => (Raise e, self1)
                      | (OutOfFuel, self1) => (OutOfFuel, self1)
                      end
                end
            end
      end
  end.

(** The [while to_process] loop of [search_lss_for_children]: [n] bounds
    its iterations, [fuel] is passed on to [search_lss]. *)
Fixpoint process_loop (n fuel : nat) (processed : gset nat)
    (to_process : list addr) (self : KeywordTree)
    : result unit * KeywordTree :=
  match n with
  | 0 => (OutOfFuel, self)
  | S n' =>
      match to_process with
      | [] => (Ok (), self)
      | state :: to_process' =>
          match heap self !! state with
          | None => (Raise DanglingRef, self)
          | Some st =>
              let processed' := {[identifier st]} ∪ processed in
              let size := length (transitions st) in
              match children_loop (S size) fuel processed' state size 0
                      to_process' self with
              | (Ok to_process'', self1) =>
                  process_loop n' fuel processed' to_process'' self1
              | (Raise e, self1) => (Raise e, self1)
              | (OutOfFuel, self1) => (OutOfFuel, self1)
              end
          end
      end
  end.

Definition search_lss_for_children (fuel : nat) (self : KeywordTree)
    (zero_state : addr) : result unit * KeywordTree :=
  process_loop fuel fuel ∅ [zero_state] self.

Definition finalize (fuel : nat) (self : KeywordTree)
    : result unit * KeywordTree :=
  if _finalized self then
    (Raise (ValueError msg_already_finalized), self)
  else
    let self1 :=
      mutate (_zero_state self)
        (set_longest_strict_suffix (Some (_zero_state self))) self in
    match search_lss_for_children fuel self1 (_zero_state self1) with
    | (Ok _, self2) => (Ok (), with_finalized true self2)
    | (Raise e, self2) => (Raise e, self2)
    | (OutOfFuel, self2) => (OutOfFuel, self2)
    end.

(** *** finalize, with the depth of the recursion

    [search_lss] calls itself when the state it has found as suffix has no
    link yet, and the interpreter allows only so many nested calls: the call
    that would exceed them raises [RecursionError].  The functions below
    are [search_lss], [search_lss_for_children] and [finalize] once more,
    with [limit], the number of nested calls of [search_lss] that the
    interpreter still allows where [search_lss_for_children] calls it;
    the calls of [finalize] and of [search_lss_for_children] themselves
    are taken to fit.  Looking up a symbol in a dict and comparing two
    states call nothing here, as with [str] symbols: [State] has no
    [__eq__].  [fuel] bounds the loops only. *)
Fixpoint search_lss_limited (limit fuel : nat) (self : KeywordTree)
    (state : addr) : result unit * KeywordTree :=
  match limit with
  | 0 => (Raise RecursionError, self)
  | S limit' =>
      match heap self !! state with
      | None => (Raise DanglingRef, self)
      | Some st =>
          match longest_strict_suffix st with
          | Some _ => (Ok (), self)
          | None =>
              match parent st with
              | None => (Raise AttributeError, self)
              | Some p =>
                  match heap self !! p with
                  | None => (Raise DanglingRef, self)
                  | Some pst =>
                      match lss_loop fuel self state (symbol st)
                              (longest_strict_suffix pst) with
                      | Ok suffix =>
                          let self1 :=
                            mutate state
                              (set_longest_strict_suffix (Some suffix)) self in
                          match heap self1 !! suffix with
                          | None => (Raise DanglingRef, self1)
                          | Some sst =>
                              let '(r, self2) :=
                                match longest_strict_suffix sst with
                                | None =>
                                    search_lss_limited limit' fuel self1 suffix
                                | Some _ => (Ok (), self1)
                                end in
                              match r with
                              | Ok _ =>
                                  match heap self2 !! suffix with
                                  | None => (Raise DanglingRef, self2)
                                  | Some sst2 =>
                                      (Ok (),
                                       mutate state
                                         (λ s, set_transitions
                                            (merge_loop (transitions sst2)
                                               (bool_decide (suffix = _zero_state self2))
                                               (transitions s)) s)
                                         self2)
                                  end
                              | _ => (r, self2)
                              end
                          end
                      | Raise e => (Raise e, self)
                      | OutOfFuel => (OutOfFuel, self)
                      end
                  end
              end
          end
      end
  end.

Fixpoint children_loop_limited (steps : nat) (limit fuel : nat)
    (processed : gset nat) (state : addr) (size i : nat)
    (to_process : list addr) (self : KeywordTree)
    : result (list addr) * KeywordTree :=
  match steps with
  | 0 => (OutOfFuel, self)
  | S steps' =>
      match heap self !! state with
      | None => (Raise DanglingRef, self)
      | Some st =>
          if decide (length (transitions st) ≠ size) then
            (Raise RuntimeError, self)
          else
            match dict_values (transitions st) !! i with
            | None => (Ok to_process, self)
            | Some child =>
                match heap self !! child with
                | None => (Raise DanglingRef, self)
                | Some cst =>
                    if decide (identifier cst ∈ processed) then
                      children_loop_limited steps' limit fuel processed state
                        size (S i) to_process self
                    else
                      match search_lss_limited limit fuel self child with
                      | (Ok _, self1) =>
                          children_loop_limited steps' limit fuel processed
                            state size (S i) (child :: to_process) self1
                      | (Raise e, self1) => (Raise e, self1)
                      | (OutOfFuel, self1) => (OutOfFuel, self1)
                      end
                end
            end
      end
  end.

Fixpoint process_loop_limited (n limit fuel : nat) (processed : gset nat)
    (to_process : list addr) (self : KeywordTree)
    : result unit * KeywordTree :=
  match n with
  | 0 => (OutOfFuel, self)
  | S n' =>
      match to_process with
      | [] => (Ok (), self)
      | state :: to_process' =>
          match heap self !! state with
          | None => (Raise DanglingRef, self)
          | Some st =>
              let processed' := {[identifier st]} ∪ processed in
              let size := length (transitions st) in
              match children_loop_limited (S size) limit fuel processed'
                      state size 0 to_process' self with
              | (Ok to_process'', self1) =>
                  process_loop_limited n' limit fuel processed'
                    to_process'' self1
              | (Raise e, self1) => (Raise e, self1)
              | (OutOfFuel, self1) => (OutOfFuel, self1)
              end
          end
      end
  end.

Definition search_lss_for_children_limited (limit fuel : nat)
    (self : KeywordTree) (zero_state : addr) : result unit * KeywordTree :=
  process_loop_limited fuel limit fuel ∅ [zero_state] self.

Definition finalize_limited (limit fuel : nat) (self : KeywordTree)
    : result unit * KeywordTree :=
  if _finalized self then
    (Raise (ValueError msg_already_finalized), self)
  else
    let self1 :=
      mutate (_zero_state self)
        (set_longest_strict_suffix (Some (_zero_state self))) self in
    match search_lss_for_children_limited limit fuel self1
            (_zero_state self1) with
    | (Ok _, self2) => (Ok (), with_finalized true self2)
    | (Raise e, self2) => (Raise e, self2)
    | (OutOfFuel, self2) => (OutOfFuel, self2)
    end.

(** *** __getstate__, __setstate__ *)

(** An entry of [state_list]: the dict built for one [State]. *)
Record Serialized : Type := mkSerialized {
  s_symbol : option sym;
  s_success : bool;
  s_parent : option nat;
  s_matched_keyword : option (list sym);
  s_longest_strict_suffix : option nat;
  s_transitions : list (sym * nat)
}.

Record Snapshot : Type := mkSnapshot {
  snap_case_insensitive : bool;
  snap_finalized : bool;
  snap_counter : nat;
  snap_states : list (option Serialized)
}.

(** [x.identifier if x is not None else None] *)
Definition identifier_of (h : list State) (x : option addr)
    : result (option nat) :=
  match x with
  | None => Ok None
  | Some a =>
      match h !! a with
      | None => Raise DanglingRef
      | Some st => Ok (Some (identifier st))
      end
  end.

(** [{key: value.identifier for key, value in d.items()}], the new dict
    being [acc] so far. *)
Fixpoint identifiers_of (h : list State) (d : list (sym * addr))
    (acc : list (sym * nat)) : result (list (sym * nat)) :=
  match d with
  | [] => Ok acc
  | (key, value) :: d' =>
      match h !! value with
      | None => Raise DanglingRef
      | Some st => identifiers_of h d' (dict_set key (identifier st) acc)
      end
  end.

Definition serialize (h : list State) (st : State) : result Serialized :=
  match identifiers_of h (transitions st) [] with
  | Ok tr =>
      match identifier_of h (parent st) with
      | Ok p =>
          match identifier_of h (longest_strict_suffix st) with
          | Ok f =>
              Ok {| s_symbol := symbol st; s_success := success st;
                    s_parent := p;
                    s_matched_keyword := matched_keyword st;
                    s_longest_strict_suffix := f;
                    s_transitions := tr |}
          | Raise e => Raise e
          | OutOfFuel => OutOfFuel
          end
      | Raise e => Raise e
      | OutOfFuel => OutOfFuel
      end
  | Raise e => Raise e
  | OutOfFuel => OutOfFuel
  end.

(** The [for child in state.transitions.values()] loop of [__getstate__];
    nothing is assigned to a [State] here.  [todo_list] has its top first. *)
Fixpoint getstate_children (h : list State)
    (state_list : list (option Serialized)) (children : list addr)
    (todo_list : list addr) : result (list addr) :=
  match children with
  | [] => Ok todo_list
  | child :: children' =>
      match h !! child with
      | None => Raise DanglingRef
      | Some cst =>
          if decide (length state_list ≤ identifier cst) then
            getstate_children h state_list children' (child :: todo_list)
          else
            match state_list !! identifier cst with
            | Some (Some _) =>
                getstate_children h state_list children' todo_list
            | _ =>
                getstate_children h state_list children' (child :: todo_list)
            end
      end
  end.

(** The [while todo_list] loop of [__getstate__]. *)
Fixpoint getstate_loop (n : nat) (h : list State)
    (state_list : list (option Serialized)) (todo_list : list addr)
    : result (list (option Serialized)) :=
  match n with
  | 0 => OutOfFuel
  | S n' =>
      match todo_list with
      | [] => Ok state_list
      | state :: todo_list' =>
          match h !! state with
          | None => Raise DanglingRef
          | Some st =>
              match serialize h st with
              | Ok ser =>
                  if decide (length state_list ≤ identifier st) then
                    Raise IndexError
                  else
                    let state_list' :=
                      <[identifier st := Some ser]> state_list in
                    match getstate_children h state_list'
                            (dict_values (transitions st)) todo_list' with
                    | Ok todo_list'' =>
                        getstate_loop n' h state_list' todo_list''
                    | Raise e => Raise e
                    | OutOfFuel => OutOfFuel
                    end
              | Raise e => Raise e
              | OutOfFuel => OutOfFuel
              end
          end
      end
  end.

Definition getstate (fuel : nat) (self : KeywordTree) : result Snapshot :=
  match getstate_loop fuel (heap self) (replicate (_counter self) None)
          [_zero_state self] with
  | Ok state_list =>
      Ok {| snap_case_insensitive := _case_insensitive self;
            snap_finalized := _finalized self;
            snap_counter := _counter self;
            snap_states := state_list |}
  | Raise e => Raise e
  | OutOfFuel => OutOfFuel
  end.

(** The first loop of [__setstate__]: one new [State] per entry, at the
    address that is its index. *)
Fixpoint setstate_create (idx : nat) (entries : list (option Serialized))
    : result (list State) :=
  match entries with
  | [] => Ok []
  | None :: _ => Raise TypeError
  | Some ser :: entries' =>
      match setstate_create (S idx) entries' with
      | Ok states =>
          Ok ({| identifier := idx; symbol := s_symbol ser;
                 success := s_success ser; transitions := [];
                 parent := None;
                 matched_keyword := s_matched_keyword ser;
                 longest_strict_suffix := None |} :: states)
      | Raise e => Raise e
      | OutOfFuel => OutOfFuel
      end
  end.

(** [states[i] if i is not None else None] *)
Definition state_at (n : nat) (i : option nat) : result (option addr) :=
  match i with
  | None => Ok None
  | Some i => if decide (i < n) then Ok (Some i) else Raise IndexError
  end.

(** [{key: states[value] for key, value in d.items()}], the new dict
    being [acc] so far. *)
Fixpoint states_at (n : nat) (d : list (sym * nat))
    (acc : list (sym * addr)) : result (list (sym * addr)) :=
  match d with
  | [] => Ok acc
  | (key, value) :: d' =>
      if decide (value < n) then states_at n d' (dict_set key value acc)
      else Raise IndexError
  end.

(** The second loop of [__setstate__], over the rest [entries] of
    [state['states']] from index [idx] on. *)
Fixpoint setstate_link (idx : nat) (entries : list (option Serialized))
    (states : list State) : result (list State) :=
  match entries with
  | [] => Ok states
  | None :: _ => Raise TypeError
  | Some ser :: entries' =>
      match state_at (length states) (s_longest_strict_suffix ser) with
      | Ok f =>
          match state_at (length states) (s_parent ser) with
          | Ok p =>
              match states_at (length states) (s_transitions ser) [] with
              | Ok tr =>
                  setstate_link (S idx) entries'
                    (alter (λ s,
                       {| identifier := identifier s; symbol := symbol s;
                          success := success s; transitions := tr;
                          parent := p;
                          matched_keyword := matched_keyword s;
                          longest_strict_suffix := f |}) idx states)
              | Raise e => Raise e
              | OutOfFuel => OutOfFuel
              end
          | Raise e => Raise e
          | OutOfFuel => OutOfFuel
          end
      | Raise e => Raise e
      | OutOfFuel => OutOfFuel
      end
  end.

(** [__setstate__] on a fresh instance; its [State] objects are the new
    list [states]. *)
Definition setstate (state : Snapshot) : result KeywordTree :=
  match setstate_create 0 (snap_states state) with
  | Ok states =>
      match setstate_link 0 (snap_states state) states with
      | Ok states' =>
          match states' with
          | [] => Raise IndexError
          | _ :: _ =>
              Ok {| heap := states'; _zero_state := 0;
                    _counter := snap_counter state;
                    _finalized := snap_finalized state;
                    _case_insensitive := snap_case_insensitive state |}
          end
      | Raise e => Raise e
      | OutOfFuel => OutOfFuel
      end
  | Raise e => Raise e
  | OutOfFuel => OutOfFuel
  end.

(** Adding keywords one after the other, stopping at the first failure. *)
Fixpoint add_all (keywords : list (list sym)) (self : KeywordTree)
    : result unit * KeywordTree :=
  match keywords with
  | [] => (Ok (), self)
  | keyword :: keywords' =>
      match add keyword self with
      | (Ok _, self1) => add_all keywords' self1
      | (Raise e, self1) => (Raise e, self1)
      | (OutOfFuel, self1) => (OutOfFuel, self1)
      end
  end.

End KeywordTree.

Arguments mutate {sym} a f self : simpl never.

(** ** reimplement_keywordtree.py *)

Module Kd.
Section KdTree.
Context {sym : Type} `{EqDecision sym}.
Variable lower : list sym → list sym.

Record State : Type := mkState {
  state_id : nat;
  symbol : option sym;
  parent : option addr;
  success : bool;
  transitions : list (sym * addr);
  keyword : option (list sym);
  failure : option addr
}.

Definition State_init (state_id : nat) (symbol : option sym)
    (parent : option addr) : State :=
  {| state_id := state_id; symbol := symbol; parent := parent;
     success := false; transitions := []; keyword := None;
     failure := None |}.

Definition set_transitions (d : list (sym * addr)) (s : State) : State :=
  {| state_id := state_id s; symbol := symbol s; parent := parent s;
     success := success s; transitions := d; keyword := keyword s;
     failure := failure s |}.

Definition set_failure (f : option addr) (s : State) : State :=
  {| state_id := state_id s; symbol := symbol s; parent := parent s;
     success := success s; transitions := transitions s;
     keyword := keyword s; failure := f |}.

Definition set_keyword (kw : list sym) (s : State) : State :=
  {| state_id := state_id s; symbol := symbol s; parent := parent s;
     success := true; transitions := transitions s; keyword := Some kw;
     failure := failure s |}.

Record KdTree : Type := mkTree {
  heap : list State;
  _zero_node : addr;
  case_sensitive : bool;
  _counter : nat;
  _finalized : bool
}.

Definition KdTree_init (case_sensitive : bool) : KdTree :=
  {| heap := [State_init 0 None None]; _zero_node := 0;
     case_sensitive := case_sensitive; _counter := 1;
     _finalized := false |}.

Definition with_heap (h : list State) (self : KdTree) : KdTree :=
  {| heap := h; _zero_node := _zero_node self;
     case_sensitive := case_sensitive self; _counter := _counter self;
     _finalized := _finalized self |}.

Definition with_counter (c : nat) (self : KdTree) : KdTree :=
  {| heap := heap self; _zero_node := _zero_node self;
     case_sensitive := case_sensitive self; _counter := c;
     _finalized := _finalized self |}.

Definition with_finalized (b : bool) (self : KdTree) : KdTree :=
  {| heap := heap self; _zero_node := _zero_node self;
     case_sensitive := case_sensitive self; _counter := _counter self;
     _finalized := b |}.

Definition mutate (a : addr) (f : State → State) (self : KdTree) : KdTree :=
  with_heap (alter f a (heap self)) self.

Definition msg_add_after_finalize : string :=
  "no new keyword once the tree is built".
Definition msg_finalize_twice : string :=
  "no failure path once the tree is built".
Definition msg_search_before_finalize : string :=
  "the tree has to be built before a search".

(** The [for character in keyword] loop of [add_keyword]. *)
Fixpoint add_loop (keyword : list sym) (current_node : addr) (self : KdTree)
    : result addr * KdTree :=
  match keyword with
  | [] => (Ok current_node, self)
  | character :: keyword' =>
      match heap self !! current_node with
      | None => (Raise DanglingRef, self)
      | Some cur =>
          match dict_get character (transitions cur) with
          | None =>
              let next_node := length (heap self) in
              let self1 :=
                with_heap (heap self ++
                  [State_init (_counter self) (Some character)
                     (Some current_node)]) self in
              let self2 := with_counter (S (_counter self1)) self1 in
              let self3 :=
                mutate current_node
                  (λ s, set_transitions
                          (dict_set character next_node (transitions s)) s)
                  self2 in
              add_loop keyword' next_node self3
          | Some nxt => add_loop keyword' nxt self
          end
      end
  end.

Definition add_keyword (keyword : list sym) (self : KdTree)
    : result unit * KdTree :=
  if _finalized self then (Raise (ValueError msg_add_after_finalize), self)
  else
    let origin_keyword := keyword in
    let keyword := if negb (case_sensitive self) then lower keyword
                   else keyword in
    match add_loop keyword (_zero_node self) self with
    | (Ok current_node, self1) =>
        (Ok (), mutate current_node (set_keyword origin_keyword) self1)
    | (Raise e, self1) => (Raise e, self1)
    | (OutOfFuel, self1) => (OutOfFuel, self1)
    end.

(** The [for symbol, node in node.failure.transitions.items()] loop of
    [find_failure]: the loop variable [node] hides the argument, so each
    target of the failure node gets a transition to itself. *)
Fixpoint selfloop_loop (items : list (sym * addr)) (self : KdTree)
    : result unit * KdTree :=
  match items with
  | [] => (Ok (), self)
  | (symbol, node) :: items' =>
      match heap self !! node with
      | None => (Raise DanglingRef, self)
      | Some nst =>
          if dict_has symbol (transitions nst) then
            selfloop_loop items' self
          else
            selfloop_loop items'
              (mutate node
                 (λ s, set_transitions (dict_set symbol node (transitions s)) s)
                 self)
      end
  end.

(** The [while True] loop of [find_failure]. *)
Fixpoint failure_loop (fuel : nat) (self : KdTree) (node : addr)
    (node_symbol : option sym) (traversed_node : option addr)
    : result unit * KdTree :=
  match fuel with
  | 0 => (OutOfFuel, self)
  | S fuel' =>
      match traversed_node with
      | None => (Raise AttributeError, self)
      | Some tr =>
          match heap self !! tr with
          | None => (Raise DanglingRef, self)
          | Some trs =>
              let target :=
                match node_symbol with
                | Some c => dict_get c (transitions trs)
                | None => None
                end in
              let otherwise :=
                if decide (tr = _zero_node self) then
                  (Ok (), mutate node (set_failure (Some (_zero_node self))) self)
                else failure_loop fuel' self node node_symbol (failure trs) in
              match target with
              | Some tgt =>
                  if decide (node ≠ tgt) then
                    let self1 := mutate node (set_failure (Some tgt)) self in
                    match heap self1 !! tgt with
                    | None => (Raise DanglingRef, self1)
                    | Some fst => selfloop_loop (transitions fst) self1
                    end
                  else otherwise
              | None => otherwise
              end
          end
      end
  end.

Definition find_failure (fuel : nat) (self : KdTree) (node : addr)
    : result unit * KdTree :=
  match heap self !! node with
  | None => (Raise DanglingRef, self)
  | Some nst =>
      match failure nst with
      | Some _ => (Ok (), self)
      | None =>
          match parent nst with
          | None => (Raise AttributeError, self)
          | Some p =>
              match heap self !! p with
              | None => (Raise DanglingRef, self)
              | Some pst =>
                  failure_loop fuel self node (symbol nst) (failure pst)
              end
          end
      end
  end.

(** The [for child in children] loop of [find_failure_for_children], over
    the live view [current_node.transitions.values()]. *)
Fixpoint children_loop (steps fuel : nat) (current_node : addr)
    (size i : nat) (to_add : list addr) (self : KdTree)
    : result (list addr) * KdTree :=
  match steps with
  | 0 => (OutOfFuel, self)
  | S steps' =>
      match heap self !! current_node with
      | None => (Raise DanglingRef, self)
      | Some st =>
          if decide (length (transitions st) ≠ size) then
            (Raise RuntimeError, self)
          else
            match dict_values (transitions st) !! i with
            | None => (Ok to_add, self)
            | Some child =>
                match find_failure fuel self child with
                | (Ok _, self1) =>
                    children_loop steps' fuel current_node size (S i)
                      (child :: to_add) self1
                | (Raise e, self1) => (Raise e, self1)
                | (OutOfFuel, self1) => (OutOfFuel, self1)
                end
            end
      end
  end.

(** The [while to_add_failure_nodes] loop. *)
Fixpoint process_loop (n fuel : nat) (processed_node_id : gset nat)
    (to_add : list addr) (self : KdTree) : result unit * KdTree :=
  match n with
  | 0 => (OutOfFuel, self)
  | S n' =>
      match to_add with
      | [] => (Ok (), self)
      | current_node :: to_add' =>
          match heap self !! current_node with
          | None => (Raise DanglingRef, self)
          | Some st =>
              if decide (state_id st ∈ processed_node_id) then
                process_loop n' fuel processed_node_id to_add' self
              else
                let processed' := {[state_id st]} ∪ processed_node_id in
                let size := length (transitions st) in
                match children_loop (S size) fuel current_node size 0
                        to_add' self with
                | (Ok to_add'', self1) =>
                    process_loop n' fuel processed' to_add'' self1
                | (Raise e, self1) => (Raise e, self1)
                | (OutOfFuel, self1) => (OutOfFuel, self1)
                end
          end
      end
  end.

Definition find_failure_for_children (fuel : nat) (self : KdTree)
    (zero_node : addr) : result unit * KdTree :=
  process_loop fuel fuel ∅ [zero_node] self.

Definition finalize (fuel : nat) (self : KdTree) : result unit * KdTree :=
  if _finalized self then (Raise (ValueError msg_finalize_twice), self)
  else
    let self1 :=
      mutate (_zero_node self) (set_failure (Some (_zero_node self))) self in
    match find_failure_for_children fuel self1 (_zero_node self1) with
    | (Ok _, self2) => (Ok (), with_finalized true self2)
    | (Raise e, self2) => (Raise e, self2)
    | (OutOfFuel, self2) => (OutOfFuel, self2)
    end.

(** The [for idx, symbol in enumerate(text)] loop of [search_all]. *)
Fixpoint search_loop (self : KdTree) (idx : nat) (text : list sym)
    (current_node : addr) : list (list sym * Z) * ending :=
  match text with
  | [] => ([], Done)
  | symbol :: text' =>
      match heap self !! current_node with
      | None => ([], Raised DanglingRef)
      | Some cur =>
          match dict_get symbol (transitions cur) with
          | Some nxt =>
              match heap self !! nxt with
              | None => ([], Raised DanglingRef)
              | Some nst =>
                  if success nst then
                    match keyword nst with
                    | None => ([], Raised TypeError)
                    | Some keyword =>
                        let '(ys, e) :=
                          search_loop self (S idx) text' current_node in
                        ((keyword,
                          (Z.of_nat idx + 1 - Z.of_nat (length keyword))%Z)
                           :: ys, e)
                    end
                  else search_loop self (S idx) text' nxt
              end
          | None => search_loop self (S idx) text' current_node
          end
      end
  end.

Definition search_all (self : KdTree) (text : list sym)
    : list (list sym * Z) * ending :=
  if negb (_finalized self) then
    ([], Raised (ValueError msg_search_before_finalize))
  else
    let text := if negb (case_sensitive self) then lower text else text in
    search_loop self 0 text (_zero_node self).

Fixpoint add_all (keywords : list (list sym)) (self : KdTree)
    : result unit * KdTree :=
  match keywords with
  | [] => (Ok (), self)
  | keyword :: keywords' =>
      match add_keyword keyword self with
      | (Ok _, self1) => add_all keywords' self1
      | (Raise e, self1) => (Raise e, self1)
      | (OutOfFuel, self1) => (OutOfFuel, self1)
      end
  end.

End KdTree.
End Kd.

(** ** Strings of the examples *)

Definition str (s : string) : list ascii := list_ascii_of_string s.

Definition ascii_lower_char (c : ascii) : ascii :=
  let n := nat_of_ascii c in
  if (65 <=? n) && (n <=? 90) then ascii_of_nat (n + 32) else c.

(** [str.lower] on ASCII text. *)
Definition ascii_lower (s : list ascii) : list ascii := map ascii_lower_char s.

(** ** Words of the trie, and the reference matcher *)

Section WordsDef.
Context {sym : Type} `{EqDecision sym}.

(** The longest suffix of [w] that is in [W] (the empty word if none). *)
Fixpoint lsuf (W : list (list sym)) (w : list sym) : list sym :=
  match w with
  | [] => []
  | _ :: w' => if decide (w ∈ W) then w else lsuf W w'
  end.

(** The longest strict suffix of [w] in [W]. *)
Definition fail (W : list (list sym)) (w : list sym) : list sym :=
  lsuf W (tail w).

(** The non-empty suffixes of [w], longest first. *)
Fixpoint tails (w : list sym) : list (list sym) :=
  match w with
  | [] => []
  | _ :: w' => w :: tails w'
  end.

(** The keyword reported for the folded word [w]: the last one added
    whose folded form is [w]; none for the empty word. *)
Definition keyword_of (fold : list sym → list sym)
    (keywords : list (list sym)) (w : list sym) : option (list sym) :=
  if decide (w = []) then None
  else last (filter (λ k, fold k = w) keywords).

(** What is to be reported once the folded text read so far is [pre]. *)
Definition matches_ending (fold : list sym → list sym)
    (keywords : list (list sym)) (pre : list sym) : list (list sym * Z) :=
  flat_map
    (λ u, match keyword_of fold keywords u with
          | Some k => [(k, (Z.of_nat (length pre) - Z.of_nat (length k))%Z)]
          | None => []
          end)
    (tails pre).

(** The reference matcher: at each position of the folded text, the
    keywords that end there. *)
Definition reference_search (fold : list sym → list sym)
    (keywords : list (list sym)) (text : list sym) : list (list sym * Z) :=
  flat_map (λ i, matches_ending fold keywords (take (S i) text))
    (seq 0 (length text)).

(** With a word, [W] has its prefixes. *)
Definition prefix_closed (W : list (list sym)) : Prop :=
  ∀ x c, x ++ [c] ∈ W → x ∈ W.

(** The match that the folded word [u] gives rise to, if any, in a text
    whose part read so far has length [n]. *)
Definition emit (fold : list sym → list sym) (keywords : list (list sym))
    (n : Z) (u : list sym) : list (list sym * Z) :=
  match keyword_of fold keywords u with
  | Some k => [(k, (n - Z.of_nat (length k))%Z)]
  | None => []
  end.
End WordsDef.

(** ** Invariants of the keyword tree

    [wd] lists, address by address, the word that leads from the root to
    the [State] at that address. *)

Section InvariantsDef.
Context {sym : Type} `{EqDecision sym}.

(** [d] holds exactly the tree edges below the node of [w]. *)
Definition tree_dict (wd : list (list sym)) (w : list sym)
    (d : list (sym * addr)) : Prop :=
  NoDup d.*1 ∧ ∀ c b, dict_get c d = Some b ↔ wd !! b = Some (w ++ [c]).

(** [d] is the merged transition function at the node of [w]: on [c] it
    leads to the longest suffix of [w ++ [c]] in the trie, unless that is
    a word which only the root leads to. *)
Definition goto_dict (wd : list (list sym)) (w : list sym)
    (d : list (sym * addr)) : Prop :=
  NoDup d.*1 ∧
  ∀ c b, dict_get c d = Some b ↔
    wd !! b = Some (lsuf wd (w ++ [c])) ∧
    (w = [] ∧ lsuf wd (w ++ [c]) ≠ [] ∨ 2 ≤ length (lsuf wd (w ++ [c]))).

Record shape (wd : list (list sym)) (self : @KeywordTree sym) : Prop := {
  shape_len : length (heap self) = length wd;
  shape_counter : _counter self = length wd;
  shape_zero : _zero_state self = 0;
  shape_root : wd !! 0 = Some [];
  shape_nodup : NoDup wd;
  shape_id : ∀ a st, heap self !! a = Some st → identifier st = a;
  shape_root_state : ∀ st, heap self !! 0 = Some st →
    parent st = None ∧ symbol st = None;
  shape_parent : ∀ a st w, heap self !! a = Some st → wd !! a = Some w →
    a ≠ 0 →
    ∃ x c p, w = x ++ [c] ∧ wd !! p = Some x ∧
             parent st = Some p ∧ symbol st = Some c
}.

(** The match marks are those of the keywords [ks] added so far. *)
Definition marks (fold : list sym → list sym) (ks : list (list sym))
    (wd : list (list sym)) (self : @KeywordTree sym) : Prop :=
  (∀ a st w, heap self !! a = Some st → wd !! a = Some w →
     matched_keyword st = keyword_of fold ks w ∧
     (success st = true ↔ is_Some (keyword_of fold ks w))) ∧
  (∀ k, k ∈ ks → fold k ∈ wd).

(** A tree before [finalize]. *)
Definition unlinked (wd : list (list sym)) (self : @KeywordTree sym) : Prop :=
  ∀ a st w, heap self !! a = Some st → wd !! a = Some w →
    longest_strict_suffix st = None ∧ tree_dict wd w (transitions st).

Definition the_fold (lower : list sym → list sym) (ci : bool)
    : list sym → list sym :=
  if ci then lower else id.

(** What [add] keeps: the tree of the keywords [ks], not yet finalized. *)
Definition built (lower : list sym → list sym) (ks : list (list sym))
    (wd : list (list sym)) (self : @KeywordTree sym) : Prop :=
  shape wd self ∧
  marks (the_fold lower (_case_insensitive self)) ks wd self ∧
  unlinked wd self ∧
  _finalized self = false.
End InvariantsDef.

Section LinkDef.
Context {sym : Type} `{EqDecision sym}.

(** [finalize] has given the state at [a] its suffix link. *)
Definition resolved (self : @KeywordTree sym) (a : addr) : Prop :=
  ∃ st, heap self !! a = Some st ∧ is_Some (longest_strict_suffix st).

(** Only [transitions] and [longest_strict_suffix] differ. *)
Definition same_static (self self' : @KeywordTree sym) : Prop :=
  length (heap self') = length (heap self) ∧
  _zero_state self' = _zero_state self ∧
  _counter self' = _counter self ∧
  _case_insensitive self' = _case_insensitive self ∧
  ∀ a st', heap self' !! a = Some st' →
    ∃ st, heap self !! a = Some st ∧
      identifier st' = identifier st ∧ symbol st' = symbol st ∧
      parent st' = parent st ∧ success st' = success st ∧
      matched_keyword st' = matched_keyword st.

(** The state at [a] while [finalize] runs on what was [self0]: without
    link it is as it was; with a link, the link is the longest strict
    suffix and the transitions are merged from those of the link. *)
Definition node_ok (wd : list (list sym)) (self0 self : @KeywordTree sym)
    (a : addr) : Prop :=
  ∀ st w, heap self !! a = Some st → wd !! a = Some w →
    ∃ st0, heap self0 !! a = Some st0 ∧
    match longest_strict_suffix st with
    | None => transitions st = transitions st0
    | Some f =>
        wd !! f = Some (fail wd w) ∧
        goto_dict wd w (transitions st) ∧
        ∃ fst, heap self !! f = Some fst ∧
               is_Some (longest_strict_suffix fst) ∧
               transitions st =
                 merge_loop (transitions fst) (bool_decide (f = 0))
                   (transitions st0)
    end.

(** All states of depth at most [d] are as [finalize] wants them. *)
Definition ok_upto (wd : list (list sym)) (self0 self : @KeywordTree sym)
    (d : nat) : Prop :=
  ∀ b u, wd !! b = Some u → length u ≤ d → node_ok wd self0 self b.

(** What a step of [finalize] leaves alone. *)
Definition frame_resolved (self self' : @KeywordTree sym) : Prop :=
  ∀ b, resolved self b → heap self' !! b = heap self !! b.

Definition frame_deeper (wd : list (list sym))
    (self self' : @KeywordTree sym) (d : nat) : Prop :=
  ∀ b u, wd !! b = Some u → d < length u → heap self' !! b = heap self !! b.

(** The tree after [finalize]. *)
Definition linked (wd : list (list sym)) (self0 self : @KeywordTree sym)
    : Prop :=
  shape wd self ∧ same_static self0 self ∧ _finalized self = true ∧
  ∀ a, a < length wd → resolved self a ∧ node_ok wd self0 self a.
End LinkDef.

Section LinkingDef.
Context {sym : Type} `{EqDecision sym}.

(** The invariant of [search_lss_for_children], between two calls of
    [search_lss]; [self0] is the tree [finalize] was called on. *)
Definition linking (wd : list (list sym)) (self0 self : @KeywordTree sym)
    : Prop :=
  shape wd self ∧ same_static self0 self ∧ resolved self 0 ∧
  (∀ b st0 u, heap self0 !! b = Some st0 → wd !! b = Some u →
     tree_dict wd u (transitions st0)) ∧
  ∀ d, ok_upto wd self0 self d.

(** The invariant of the stack [to_process] (top first) and the set
    [processed]: the children of a processed state are processed or on
    the stack, and above every copy of that state which is still on the
    stack. *)
Definition dfs_inv (self : @KeywordTree sym) (processed : gset nat)
    (to_process : list nat) : Prop :=
  (∀ y, y ∈ to_process → resolved self y) ∧
  (∀ y, y ∈ processed → resolved self y) ∧
  (∀ y yst k, y ∈ processed → heap self !! y = Some yst →
     k ∈ dict_values (transitions yst) → k ∈ processed ∨ k ∈ to_process) ∧
  (∀ y yst k l1 l2, y ∈ processed → heap self !! y = Some yst →
     k ∈ dict_values (transitions yst) → k ∉ processed →
     to_process = l1 ++ y :: l2 → k ∈ l1).

(** A bound on the iterations that [search_lss_for_children] still makes. *)
Definition dfs_potential (n : nat) (processed : gset nat)
    (to_process : list nat) : nat :=
  length to_process +
  length (filter (λ a, a ∉ processed) (seq 0 n)) * S n.

(** Fuel that is enough to finalize a tree of [n] states. *)
Definition enough_fuel (n : nat) : nat := n * S n + 2.
End LinkingDef.

Section SearchDef.
Context {sym : Type} `{EqDecision sym}.

(** [reference_search], position by position: [pre] is the folded text
    already read. *)
Fixpoint reference_loop (fold : list sym → list sym)
    (keywords : list (list sym)) (pre text : list sym)
    : list (list sym * Z) :=
  match text with
  | [] => []
  | c :: text' =>
      matches_ending fold keywords (pre ++ [c]) ++
      reference_loop fold keywords (pre ++ [c]) text'
  end.

(** [KeywordTree(case_insensitive=ci)], then [add] for each of [ks]. *)
Definition added (lower : list sym → list sym) (ci : bool)
    (ks : list (list sym)) : result unit * @KeywordTree sym :=
  add_all lower ks (KeywordTree_init ci).

(** ... and then [finalize()]: the tree one searches in. *)
Definition build (lower : list sym → list sym) (ci : bool)
    (ks : list (list sym)) (fuel : nat) : result (@KeywordTree sym) :=
  match added lower ci ks with
  | (Ok _, self0) =>
      match finalize fuel self0 with
      | (Ok _, self) => Ok self
      | (Raise e, _) => Raise e
      | (OutOfFuel, _) => OutOfFuel
      end
  | (Raise e, _) => Raise e
  | (OutOfFuel, _) => OutOfFuel
  end.

(** Fuel with which [finalize] and every search on the tree of [ks]
    come to their end. *)
Definition fuel_for (lower : list sym → list sym) (ci : bool)
    (ks : list (list sym)) : nat :=
  enough_fuel (_counter (added lower ci ks).2).
End SearchDef.

Section MatchesDef.
Context {sym : Type} `{EqDecision sym}.

(** [u] occurs in [text] as a contiguous substring that starts at [i]. *)
Definition occurs_at (u text : list sym) (i : nat) : Prop :=
  i + length u ≤ length text ∧ take (length u) (drop i text) = u.

(** The end position of a match: start offset plus keyword length. *)
Definition end_pos (m : list sym * Z) : Z :=
  (m.2 + Z.of_nat (length m.1))%Z.

(** The order in which two matches are yielded: by end position, and at
    the same end position the one whose folded keyword is longer first. *)
Definition yielded_before (fold : list sym → list sym)
    (m1 m2 : list sym * Z) : Prop :=
  (end_pos m1 < end_pos m2)%Z ∨
  end_pos m1 = end_pos m2 ∧ length (fold m2.1) < length (fold m1.1).

(** How often the match [m] is yielded. *)
Definition times_yielded (m : list sym * Z) (l : list (list sym * Z))
    : nat :=
  length (filter (λ y, y = m) l).
End MatchesDef.

Section SnapshotDef.
Context {sym : Type} `{EqDecision sym}.

(** The entry that [__getstate__] writes for a state whose references
    carry their address as identifier. *)
Definition ser (st : @State sym) : @Serialized sym :=
  {| s_symbol := symbol st; s_success := success st;
     s_parent := parent st; s_matched_keyword := matched_keyword st;
     s_longest_strict_suffix := longest_strict_suffix st;
     s_transitions := transitions st |}.

(** The state that the first loop of [__setstate__] makes at [idx]. *)
Definition blank (idx : nat) (st : @State sym) : @State sym :=
  {| identifier := idx; symbol := symbol st; success := success st;
     transitions := []; parent := None;
     matched_keyword := matched_keyword st;
     longest_strict_suffix := None |}.

(** Every reference in the store is to a state of the store, and states
    are identified by their address. *)
Definition closed_heap (h : list (@State sym)) : Prop :=
  ∀ a st, h !! a = Some st →
    identifier st = a ∧
    (∀ p, parent st = Some p → p < length h) ∧
    (∀ f, longest_strict_suffix st = Some f → f < length h) ∧
    NoDup (transitions st).*1 ∧
    (∀ k, k ∈ dict_values (transitions st) → k < length h).

(** The invariant of the loop of [__getstate__]: the entries written so
    far, and the set [filled] of their indices. *)
Definition getstate_inv (h : list (@State sym))
    (state_list : list (option (@Serialized sym))) (filled : gset nat)
    : Prop :=
  length state_list = length h ∧
  (∀ i, i ∈ filled ↔ ∃ s, state_list !! i = Some (Some s)) ∧
  (∀ i s, state_list !! i = Some (Some s) →
     ∃ st, h !! i = Some st ∧ s = ser st).
End SnapshotDef.

Section DepthDef.
Context {sym : Type} `{EqDecision sym}.

(** The distance of the state at [a] from the root, along [parent]. *)
Fixpoint depth (fuel : nat) (h : list (@State sym)) (a : addr)
    : option nat :=
  match fuel with
  | 0 => None
  | S fuel' =>
      match h !! a with
      | None => None
      | Some st =>
          match parent st with
          | None => Some 0
          | Some p => S <$> depth fuel' h p
          end
      end
  end.
End DepthDef.

(** [str.lower] of Python 3 on the code points of the examples: the ASCII
    capitals, and U+0130 (capital I with dot above), whose lower case is
    the two code points U+0069 U+0307. *)
Definition unicode_lower_char (c : N) : list N :=
  if ((65 <=? c) && (c <=? 90))%N then [(c + 32)%N]
  else if (c =? 304)%N then [105%N; 775%N]
  else [c].

Definition unicode_lower (s : list N) : list N :=
  flat_map unicode_lower_char s.

(** [KdTree(case_sensitive)], [add_keyword] for each of [ks], [finalize()]. *)
Definition kd_build {sym : Type} `{EqDecision sym}
    (lower : list sym → list sym) (case_sensitive : bool)
    (ks : list (list sym)) (fuel : nat) : result (@Kd.KdTree sym) :=
  match Kd.add_all lower ks (Kd.KdTree_init case_sensitive) with
  | (Ok _, self0) =>
      match Kd.finalize fuel self0 with
      | (Ok _, self) => Ok self
      | (Raise e, _) => Raise e
      | (OutOfFuel, _) => OutOfFuel
      end
  | (Raise e, _) => Raise e
  | (OutOfFuel, _) => OutOfFuel
  end.

(** The keywords of the examples, their tree before and after [finalize]. *)
Definition demo_keywords : list (list ascii) :=
  [str "he"; str "she"; str "his"; str "hers"].

Definition demo_tree0 : @KeywordTree ascii :=
  (added ascii_lower false demo_keywords).2.

Definition demo_tree : @KeywordTree ascii := (finalize 112 demo_tree0).2.

Section WordOfDef.
Context {sym : Type} `{EqDecision sym}.

(** The word that the symbols spell on the way from the root to the state
    at [a], read off the [parent] and [symbol] attributes. *)
Fixpoint word_of (fuel : nat) (h : list (@State sym)) (a : addr)
    : option (list sym) :=
  match fuel with
  | 0 => None
  | S fuel' =>
      match h !! a with
      | None => None
      | Some st =>
          match parent st with
          | None => Some []
          | Some p =>
              match symbol st with
              | None => None
              | Some c => (λ w, w ++ [c]) <$> word_of fuel' h p
              end
          end
      end
  end.

(** The prefixes of [w], from the empty one to [w] itself. *)
Definition prefixes (w : list sym) : list (list sym) :=
  (λ i, take i w) <$> seq 0 (S (length w)).

(** The state that [search_all] goes to from [current_state] on [symbol]:
    [current_state.transitions.get(symbol,
       self._zero_state.transitions.get(symbol, self._zero_state))]. *)
Definition next_state (self : @KeywordTree sym) (current_state : addr)
    (symbol : sym) : option addr :=
  match heap self !! current_state, heap self !! _zero_state self with
  | Some cur, Some zero =>
      Some (default (default (_zero_state self)
                       (dict_get symbol (transitions zero)))
                    (dict_get symbol (transitions cur)))
  | _, _ => None
  end.
End WordOfDef.

Section KdDef.
Context {sym : Type} `{EqDecision sym}.

(** A [State] of keywordtree.py read as one of the re-implementation,
    attribute by attribute. *)
Definition kd_of_state (st : @State sym) : @Kd.State sym :=
  {| Kd.state_id := identifier st; Kd.symbol := symbol st;
     Kd.parent := parent st; Kd.success := success st;
     Kd.transitions := transitions st; Kd.keyword := matched_keyword st;
     Kd.failure := longest_strict_suffix st |}.

Definition kd_of_tree (self : @KeywordTree sym) : @Kd.KdTree sym :=
  {| Kd.heap := kd_of_state <$> heap self;
     Kd._zero_node := _zero_state self;
     Kd.case_sensitive := negb (_case_insensitive self);
     Kd._counter := _counter self;
     Kd._finalized := _finalized self |}.

(** What every call of the re-implementation keeps: the root is there,
    transitions lead to states, and a state marked as a match holds one
    of the keywords [ks]. *)
Definition kd_inv (ks : list (list sym)) (self : @Kd.KdTree sym) : Prop :=
  Kd._zero_node self < length (Kd.heap self) ∧
  ∀ a st, Kd.heap self !! a = Some st →
    (∀ c b, dict_get c (Kd.transitions st) = Some b →
       b < length (Kd.heap self)) ∧
    (Kd.success st = true → ∃ k, k ∈ ks ∧ Kd.keyword st = Some k).
End KdDef.

(** Two keywords, one a suffix of the other, and a record that no
    [__getstate__] gives, for the examples. *)
Definition she_he : list (list ascii) := [str "she"; str "he"].

Definition holed_snapshot : @Snapshot ascii :=
  {| snap_case_insensitive := false; snap_finalized := true;
     snap_counter := 1; snap_states := [None] |}.

(** * Proofs *)

Section Words.
Context {sym : Type} `{EqDecision sym}.
Implicit Types (w u v x : list sym) (W : list (list sym)) (c : sym).

Lemma lsuf_suffix W w : lsuf W w `suffix_of` w.
Proof.
  induction w as [|a w IH]; simpl; [done|].
  case_decide; [done|]. by apply suffix_cons_r.
Qed.

Lemma lsuf_in W w : [] ∈ W → lsuf W w ∈ W.
Proof. intros H0. induction w as [|a w IH]; simpl; [done|]. by case_decide. Qed.

Lemma lsuf_max W w u : u `suffix_of` w → u ∈ W → u `suffix_of` lsuf W w.
Proof.
  induction w as [|a w IH]; simpl; intros Hs Hu; [done|].
  case_decide; [done|].
  destruct u as [|b u]; [apply suffix_nil|].
  apply suffix_cons_inv in Hs as [E|Hs]; [by rewrite E in Hu|]. by apply IH.
Qed.

Lemma lsuf_id W w : w ∈ W → lsuf W w = w.
Proof. destruct w; simpl; [done|]. intros. by rewrite decide_True. Qed.

Lemma lsuf_length W w : length (lsuf W w) ≤ length w.
Proof. apply suffix_length, lsuf_suffix. Qed.

Lemma suffix_antisym u v : u `suffix_of` v → v `suffix_of` u → u = v.
Proof.
  intros [k1 E1] [k2 E2]. rewrite E2 in E1.
  assert (length k1 = 0 ∧ length k2 = 0) as [L1 L2].
  { apply (f_equal length) in E1. rewrite !length_app in E1. lia. }
  destruct k2; [|done]. by rewrite E2.
Qed.

Lemma lsuf_unique W w v :
  [] ∈ W → v `suffix_of` w → v ∈ W →
  (∀ u, u `suffix_of` w → u ∈ W → u `suffix_of` v) →
  lsuf W w = v.
Proof.
  intros H0 Hs Hv Hmax. apply suffix_antisym.
  - apply Hmax; [apply lsuf_suffix|by apply lsuf_in].
  - by apply lsuf_max.
Qed.

Lemma suffix_snoc_inv' u x c :
  u `suffix_of` x ++ [c] → u = [] ∨ ∃ u', u = u' ++ [c] ∧ u' `suffix_of` x.
Proof.
  destruct u as [|b u _] using rev_ind; [by left|]. intros Hs. right.
  apply suffix_snoc_inv_1 in Hs as E. subst b.
  exists u. split; [done|]. by apply suffix_snoc_inv_2 in Hs.
Qed.

Lemma lsuf_snoc W x c :
  prefix_closed W → [] ∈ W →
  lsuf W (x ++ [c]) = lsuf W (lsuf W x ++ [c]).
Proof.
  intros Hpc H0. apply lsuf_unique; [done| | |].
  - etrans; [apply lsuf_suffix|]. apply suffix_app, lsuf_suffix.
  - by apply lsuf_in.
  - intros u Hu HW. apply lsuf_max; [|done].
    apply suffix_snoc_inv' in Hu as [->|(u' & -> & Hu')]; [apply suffix_nil|].
    apply suffix_app, lsuf_max; [done|]. by apply Hpc in HW.
Qed.

Lemma fail_length W w : w ≠ [] → length (fail W w) < length w.
Proof.
  destruct w as [|a w]; [done|]. intros _. unfold fail. simpl.
  pose proof (lsuf_length W w). lia.
Qed.

Lemma fail_nil W : fail W [] = [].
Proof. done. Qed.

Lemma fail_in W w : [] ∈ W → fail W w ∈ W.
Proof. apply lsuf_in. Qed.

Lemma fail_suffix W w : fail W w `suffix_of` w.
Proof.
  unfold fail. etrans; [apply lsuf_suffix|]. destruct w; [done|].
  simpl. by apply suffix_cons_r.
Qed.

Lemma fail_snoc W x c :
  prefix_closed W → [] ∈ W → x ≠ [] →
  fail W (x ++ [c]) = lsuf W (fail W x ++ [c]).
Proof.
  intros Hpc H0 Hx. unfold fail. destruct x as [|a x]; [done|]. simpl.
  by apply lsuf_snoc.
Qed.

Lemma fail_single W c : fail W [c] = [].
Proof. done. Qed.

(** Strict suffixes in [W] are suffixes of [fail]. *)
Lemma fail_max W w u :
  u `suffix_of` w → u ≠ w → u ∈ W → u `suffix_of` fail W w.
Proof.
  intros Hs Hne HW. unfold fail. apply lsuf_max; [|done].
  destruct w as [|a w]; [by apply suffix_nil_inv in Hs|]. simpl.
  destruct u as [|b u]; [apply suffix_nil|].
  by apply suffix_cons_inv in Hs as [E|Hs].
Qed.

Lemma filter_tails_lsuf W w :
  filter (λ u, u ∈ W) (tails w) = filter (λ u, u ∈ W) (tails (lsuf W w)).
Proof.
  induction w as [|a w IH]; simpl; [done|].
  case_decide as Hin; [done|]. by rewrite filter_cons_False.
Qed.

Lemma filter_tails_cons W w :
  w ≠ [] → w ∈ W →
  filter (λ u, u ∈ W) (tails w) = w :: filter (λ u, u ∈ W) (tails (fail W w)).
Proof.
  destruct w as [|a w]; [done|]. intros _ Hin. simpl.
  rewrite filter_cons_True by done. f_equal. apply filter_tails_lsuf.
Qed.

Lemma elem_of_tails w u : u ∈ tails w ↔ u ≠ [] ∧ u `suffix_of` w.
Proof.
  induction w as [|a w IH]; simpl.
  - split; [by intros ?%elem_of_nil|]. intros [Hne Hs].
    by apply suffix_nil_inv in Hs.
  - rewrite elem_of_cons, IH. split.
    + intros [->|[Hne Hs]]; [done|]. split; [done|by apply suffix_cons_r].
    + intros [Hne Hs]. destruct u as [|b u]; [done|].
      apply suffix_cons_inv in Hs as [E|Hs]; [by left|by right].
Qed.
End Words.

Section Words2.
Context {sym : Type} `{EqDecision sym}.
Implicit Types (w u v x : list sym) (W : list (list sym)) (c : sym).

Lemma lsuf_not_in W w : w ∉ W → lsuf W w = fail W w.
Proof. destruct w; [done|]. intros. simpl. by rewrite decide_False. Qed.

Lemma lsuf_ne W w : lsuf W w ≠ w → lsuf W w = fail W w.
Proof.
  intros Hne. apply lsuf_not_in. intros Hin. by apply lsuf_id in Hin.
Qed.

Lemma lsuf_single W c : lsuf W [c] = if decide ([c] ∈ W) then [c] else [].
Proof. done. Qed.

Lemma lsuf_snoc_nonempty W x c :
  lsuf W (x ++ [c]) ≠ [] → ∃ u, lsuf W (x ++ [c]) = u ++ [c] ∧ u `suffix_of` x.
Proof.
  intros Hne. pose proof (lsuf_suffix W (x ++ [c])) as Hs.
  apply suffix_snoc_inv' in Hs as [?|(u & ? & ?)]; [done|]. by exists u.
Qed.

(** A short result of [lsuf] does not depend on the front of the word. *)
Lemma lsuf_short W x c :
  prefix_closed W → [] ∈ W → x ≠ [] →
  length (lsuf W (x ++ [c])) < 2 →
  lsuf W (fail W x ++ [c]) = lsuf W (x ++ [c]).
Proof.
  intros Hpc H0 Hx Hlen. rewrite <-fail_snoc by done. symmetry.
  apply lsuf_ne. intros E. rewrite E in Hlen. rewrite length_app in Hlen.
  destruct x; simpl in *; [done|lia].
Qed.
End Words2.

Section DictLemmas.
Context {K V : Type} `{EqDecision K}.
Implicit Types (d : list (K * V)).

Lemma dict_get_None k d : dict_get k d = None ↔ k ∉ d.*1.
Proof.
  induction d as [|[k' v] d IH]; simpl.
  - split; [intros _ ?%elem_of_nil; done|done].
  - case_decide; subst.
    + split; [done|]. intros Hn. exfalso. apply Hn. apply elem_of_cons; by left.
    + rewrite IH. rewrite not_elem_of_cons. naive_solver.
Qed.

Lemma dict_get_Some_elem k v d : dict_get k d = Some v → (k, v) ∈ d.
Proof.
  induction d as [|[k' v'] d IH]; simpl; [done|].
  case_decide; subst.
  - intros [= ->]. apply elem_of_cons; by left.
  - intros. apply elem_of_cons; right; auto.
Qed.

Lemma dict_get_elem k v d : NoDup d.*1 → (k, v) ∈ d → dict_get k d = Some v.
Proof.
  induction d as [|[k' v'] d IH]; simpl.
  - by intros _ ?%elem_of_nil.
  - intros [Hn Hnd]%NoDup_cons [E|Hin]%elem_of_cons.
    + injection E as -> ->. by rewrite decide_True.
    + case_decide; subst; [|by apply IH].
      exfalso. apply Hn. apply list_elem_of_fmap. by exists (k', v).
Qed.

Lemma dict_set_new k v d : dict_get k d = None → dict_set k v d = d ++ [(k, v)].
Proof.
  induction d as [|[k' v'] d IH]; simpl; [done|].
  case_decide; [done|]. intros Hn. by rewrite IH.
Qed.

Lemma dict_get_app k d1 d2 :
  dict_get k (d1 ++ d2) =
  match dict_get k d1 with Some v => Some v | None => dict_get k d2 end.
Proof.
  induction d1 as [|[k' v'] d1 IH]; simpl; [done|]. by case_decide.
Qed.

Lemma dict_get_set k k' v d :
  dict_get k' (dict_set k v d) = if decide (k' = k) then Some v else dict_get k' d.
Proof.
  induction d as [|[k1 v1] d IH]; simpl.
  - by case_decide.
  - destruct (decide (k = k1)) as [->|Hne]; simpl.
    + destruct (decide (k' = k1)); [done|done].
    + rewrite IH. destruct (decide (k' = k1)) as [->|]; [|done].
      by rewrite decide_False by done.
Qed.

Lemma dict_set_keys_new k v d :
  dict_get k d = None → NoDup d.*1 → NoDup (dict_set k v d).*1.
Proof.
  intros Hn Hnd. rewrite dict_set_new by done. rewrite fmap_app. simpl.
  apply NoDup_app. split; [done|]. split; [|apply NoDup_singleton].
  intros x Hx ->%list_elem_of_singleton. by apply dict_get_None in Hn.
Qed.

Lemma dict_has_true k d : dict_has k d = true ↔ is_Some (dict_get k d).
Proof. unfold dict_has. destruct (dict_get k d); split; (done || by intros []). Qed.

Lemma dict_has_false k d : dict_has k d = false ↔ dict_get k d = None.
Proof. unfold dict_has. destruct (dict_get k d); split; done. Qed.
End DictLemmas.

Section HeapLemmas.
Context {sym : Type} `{EqDecision sym}.
Implicit Types (self : @KeywordTree sym) (st : @State sym).

Lemma heap_mutate a f self b :
  heap (mutate a f self) !! b =
  if decide (a = b) then f <$> heap self !! b else heap self !! b.
Proof.
  unfold mutate. simpl. rewrite list_lookup_alter.
  repeat case_decide; by subst.
Qed.

Lemma heap_mutate_eq a f self st :
  heap self !! a = Some st → heap (mutate a f self) !! a = Some (f st).
Proof. intros E. by rewrite heap_mutate, decide_True, E. Qed.

Lemma heap_mutate_ne a f self b :
  a ≠ b → heap (mutate a f self) !! b = heap self !! b.
Proof. intros. by rewrite heap_mutate, decide_False. Qed.

Lemma length_heap_mutate a f self :
  length (heap (mutate a f self)) = length (heap self).
Proof. unfold mutate. simpl. apply length_alter. Qed.
End HeapLemmas.

Section ShapeLemmas.
Context {sym : Type} `{EqDecision sym}.
Implicit Types (self : @KeywordTree sym) (st : @State sym)
  (wd : list (list sym)).

Lemma shape_word wd self a st :
  shape wd self → heap self !! a = Some st → ∃ w, wd !! a = Some w.
Proof.
  intros Hs Ha. apply lookup_lt_Some in Ha. rewrite (shape_len _ _ Hs) in Ha.
  by apply lookup_lt_is_Some in Ha as [w ?]; exists w.
Qed.

Lemma shape_state wd self a w :
  shape wd self → wd !! a = Some w → ∃ st, heap self !! a = Some st.
Proof.
  intros Hs Ha. apply lookup_lt_Some in Ha. rewrite <-(shape_len _ _ Hs) in Ha.
  by apply lookup_lt_is_Some in Ha as [w' ?]; exists w'.
Qed.

Lemma shape_inj wd self a b w :
  shape wd self → wd !! a = Some w → wd !! b = Some w → a = b.
Proof. intros Hs. apply NoDup_lookup, Hs. Qed.

Lemma shape_nil wd self a :
  shape wd self → wd !! a = Some [] → a = 0.
Proof. intros Hs Ha. eapply shape_inj; eauto using shape_root. Qed.

Lemma shape_nil_in wd self : shape wd self → [] ∈ wd.
Proof. intros Hs. apply list_elem_of_lookup. exists 0. apply Hs. Qed.

Lemma shape_prefix_closed wd self : shape wd self → prefix_closed wd.
Proof.
  intros Hs x c [a Ha]%list_elem_of_lookup.
  destruct (shape_state _ _ _ _ Hs Ha) as [st Hst].
  destruct (decide (a = 0)) as [->|Hne].
  { rewrite (shape_root _ _ Hs) in Ha. by destruct x. }
  destruct (shape_parent _ _ Hs a st _ Hst Ha Hne) as (x' & c' & p & E & Hp & _).
  apply app_inj_tail in E as [-> _]. apply list_elem_of_lookup. by exists p.
Qed.
End ShapeLemmas.

Section AddLemmas.
Context {sym : Type} `{EqDecision sym}.
Implicit Types (self : @KeywordTree sym) (st : @State sym)
  (wd : list (list sym)) (ks : list (list sym))
  (lower fold : list sym → list sym).

Lemma keyword_of_elem fold ks w k :
  keyword_of fold ks w = Some k → k ∈ ks ∧ fold k = w ∧ w ≠ [].
Proof.
  unfold keyword_of. case_decide; [done|]. intros Hl.
  apply last_Some_elem_of in Hl. apply list_elem_of_filter in Hl. naive_solver.
Qed.

Lemma keyword_of_absent fold ks wd self w :
  marks fold ks wd self → w ∉ wd → keyword_of fold ks w = None.
Proof.
  intros [_ Hk] Hw. destruct (keyword_of fold ks w) as [k|] eqn:E; [|done].
  apply keyword_of_elem in E as (Hin & <- & _). by apply Hk in Hin.
Qed.

Lemma keyword_of_snoc fold ks k w :
  keyword_of fold (ks ++ [k]) w =
  if decide (fold k = w ∧ w ≠ []) then Some k else keyword_of fold ks w.
Proof.
  unfold keyword_of. destruct (decide (w = [])) as [->|Hne].
  { rewrite decide_False; [done|]. by intros []. }
  rewrite filter_app. destruct (decide (fold k = w)) as [E|Hn].
  - rewrite decide_True by done. rewrite filter_cons_True by done.
    rewrite filter_nil. apply last_snoc.
  - rewrite decide_False by (by intros []). rewrite filter_cons_False by done.
    by rewrite filter_nil, app_nil_r.
Qed.

(** One new node below [cur], for a symbol that has no edge there. *)
Lemma add_node_inv fold ks wd self cur x char curst :
  shape wd self → marks fold ks wd self → unlinked wd self →
  wd !! cur = Some x → heap self !! cur = Some curst →
  dict_get char (transitions curst) = None →
  let self3 :=
    mutate cur
      (λ s, set_transitions (dict_set char (length (heap self)) (transitions s)) s)
      (with_counter (S (_counter self))
        (with_heap (heap self ++
            [State_init (_counter self) (Some char) (Some cur)]) self)) in
  let wd' := wd ++ [x ++ [char]] in
  shape wd' self3 ∧ marks fold ks wd' self3 ∧ unlinked wd' self3 ∧
  wd' !! length (heap self) = Some (x ++ [char]).
Proof.
  intros Hs Hm Hu Hx Hcur Hnone self3 wd'.
  pose proof (shape_len _ _ Hs) as Hlen.
  assert (Hfresh : x ++ [char] ∉ wd).
  { intros [b Hb]%list_elem_of_lookup.
    destruct (Hu cur curst x Hcur Hx) as [_ [_ Ht]].
    apply Ht in Hb. congruence. }
  assert (Hcurlt : cur < length wd) by (by apply lookup_lt_Some in Hx).
  assert (Hnew : wd' !! length (heap self) = Some (x ++ [char])).
  { unfold wd'. rewrite Hlen. rewrite lookup_app_r by lia.
    by rewrite Nat.sub_diag. }
  assert (Hold : ∀ a w, a < length wd → wd' !! a = Some w ↔ wd !! a = Some w).
  { intros a w Ha. unfold wd'. by rewrite lookup_app_l. }
  assert (Hnd : NoDup wd').
  { unfold wd'. apply NoDup_app. split; [apply Hs|]. split.
    - intros w Hw ->%list_elem_of_singleton. done.
    - apply NoDup_singleton. }
  assert (Hheap : ∀ a, heap self3 !! a =
      if decide (a = cur) then
        Some (set_transitions (dict_set char (length (heap self)) (transitions curst)) curst)
      else if decide (a = length wd) then
        Some (State_init (_counter self) (Some char) (Some cur))
      else heap self !! a).
  { intros a. unfold self3. rewrite heap_mutate. simpl.
    destruct (decide (a = cur)) as [->|Hne].
    - rewrite decide_True by done. rewrite lookup_app_l by lia. by rewrite Hcur.
    - rewrite decide_False by done.
      destruct (decide (a = length wd)) as [->|Hne2].
      + rewrite lookup_app_r by lia. by rewrite Hlen, Nat.sub_diag.
      + destruct (decide (a < length wd)).
        * by rewrite lookup_app_l by lia.
        * rewrite lookup_app_r by lia.
          rewrite (lookup_ge_None_2 (heap self)) by lia.
          apply lookup_ge_None_2. simpl. lia. }
  assert (Hwd'lt : ∀ a w, wd' !! a = Some w → a = length wd ∧ w = x ++ [char] ∨
                             a < length wd ∧ wd !! a = Some w).
  { intros a w Ha. destruct (decide (a < length wd)).
    - right. split; [done|]. by apply Hold.
    - left. unfold wd' in Ha. rewrite lookup_app_r in Ha by lia.
      apply list_lookup_singleton_Some in Ha as [? <-]. split; [lia|done]. }
  split; [|split; [|split]]; [| | |done].
  - (* shape *)
    split.
    + unfold self3. rewrite length_heap_mutate. simpl.
      unfold wd'. rewrite !length_app. simpl. lia.
    + unfold self3, wd'. simpl. rewrite length_app. simpl.
      rewrite (shape_counter _ _ Hs). lia.
    + unfold self3. simpl. apply Hs.
    + apply Hold; [lia|]. apply Hs.
    + done.
    + intros a st. rewrite Hheap. repeat case_decide; subst.
      * intros [= <-]. simpl. by apply (shape_id _ _ Hs).
      * intros [= <-]. simpl. apply (shape_counter _ _ Hs).
      * apply Hs.
    + intros st. rewrite Hheap. repeat case_decide; subst.
      * intros [= <-]. simpl. by apply (shape_root_state _ _ Hs).
      * lia.
      * apply Hs.
    + intros a st w. rewrite Hheap. intros Hst Hw Hne.
      apply Hwd'lt in Hw as [[-> ->]|[Hlt Hw]].
      * rewrite decide_False in Hst by lia. rewrite decide_True in Hst by done.
        injection Hst as <-. exists x, char, cur. simpl.
        split; [done|]. split; [|done]. apply Hold; [lia|done].
      * rewrite (decide_False (P := a = length wd)) in Hst by lia.
        assert (∃ st0, heap self !! a = Some st0 ∧ parent st = parent st0 ∧
                       symbol st = symbol st0) as (st0 & Hst0 & -> & ->).
        { case_decide; subst.
          - injection Hst as <-. by exists curst.
          - by exists st. }
        destruct (shape_parent _ _ Hs a st0 w Hst0 Hw Hne)
          as (x' & c' & p & -> & Hp & ? & ?).
        exists x', c', p. split; [done|]. split; [|done].
        apply Hold; [|done]. by apply lookup_lt_Some in Hp.
  - (* marks *)
    destruct Hm as [Hm1 Hm2]. split.
    + intros a st w. rewrite Hheap. intros Hst Hw.
      apply Hwd'lt in Hw as [[-> ->]|[Hlt Hw]].
      * rewrite decide_False in Hst by lia. rewrite decide_True in Hst by done.
        injection Hst as <-. simpl.
        rewrite (keyword_of_absent fold ks wd self) by done.
        split; [done|]. split; [done|by intros []].
      * rewrite (decide_False (P := a = length wd)) in Hst by lia.
        case_decide; subst.
        -- injection Hst as <-. simpl. by apply (Hm1 _ _ _ Hcur Hw).
        -- by apply (Hm1 _ _ _ Hst Hw).
    + intros k Hk. unfold wd'. apply elem_of_app. left. by apply Hm2.
  - (* unlinked *)
    intros a st w. rewrite Hheap. intros Hst Hw.
    apply Hwd'lt in Hw as [[-> ->]|[Hlt Hw]].
    + rewrite decide_False in Hst by lia. rewrite decide_True in Hst by done.
      injection Hst as <-. simpl. split; [done|]. split; [constructor|].
      intros c b. simpl. split; [done|]. intros Hb. exfalso.
      apply Hwd'lt in Hb as [[_ Hb]|[_ Hb]].
      * apply (f_equal length) in Hb. rewrite !length_app in Hb. simpl in Hb. lia.
      * apply Hfresh. apply (shape_prefix_closed _ _ Hs _ c).
        apply list_elem_of_lookup. by exists b.
    + rewrite (decide_False (P := a = length wd)) in Hst by lia.
      case_decide; subst.
      * injection Hst as <-. simpl.
        destruct (Hu cur curst x Hcur Hx) as [Hl [Hk Ht]].
        assert (w = x) as -> by congruence.
        split; [done|]. split; [by apply dict_set_keys_new|].
        intros c b. rewrite dict_get_set. case_decide; subst.
        -- split.
           ++ intros [= <-]. done.
           ++ intros Hb. f_equal. by apply (NoDup_lookup wd' _ _ (x ++ [char])).
        -- rewrite Ht. split.
           ++ intros Hb. apply Hold; [|done]. by apply lookup_lt_Some in Hb.
           ++ intros Hb. apply Hwd'lt in Hb as [[_ Hb]|[_ Hb]]; [|done].
              apply app_inj_tail in Hb as [_ ->]. done.
      * destruct (Hu a st w Hst Hw) as [Hl [Hk Ht]].
        split; [done|]. split; [done|].
        intros c b. rewrite Ht. split.
        -- intros Hb. apply Hold; [|done]. by apply lookup_lt_Some in Hb.
        -- intros Hb. apply Hwd'lt in Hb as [[_ Hb]|[_ Hb]]; [|done].
           apply app_inj_tail in Hb as [-> _].
           exfalso. assert (a = cur); [|done].
           apply (NoDup_lookup wd _ _ x); [apply Hs|done..].
Qed.

Lemma add_loop_spec fold ks kw : ∀ self wd cur x,
  shape wd self → marks fold ks wd self → unlinked wd self →
  wd !! cur = Some x →
  ∃ wd' a self',
    add_loop kw cur self = (Ok a, self') ∧
    shape wd' self' ∧ marks fold ks wd' self' ∧ unlinked wd' self' ∧
    wd' !! a = Some (x ++ kw) ∧
    _finalized self' = _finalized self ∧
    _case_insensitive self' = _case_insensitive self.
Proof.
  induction kw as [|char kw IH]; intros self wd cur x Hs Hm Hu Hx; simpl.
  - exists wd, cur, self. rewrite app_nil_r. done.
  - destruct (shape_state _ _ _ _ Hs Hx) as [curst Hcur]. rewrite Hcur.
    destruct (dict_get char (transitions curst)) as [nxt|] eqn:Hget.
    + destruct (Hu cur curst x Hcur Hx) as [_ [_ Ht]]. apply Ht in Hget.
      destruct (IH self wd nxt (x ++ [char]) Hs Hm Hu Hget)
        as (wd' & a & self' & E & ?). rewrite <-app_assoc in *.
      by exists wd', a, self'.
    + destruct (add_node_inv fold ks wd self cur x char curst)
        as (Hs' & Hm' & Hu' & Hn'); try done.
      destruct (IH _ _ _ _ Hs' Hm' Hu' Hn')
        as (wd' & a & self' & E & ? & ? & ? & ? & ? & ?).
      rewrite <-app_assoc in *.
      exists wd', a, self'. by rewrite E.
Qed.

Lemma set_match_inv fold ks wd self a k st :
  shape wd self → marks fold ks wd self → unlinked wd self →
  wd !! a = Some (fold k) → fold k ≠ [] → heap self !! a = Some st →
  let self' := mutate a (set_match k) self in
  shape wd self' ∧ marks fold (ks ++ [k]) wd self' ∧ unlinked wd self'.
Proof.
  intros Hs Hm Hu Ha Hne Hst self'.
  assert (Hheap : ∀ b st', heap self' !! b = Some st' →
    ∃ st0, heap self !! b = Some st0 ∧
      identifier st' = identifier st0 ∧ symbol st' = symbol st0 ∧
      parent st' = parent st0 ∧ transitions st' = transitions st0 ∧
      longest_strict_suffix st' = longest_strict_suffix st0 ∧
      (b ≠ a → st' = st0) ∧
      (b = a → matched_keyword st' = Some k ∧ success st' = true)).
  { intros b st'. unfold self'. rewrite heap_mutate.
    destruct (decide (a = b)) as [<-|Hn].
    - rewrite Hst. simpl. intros [= <-]. exists st. simpl. naive_solver.
    - intros Hb. exists st'. naive_solver. }
  split; [|split].
  - split; try apply Hs.
    + unfold self'. rewrite length_heap_mutate. apply Hs.
    + intros b st' (st0 & H0 & -> & _)%Hheap. by apply (shape_id _ _ Hs).
    + intros st' (st0 & H0 & _ & -> & -> & _)%Hheap.
      by apply (shape_root_state _ _ Hs).
    + intros b st' w (st0 & H0 & _ & -> & -> & _)%Hheap.
      by apply (shape_parent _ _ Hs).
  - destruct Hm as [Hm1 Hm2]. split.
    + intros b st' w (st0 & H0 & _ & _ & _ & _ & _ & Hne' & Heq)%Hheap Hw.
      rewrite keyword_of_snoc. destruct (decide (b = a)) as [->|Hn].
      * assert (w = fold k) as -> by congruence.
        rewrite decide_True by done. destruct (Heq eq_refl) as [-> ->].
        split; [done|]. split; [by eexists|done].
      * rewrite decide_False.
        { rewrite (Hne' Hn). by apply (Hm1 _ _ _ H0 Hw). }
        intros [E _]. apply Hn. subst w.
        by apply (NoDup_lookup wd _ _ (fold k)); [apply Hs|..].
    + intros k' [Hk|Hk%list_elem_of_singleton]%elem_of_app; [by apply Hm2|].
      subst k'. apply list_elem_of_lookup. by exists a.
  - intros b st' w (st0 & H0 & _ & _ & _ & -> & -> & _)%Hheap Hw.
    by apply (Hu _ _ _ H0 Hw).
Qed.

Lemma add_spec lower ks wd self k :
  built lower ks wd self →
  ∃ wd' self',
    add lower k self = (Ok (), self') ∧
    built lower (ks ++ [k]) wd' self' ∧
    _case_insensitive self' = _case_insensitive self.
Proof.
  intros (Hs & Hm & Hu & Hf). unfold add. rewrite Hf.
  set (fold := the_fold lower (_case_insensitive self)) in *.
  assert (Hfold : (if _case_insensitive self then lower k else k) = fold k).
  { unfold fold, the_fold. by destruct (_case_insensitive self). }
  rewrite Hfold. case_decide as Hlen.
  - exists wd, self. split; [done|]. split; [|done].
    split; [done|]. split; [|done]. fold fold.
    destruct Hm as [Hm1 Hm2]. split.
    + intros a st w Hst Hw. rewrite keyword_of_snoc.
      rewrite decide_False; [by apply (Hm1 _ _ _ Hst Hw)|].
      intros [E Hne]. subst w. destruct (fold k); [done|simpl in Hlen; lia].
    + intros k' [Hk|Hk%list_elem_of_singleton]%elem_of_app; [by apply Hm2|].
      subst k'. destruct (fold k); [|simpl in Hlen; lia].
      by eapply shape_nil_in.
  - destruct (add_loop_spec fold ks (fold k) self wd 0 [] Hs Hm Hu)
      as (wd' & a & self1 & E & Hs' & Hm' & Hu' & Ha & Hf' & Hci).
    { apply Hs. }
    rewrite (shape_zero _ _ Hs). rewrite E. simpl in Ha.
    destruct (shape_state _ _ _ _ Hs' Ha) as [st Hst].
    destruct (set_match_inv fold ks wd' self1 a k st) as (? & ? & ?); try done.
    { intros E0. rewrite E0 in Hlen. simpl in Hlen. lia. }
    exists wd'. eexists. split; [done|]. unfold built.
    unfold mutate at 2 3. simpl. rewrite Hci, Hf'. done.
Qed.

Lemma add_all_spec lower ks2 : ∀ ks1 wd self,
  built lower ks1 wd self →
  ∃ wd' self',
    add_all lower ks2 self = (Ok (), self') ∧
    built lower (ks1 ++ ks2) wd' self' ∧
    _case_insensitive self' = _case_insensitive self.
Proof.
  induction ks2 as [|k ks2 IH]; intros ks1 wd self Hb; simpl.
  - exists wd, self. by rewrite app_nil_r.
  - destruct (add_spec lower ks1 wd self k Hb) as (wd1 & self1 & E & Hb1 & Hci).
    rewrite E. destruct (IH _ _ _ Hb1) as (wd' & self' & E' & Hb' & Hci').
    exists wd', self'. rewrite <-app_assoc in Hb'. simpl in Hb'.
    split; [done|]. split; [done|congruence].
Qed.

Lemma init_built lower ci : built lower [] [[]] (KeywordTree_init ci).
Proof.
  split; [|split; [|split]]; [| | |done].
  - split; simpl; try done.
    + apply NoDup_singleton.
    + intros [|a] st; simpl; [by intros [= <-]|done].
    + by intros st [= <-].
    + intros [|a] st w; simpl; [done|done].
  - split.
    + intros [|a] st w; simpl; [|done]. intros [= <-] [= <-]. simpl.
      split; [done|]. split; [done|by intros []].
    + by intros k ?%elem_of_nil.
  - intros [|a] st w; simpl; [|done]. intros [= <-] [= <-]. simpl.
    split; [done|]. split; [constructor|]. intros c [|b]; simpl; [done|].
    split; [done|]. by rewrite lookup_nil.
Qed.

(** The tree of the keywords [ks], before [finalize]. *)
Lemma add_all_init lower ci ks :
  ∃ wd self,
    add_all lower ks (KeywordTree_init ci) = (Ok (), self) ∧
    built lower ks wd self ∧ _case_insensitive self = ci.
Proof.
  destruct (add_all_spec lower ks [] _ _ (init_built lower ci))
    as (wd & self & E & Hb & Hci).
  by exists wd, self.
Qed.
End AddLemmas.

Section StaticLemmas.
Context {sym : Type} `{EqDecision sym}.
Implicit Types (self : @KeywordTree sym) (st : @State sym)
  (wd : list (list sym)) (ks : list (list sym))
  (lower fold : list sym → list sym).

Lemma same_static_refl self : same_static self self.
Proof. repeat split; try done. intros a st' ?. by exists st'. Qed.

Lemma same_static_trans self1 self2 self3 :
  same_static self1 self2 → same_static self2 self3 → same_static self1 self3.
Proof.
  intros (? & ? & ? & ? & H12) (? & ? & ? & ? & H23).
  repeat split; try congruence.
  intros a st3 (st2 & Hst2 & ? & ? & ? & ? & ?)%H23.
  destruct (H12 _ _ Hst2) as (st1 & Hst1 & ? & ? & ? & ? & ?).
  exists st1. repeat split; congruence.
Qed.

Lemma same_static_mutate self a f :
  (∀ st, identifier (f st) = identifier st ∧ symbol (f st) = symbol st ∧
         parent (f st) = parent st ∧ success (f st) = success st ∧
         matched_keyword (f st) = matched_keyword st) →
  same_static self (mutate a f self).
Proof.
  intros Hf. repeat split; try done.
  - apply length_heap_mutate.
  - intros b st'. rewrite heap_mutate. case_decide; subst.
    + destruct (heap self !! b) as [st|] eqn:E; [|done]. simpl.
      intros [= <-]. exists st. split; [done|]. apply Hf.
    + intros ?. by exists st'.
Qed.

Lemma same_static_set_lss self a f :
  same_static self (mutate a (set_longest_strict_suffix f) self).
Proof. by apply same_static_mutate. Qed.

Lemma same_static_set_transitions self a g :
  same_static self (mutate a (λ s, set_transitions (g s) s) self).
Proof. by apply same_static_mutate. Qed.

Lemma same_static_lookup self self' a st :
  same_static self self' → heap self !! a = Some st →
  ∃ st', heap self' !! a = Some st'.
Proof.
  intros (Hl & _) Ha. apply lookup_lt_Some in Ha. rewrite <-Hl in Ha.
  by apply lookup_lt_is_Some in Ha as [st' ?]; exists st'.
Qed.

Lemma shape_same_static wd self self' :
  same_static self self' → shape wd self → shape wd self'.
Proof.
  intros (Hl & Hz & Hc & Hci & Hh) Hs. split.
  - rewrite Hl. apply Hs.
  - rewrite Hc. apply Hs.
  - rewrite Hz. apply Hs.
  - apply Hs.
  - apply Hs.
  - intros a st' (st & Hst & -> & _)%Hh. by apply (shape_id _ _ Hs).
  - intros st' (st & Hst & _ & -> & -> & _)%Hh.
    by apply (shape_root_state _ _ Hs).
  - intros a st' w (st & Hst & _ & -> & -> & _)%Hh. by apply (shape_parent _ _ Hs).
Qed.

Lemma marks_same_static fold ks wd self self' :
  same_static self self' → marks fold ks wd self → marks fold ks wd self'.
Proof.
  intros (Hl & Hz & Hc & Hci & Hh) [Hm1 Hm2]. split; [|done].
  intros a st' w (st & Hst & _ & _ & _ & -> & ->)%Hh Hw.
  by apply (Hm1 _ _ _ Hst Hw).
Qed.
End StaticLemmas.

Section MergeLemmas.
Context {sym : Type} `{EqDecision sym}.
Implicit Types (d items own : list (sym * nat)) (wd : list (list sym)).

Lemma merge_loop_zero items own : merge_loop items true own = own.
Proof.
  induction items as [|[s n] items IH]; simpl; [done|].
  by rewrite andb_false_r.
Qed.

Lemma merge_loop_get items : ∀ own k,
  dict_get k (merge_loop items false own) =
  match dict_get k own with Some v => Some v | None => dict_get k items end.
Proof.
  induction items as [|[s n] items IH]; intros own k; simpl.
  - by destruct (dict_get k own).
  - rewrite andb_true_r. destruct (dict_has s own) eqn:Hhas; simpl.
    + rewrite IH. apply dict_has_true in Hhas as [v Hv].
      destruct (decide (k = s)) as [->|]; [by rewrite Hv|done].
    + rewrite IH. rewrite dict_get_set. apply dict_has_false in Hhas.
      destruct (decide (k = s)) as [->|]; [by rewrite Hhas|done].
Qed.

Lemma merge_loop_nodup items b : ∀ own,
  NoDup own.*1 → NoDup (merge_loop items b own).*1.
Proof.
  induction items as [|[s n] items IH]; intros own Hnd; simpl; [done|].
  destruct (dict_has s own) eqn:Hhas; simpl; [by apply IH|].
  destruct b; simpl; [by apply IH|]. apply IH.
  apply dict_set_keys_new; [|done]. by apply dict_has_false.
Qed.

Lemma tree_goto_root wd d :
  [] ∈ wd → tree_dict wd [] d → goto_dict wd [] d.
Proof.
  intros H0 [Hnd Ht]. split; [done|]. intros c b. rewrite Ht.
  change ([] ++ [c]) with [c]. rewrite lsuf_single. case_decide as Hin.
  - split; [intros ?; split; [done|by left]|by intros []].
  - split.
    + intros Hb. exfalso. apply Hin. apply list_elem_of_lookup. by exists b.
    + intros [_ [[_ ?]|?]]; [done|simpl in *; lia].
Qed.

Lemma goto_merge wd w d ds f :
  prefix_closed wd → NoDup wd → wd !! 0 = Some [] → w ≠ [] →
  tree_dict wd w d → wd !! f = Some (fail wd w) →
  goto_dict wd (fail wd w) ds →
  goto_dict wd w (merge_loop ds (bool_decide (f = 0)) d).
Proof.
  intros Hpc Hnd H0 Hw [Hd Ht] Hf [Hds Hg].
  assert (Hnil : [] ∈ wd) by (apply list_elem_of_lookup; by exists 0).
  split; [by apply merge_loop_nodup|]. intros c b.
  assert (Hf0 : f = 0 ↔ fail wd w = []).
  { split; [intros ->; congruence|]. intros E. rewrite E in Hf.
    by apply (NoDup_lookup wd _ _ []). }
  assert (Hin : w ++ [c] ∈ wd → lsuf wd (w ++ [c]) = w ++ [c])
    by apply lsuf_id.
  assert (Hlen2 : 2 ≤ length (w ++ [c])).
  { rewrite length_app. destruct w; simpl in *; [done|lia]. }
  assert (Hout : w ++ [c] ∉ wd →
    lsuf wd (w ++ [c]) = lsuf wd (fail wd w ++ [c])).
  { intros Hn. rewrite lsuf_not_in by done. by apply fail_snoc. }
  destruct (decide (w ++ [c] ∈ wd)) as [Hi|Hn].
  - (* the tree edge exists: it comes first *)
    rewrite (Hin Hi). apply list_elem_of_lookup in Hi as [b' Hb'].
    assert (Hget : dict_get c d = Some b') by by apply Ht.
    assert (dict_get c (merge_loop ds (bool_decide (f = 0)) d) = Some b') as ->.
    { destruct (bool_decide (f = 0)).
      - by rewrite merge_loop_zero.
      - by rewrite merge_loop_get, Hget. }
    split.
    + intros [= <-]. split; [done|by right].
    + intros [Hb _]. f_equal. by apply (NoDup_lookup wd _ _ (w ++ [c])).
  - assert (Hget : dict_get c d = None).
    { destruct (dict_get c d) as [b'|] eqn:E; [|done].
      apply Ht in E. exfalso. apply Hn. apply list_elem_of_lookup. by exists b'. }
    rewrite (Hout Hn). case_bool_decide as Hz.
    + rewrite merge_loop_zero, Hget. apply Hf0 in Hz. rewrite Hz.
      change ([] ++ [c]) with [c]. rewrite lsuf_single. split; [done|].
      intros [_ [[? _]|Hl]]; [done|]. case_decide; simpl in Hl; lia.
    + rewrite merge_loop_get, Hget. rewrite Hg.
      assert (fail wd w ≠ []) by (by rewrite <-Hf0).
      split; (intros [? [[? _]|?]]; [done|]; split; [done|by right]).
Qed.

Lemma goto_tree_edge wd w d c b :
  goto_dict wd w d → wd !! b = Some (w ++ [c]) → dict_get c d = Some b.
Proof.
  intros [_ Hg] Hb. apply Hg.
  assert (lsuf wd (w ++ [c]) = w ++ [c]) as ->.
  { apply lsuf_id. apply list_elem_of_lookup. by exists b. }
  split; [done|]. destruct w; [left|right]; [done|].
  rewrite length_app. simpl. lia.
Qed.
End MergeLemmas.

Section LinkLemmas.
Context {sym : Type} `{EqDecision sym}.
Implicit Types (self : @KeywordTree sym) (st : @State sym)
  (wd : list (list sym)) (w u v x : list sym).

Lemma node_ok_resolved wd self0 self a st w f :
  node_ok wd self0 self a → heap self !! a = Some st → wd !! a = Some w →
  longest_strict_suffix st = Some f →
  wd !! f = Some (fail wd w) ∧ goto_dict wd w (transitions st) ∧
  resolved self f.
Proof.
  intros Hok Hst Hw Hf. destruct (Hok st w Hst Hw) as (st0 & H0 & Hm).
  rewrite Hf in Hm. destruct Hm as (? & ? & fst & ? & ? & ?).
  split; [done|]. split; [done|]. by exists fst.
Qed.

Lemma chain_resolved wd self0 self n : ∀ t tw u b,
  length tw ≤ n →
  shape wd self → ok_upto wd self0 self (length tw) →
  wd !! t = Some tw → resolved self t →
  u `suffix_of` tw → wd !! b = Some u → resolved self b.
Proof.
  induction n as [|n IH]; intros t tw u b Hn Hs Hok Ht Hr Hu Hb.
  - destruct tw; [|simpl in Hn; lia]. apply suffix_nil_inv in Hu as ->.
    by rewrite (shape_inj _ _ _ _ _ Hs Hb Ht).
  - destruct (decide (u = tw)) as [->|Hne].
    { by rewrite (shape_inj _ _ _ _ _ Hs Hb Ht). }
    destruct Hr as (st & Hst & [f Hf]).
    destruct (node_ok_resolved wd self0 self t st tw f) as (Hfw & _ & Hfr);
      [by apply (Hok t tw)|done..|].
    assert (tw ≠ []) as Htw by (intros ->; by apply suffix_nil_inv in Hu).
    pose proof (fail_length wd tw Htw) as Hlt.
    apply (IH f (fail wd tw) u b); try done.
    + lia.
    + intros b' u' Hb' Hl. apply (Hok b' u'); [done|lia].
    + apply fail_max; [done..|]. apply list_elem_of_lookup. by exists b.
Qed.

Lemma lss_loop_spec wd self0 self a x c : ∀ fuel t tw,
  shape wd self → wd !! a = Some (x ++ [c]) →
  wd !! t = Some tw → resolved self t →
  ok_upto wd self0 self (length tw) →
  length tw < fuel →
  (x = [] → tw = []) → (x ≠ [] → length tw < length x) →
  ∃ f, lss_loop fuel self a (Some c) (Some t) = Ok f ∧
       wd !! f = Some (if decide (x = []) then [] else lsuf wd (tw ++ [c])).
Proof.
  induction fuel as [|fuel IH]; intros t tw Hs Ha Ht Hr Hok Hfuel Hx0 Hx1;
    [lia|].
  pose proof (shape_nil_in _ _ Hs) as Hnil.
  pose proof (shape_prefix_closed _ _ Hs) as Hpc.
  destruct Hr as (trs & Htrs & [f' Hf']). simpl. rewrite Htrs.
  destruct (node_ok_resolved wd self0 self t trs tw f') as (Hfw & [_ Hg] & Hfr);
    [by apply (Hok t tw)|done..|].
  rewrite (shape_zero _ _ Hs).
  remember (lsuf wd (tw ++ [c])) as v eqn:Ev.
  assert (∃ bv, wd !! bv = Some v) as [bv Hbv].
  { apply list_elem_of_lookup. subst v. by apply lsuf_in. }
  assert (Ht0 : t = 0 ↔ tw = []).
  { split; [intros ->; rewrite (shape_root _ _ Hs) in Ht; congruence|].
    intros ->. by eapply shape_nil. }
  destruct (dict_get c (transitions trs)) as [tgt|] eqn:Hget.
  - apply Hg in Hget as [Htgt Hcond]. rewrite <-Ev in Htgt, Hcond.
    destruct (decide (x = [])) as [->|Hxne].
    + rewrite (Hx0 eq_refl) in *.
      change ([] ++ [c]) with [c] in Ev. rewrite lsuf_single in Ev.
      case_decide; subst v;
        [|destruct Hcond as [[_ Hc]|Hc]; [by destruct Hc|simpl in Hc; lia]].
      assert (tgt = a) as -> by (by eapply shape_inj).
      rewrite decide_False by (by intros ?).
      rewrite decide_True by (by apply Ht0). exists 0. split; [done|apply Hs].
    + rewrite decide_True; [by exists tgt|]. intros ->.
      assert (v = x ++ [c]) as Ev' by congruence.
      pose proof (lsuf_length wd (tw ++ [c])) as Hl. rewrite <-Ev in Hl.
      rewrite Ev', !length_app in Hl. simpl in Hl. specialize (Hx1 Hxne). lia.
  - assert (Hncond : ¬ (tw = [] ∧ v ≠ [] ∨ 2 ≤ length v)).
    { intros Hc. assert (dict_get c (transitions trs) = Some bv)
        by (apply Hg; by rewrite <-Ev).
      congruence. }
    destruct (decide (t = 0)) as [->|Htne].
    + exists 0. split; [done|]. rewrite (shape_root _ _ Hs). f_equal.
      case_decide; [done|]. assert (tw = []) as Etw by by apply Ht0.
      destruct (decide (v = [])) as [E|Hv]; [by rewrite E|].
      exfalso. apply Hncond. by left.
    + assert (tw ≠ []) as Htw by (by rewrite <-Ht0).
      pose proof (fail_length wd tw Htw) as Hlt.
      destruct (IH f' (fail wd tw)) as (f & Ef & Hf); try done.
      * intros b' u' Hb' Hl. apply (Hok b' u'); [done|lia].
      * lia.
      * intros Ex. by specialize (Hx0 Ex).
      * intros Hxne. specialize (Hx1 Hxne). lia.
      * exists f. rewrite Hf'. split; [done|]. rewrite Hf. case_decide; [done|].
        f_equal. rewrite Ev. apply lsuf_short; try done. rewrite <-Ev. lia.
Qed.

Lemma node_ok_transfer wd self0 self self' b :
  node_ok wd self0 self b →
  heap self' !! b = heap self !! b →
  (∀ st f, heap self !! b = Some st → longest_strict_suffix st = Some f →
     heap self' !! f = heap self !! f) →
  node_ok wd self0 self' b.
Proof.
  intros Hok Hb Hf st w Hst Hw. rewrite Hb in Hst.
  destruct (Hok st w Hst Hw) as (st0 & H0 & Hm). exists st0. split; [done|].
  destruct (longest_strict_suffix st) as [f|] eqn:El; [|done].
  destruct Hm as (? & ? & fst & ? & ? & ?). split; [done|]. split; [done|].
  exists fst. by rewrite (Hf st f).
Qed.

Lemma lss_target_ne wd self0 self a b w u stb f :
  node_ok wd self0 self b → heap self !! b = Some stb →
  wd !! b = Some u → longest_strict_suffix stb = Some f →
  length u ≤ length w → wd !! a = Some w → w ≠ [] → f ≠ a.
Proof.
  intros Hok Hb Hu Hl Hlen Ha Hw ->.
  destruct (node_ok_resolved _ _ _ _ _ _ _ Hok Hb Hu Hl) as (Hf & _).
  assert (fail wd u = w) as E by congruence.
  destruct (decide (u = [])) as [->|Hne]; [by rewrite fail_nil in E|].
  pose proof (fail_length wd u Hne). rewrite E in *. lia.
Qed.

Lemma node_ok_mutate wd self0 self a b w u g :
  node_ok wd self0 self b → wd !! b = Some u → wd !! a = Some w →
  length u ≤ length w → w ≠ [] → b ≠ a →
  node_ok wd self0 (mutate a g self) b.
Proof.
  intros Hok Hu Hw Hlen Hne Hba. apply (node_ok_transfer _ _ self); [done|..].
  - by rewrite heap_mutate_ne.
  - intros st f Hst Hl. rewrite heap_mutate_ne; [done|]. intros ->.
    by eapply (lss_target_ne wd self0 self f b w u).
Qed.
End LinkLemmas.

Section SearchLss.
Context {sym : Type} `{EqDecision sym}.
Implicit Types (self : @KeywordTree sym) (st : @State sym)
  (wd : list (list sym)) (w u v x : list sym).

Lemma search_lss_spec wd self0 : ∀ fuel self a w,
  shape wd self →
  (∀ b st0 u, heap self0 !! b = Some st0 → wd !! b = Some u →
     tree_dict wd u (transitions st0)) →
  resolved self 0 →
  wd !! a = Some w → length w < fuel →
  ok_upto wd self0 self (length w) →
  (∀ st, heap self !! a = Some st → longest_strict_suffix st = None →
     ∃ p, parent st = Some p ∧ resolved self p) →
  ∃ self',
    search_lss fuel self a = (Ok (), self') ∧
    same_static self self' ∧ resolved self' a ∧
    ok_upto wd self0 self' (length w) ∧
    frame_resolved self self' ∧ frame_deeper wd self self' (length w).
Proof.
  induction fuel as [|fuel IH]; intros self a w Hs Htree Hroot Ha Hfuel Hok Hpar;
    [lia|].
  pose proof (shape_nil_in _ _ Hs) as Hnil.
  pose proof (shape_prefix_closed _ _ Hs) as Hpc.
  destruct (shape_state _ _ _ _ Hs Ha) as [st Hst]. simpl. rewrite Hst.
  destruct (longest_strict_suffix st) as [f0|] eqn:Hl.
  { exists self. split; [done|]. split; [apply same_static_refl|].
    split; [by exists st; rewrite Hl|]. by repeat split. }
  destruct (Hpar st Hst Hl) as (p & Hp & Hpr). rewrite Hp.
  assert (a ≠ 0) as Ha0.
  { intros ->. destruct (shape_root_state _ _ Hs st Hst). congruence. }
  destruct (shape_parent _ _ Hs a st w Hst Ha Ha0)
    as (x & c & p' & -> & Hpx & Hp' & Hsym).
  assert (p' = p) as -> by congruence. rewrite Hsym.
  destruct Hpr as (pst & Hpst & [t0 Ht0]). rewrite Hpst, Ht0.
  assert (Hlenw : length (x ++ [c]) = S (length x)).
  { rewrite length_app. simpl. lia. }
  destruct (node_ok_resolved wd self0 self p pst x t0) as (Ht0w & _ & Ht0r);
    [apply (Hok p x); [done|lia]|done..|].
  pose proof (lsuf_length wd (tail x)) as Hfl. fold (fail wd x) in Hfl.
  assert (length (tail x) ≤ length x) as Htl by (destruct x; simpl; lia).
  destruct (lss_loop_spec wd self0 self a x c fuel t0 (fail wd x))
    as (suffix & Eloop & Hsuf); try done.
  { intros b u Hb Hlu. apply (Hok b u); [done|lia]. }
  { lia. }
  { by intros ->. }
  { apply fail_length. }
  rewrite Eloop.
  set (sw := fail wd (x ++ [c])).
  assert (Hsufw : wd !! suffix = Some sw).
  { rewrite Hsuf. f_equal. unfold sw. case_decide as Hx.
    - by rewrite Hx.
    - by rewrite fail_snoc. }
  clear Hsuf.
  assert (Hswlen : length sw < length (x ++ [c])).
  { apply fail_length. by destruct x. }
  assert (Hsa : suffix ≠ a).
  { intros ->. assert (sw = x ++ [c]) as E by congruence. rewrite E in Hswlen. lia. }
  assert (Hwne : x ++ [c] ≠ []) by (by destruct x).
  set (self1 := mutate a (set_longest_strict_suffix (Some suffix)) self).
  assert (Hss1 : same_static self self1) by apply same_static_set_lss.
  assert (Hs1 : shape wd self1) by by apply (shape_same_static _ self).
  assert (Hne1 : ∀ b, b ≠ a → heap self1 !! b = heap self !! b).
  { intros b Hb. unfold self1. by rewrite heap_mutate_ne. }
  assert (Ha1 : heap self1 !! a = Some (set_longest_strict_suffix (Some suffix) st)).
  { unfold self1. by apply heap_mutate_eq. }
  assert (Hres1 : ∀ b, resolved self b → heap self1 !! b = heap self !! b).
  { intros b (stb & Hb & [? Hlb]). apply Hne1. intros ->. congruence. }
  assert (Hres1' : ∀ b, resolved self b → resolved self1 b).
  { intros b Hb. destruct (Hb) as (stb & ? & ?). exists stb.
    by rewrite Hres1. }
  assert (Hok1 : ∀ b u, wd !! b = Some u → length u ≤ length (x ++ [c]) →
                  b ≠ a → node_ok wd self0 self1 b).
  { intros b u Hb Hlu Hba.
    by apply (node_ok_mutate wd self0 self a b (x ++ [c]) u); [apply (Hok b u)|..]. }
  destruct (shape_state _ _ _ _ Hs1 Hsufw) as [sst Hsst].
  change (alter (set_longest_strict_suffix (Some suffix)) a (heap self))
    with (heap self1).
  rewrite Hsst.
  (* the state of the suffix link gets its own link first *)
  assert (∃ self2,
    match longest_strict_suffix sst with
    | None => search_lss fuel self1 suffix
    | Some _ => (Ok (), self1)
    end = (Ok (), self2) ∧
    same_static self1 self2 ∧ resolved self2 suffix ∧
    ok_upto wd self0 self2 (length sw) ∧
    frame_resolved self1 self2 ∧ frame_deeper wd self1 self2 (length sw))
    as (self2 & E2 & Hss2 & Hr2 & Hok2 & Hfr2 & Hfd2).
  { destruct (longest_strict_suffix sst) as [f1|] eqn:Hsl.
    - exists self1. split; [done|]. split; [apply same_static_refl|].
      split; [by exists sst; rewrite Hsl|]. split; [|by split].
      intros b u Hb Hlu. apply (Hok1 b u); [done|lia|].
      intros ->. assert (u = x ++ [c]) by congruence. subst u. lia.
    - apply IH; try done.
      + by apply Hres1'.
      + lia.
      + intros b u Hb Hlu. apply (Hok1 b u); [done|lia|].
        intros ->. assert (u = x ++ [c]) by congruence. subst u. lia.
      + intros st' Hst' Hl'. assert (st' = sst) as -> by congruence.
        assert (suffix ≠ 0) as Hs0.
        { intros ->. destruct Hroot as (rst & Hrst & [? Hrl]).
          rewrite Hne1 in Hsst by done. congruence. }
        assert (sw ≠ []) as Hswne.
        { intros E. rewrite E in Hsufw. apply Hs0. by eapply shape_nil. }
        destruct (shape_parent _ _ Hs1 suffix sst sw Hsst Hsufw Hs0)
          as (y & c' & py & Ey & Hpy & Hpary & _).
        exists py. split; [done|]. apply Hres1'.
        assert (x ≠ []) as Hxne.
        { intros ->. apply Hswne. done. }
        assert (sw = lsuf wd (fail wd x ++ [c])) as Esw
          by (unfold sw; by apply fail_snoc).
        destruct (lsuf_snoc_nonempty wd (fail wd x) c) as (y' & Ey' & Hy');
          [by rewrite <-Esw|].
        rewrite <-Esw, Ey in Ey'. apply app_inj_tail in Ey' as [-> ->].
        apply (chain_resolved wd self0 self (length (fail wd x)) t0 (fail wd x) y' py);
          try done.
        intros b u Hb Hlu. apply (Hok b u); [done|lia]. }
  rewrite E2.
  destruct Hr2 as (sst2 & Hsst2 & Hsl2). rewrite Hsst2.
  eexists. split; [done|].
  assert (Hs2 : shape wd self2) by by apply (shape_same_static _ self1).
  rewrite (shape_zero _ _ Hs2).
  set (g := λ s : State, set_transitions
              (merge_loop (transitions sst2) (bool_decide (suffix = 0))
                 (transitions s)) s).
  set (self3 := mutate a g self2).
  assert (Ha2 : heap self2 !! a = Some (set_longest_strict_suffix (Some suffix) st)).
  { rewrite (Hfd2 a (x ++ [c])); done. }
  assert (Ha3 : heap self3 !! a = Some (g (set_longest_strict_suffix (Some suffix) st))).
  { unfold self3. by apply heap_mutate_eq. }
  assert (Hne3 : ∀ b, b ≠ a → heap self3 !! b = heap self2 !! b).
  { intros b Hb. unfold self3. by rewrite heap_mutate_ne. }
  split; [|split; [|split; [|split]]].
  - eapply same_static_trans; [exact Hss1|].
    eapply same_static_trans; [exact Hss2|]. apply same_static_set_transitions.
  - eexists. split; [exact Ha3|]. simpl. by eexists.
  - intros b u Hb Hlu. destruct (decide (b = a)) as [->|Hba].
    + assert (u = x ++ [c]) as -> by congruence.
      intros st3 w3 Hst3 Hw3. assert (w3 = x ++ [c]) as -> by congruence.
      rewrite Ha3 in Hst3. injection Hst3 as <-. simpl.
      destruct (Hok a (x ++ [c]) Ha (le_n _) st (x ++ [c]) Hst Ha)
        as (st0 & Hst0 & Htr). rewrite Hl in Htr.
      exists st0. split; [done|]. split; [done|]. split.
      * apply goto_merge; try done; try apply Hs.
        -- rewrite Htr. by apply (Htree a).
        -- destruct Hsl2 as [f2 Hf2].
           by destruct (node_ok_resolved wd self0 self2 suffix sst2 sw f2
                          (Hok2 suffix sw Hsufw (le_n _)) Hsst2 Hsufw Hf2)
             as (_ & ? & _).
      * exists sst2. rewrite Hne3 by done. split; [done|]. split; [done|].
        by rewrite Htr.
    + destruct (decide (length u ≤ length sw)) as [Hle|Hgt].
      * apply (node_ok_mutate wd self0 self2 a b (x ++ [c]) u); try done.
        by apply (Hok2 b u).
      * apply (node_ok_mutate wd self0 self2 a b (x ++ [c]) u); try done.
        apply (node_ok_transfer wd self0 self1); [by apply (Hok1 b u)|..].
        -- apply (Hfd2 b u); [done|lia].
        -- intros stb f Hstb Hlb. apply Hfr2.
           by destruct (node_ok_resolved wd self0 self1 b stb u f
                          (Hok1 b u Hb Hlu Hba) Hstb Hb Hlb) as (_ & _ & ?).
  - intros b Hbr. assert (b ≠ a) as Hba.
    { intros ->. destruct Hbr as (? & ? & [? ?]). congruence. }
    rewrite Hne3 by done. rewrite Hfr2 by by apply Hres1'. by apply Hne1.
  - intros b u Hb Hlu. assert (b ≠ a) as Hba.
    { intros ->. assert (u = x ++ [c]) by congruence. subst u. lia. }
    rewrite Hne3 by done. rewrite (Hfd2 b u) by (done || lia). by apply Hne1.
Qed.
End SearchLss.

Section Linking.
Context {sym : Type} `{EqDecision sym}.
Implicit Types (self : @KeywordTree sym) (st : @State sym)
  (wd : list (list sym)) (w u v x : list sym).

Lemma prefix_closed_take wd w i : prefix_closed wd → w ∈ wd → take i w ∈ wd.
Proof.
  intros Hpc. revert i. induction w as [|c w IH] using rev_ind; intros i Hw.
  - by rewrite take_nil.
  - destruct (decide (i ≤ length w)).
    + rewrite take_app_le by done. apply IH. by apply Hpc in Hw.
    + rewrite take_ge; [done|]. rewrite length_app. simpl. lia.
Qed.

Lemma depth_bound wd self a w :
  shape wd self → wd !! a = Some w → length w < length wd.
Proof.
  intros Hs Ha.
  assert (Hsub : (λ i, take i w) <$> seq 0 (S (length w)) ⊆+ wd).
  { apply NoDup_submseteq.
    - apply NoDup_fmap_2_strong; [|apply NoDup_seq].
      intros i j [_ Hi]%elem_of_seq [_ Hj]%elem_of_seq E.
      apply (f_equal length) in E. rewrite !length_take in E. lia.
    - intros ? (i & -> & _)%list_elem_of_fmap.
      apply prefix_closed_take; [by eapply shape_prefix_closed|].
      apply list_elem_of_lookup. by exists a. }
  apply submseteq_length in Hsub. rewrite length_fmap, length_seq in Hsub. lia.
Qed.

Lemma goto_dict_length wd w d : goto_dict wd w d → length d ≤ length wd.
Proof.
  intros [Hnd Hg].
  assert (Hsub : d.*1 ⊆+ omap last wd).
  { apply NoDup_submseteq; [done|]. intros c (ck & -> & Hin)%list_elem_of_fmap.
    destruct ck as [c k]. apply dict_get_elem in Hin; [|done].
    apply Hg in Hin as [Hk Hcond]. apply list_elem_of_omap.
    exists (lsuf wd (w ++ [c])). split; [apply list_elem_of_lookup; by exists k|].
    destruct (lsuf_snoc_nonempty wd w c) as (u & Eu & _).
    - destruct Hcond as [[_ ?]|Hc]; [done|]. intros E. rewrite E in Hc.
      simpl in Hc. lia.
    - rewrite Eu. apply last_snoc. }
  apply submseteq_length in Hsub. rewrite length_fmap in Hsub.
  etrans; [exact Hsub|]. clear. induction wd as [|w wd IH]; [done|].
  change (omap last (w :: wd)) with
    (match last w with Some y => y :: omap last wd | None => omap last wd end).
  destruct (last w); simpl; lia.
Qed.

Lemma resolved_frame self self' b :
  frame_resolved self self' → resolved self b → resolved self' b.
Proof. intros Hf Hb. destruct (Hb) as (st & ? & ?). exists st. by rewrite Hf. Qed.

Lemma frame_resolved_refl self : frame_resolved self self.
Proof. by intros b _. Qed.

Lemma frame_resolved_trans self1 self2 self3 :
  frame_resolved self1 self2 → frame_resolved self2 self3 →
  frame_resolved self1 self3.
Proof.
  intros H12 H23 b Hb. rewrite H23 by by apply (resolved_frame self1).
  by apply H12.
Qed.

Lemma linking_node wd self0 self a st w f :
  linking wd self0 self → heap self !! a = Some st → wd !! a = Some w →
  longest_strict_suffix st = Some f →
  wd !! f = Some (fail wd w) ∧ goto_dict wd w (transitions st) ∧
  resolved self f.
Proof.
  intros (_ & _ & _ & _ & Hok) Hst Hw Hf.
  by apply (node_ok_resolved wd self0 self a st w f);
    [apply (Hok (length w) a w)|..].
Qed.

(** A state that a resolved state leads to can be given to [search_lss]. *)
Lemma child_ready wd self0 self y yst k :
  linking wd self0 self → heap self !! y = Some yst →
  is_Some (longest_strict_suffix yst) →
  k ∈ dict_values (transitions yst) →
  ∃ kw, wd !! k = Some kw ∧
    ∀ st, heap self !! k = Some st → longest_strict_suffix st = None →
      ∃ p, parent st = Some p ∧ resolved self p.
Proof.
  intros Hlk Hy [f Hf] Hk. pose proof Hlk as (Hs & _ & _ & _ & Hok).
  destruct (shape_word _ _ _ _ Hs Hy) as [yw Hyw].
  destruct (linking_node _ _ _ _ _ _ _ Hlk Hy Hyw Hf) as (_ & [Hnd Hg] & _).
  apply list_elem_of_fmap in Hk as ([c k'] & -> & Hin). simpl.
  apply dict_get_elem in Hin; [|done]. apply Hg in Hin as [Hkw Hcond].
  eexists. split; [done|]. intros st Hst Hl.
  destruct (lsuf_snoc_nonempty wd yw c) as (u & Eu & Hu).
  { destruct Hcond as [[_ ?]|Hc]; [done|]. intros E. rewrite E in Hc.
    simpl in Hc. lia. }
  rewrite Eu in Hkw.
  assert (k' ≠ 0) as Hk0.
  { intros ->. rewrite (shape_root _ _ Hs) in Hkw. by destruct u. }
  destruct (shape_parent _ _ Hs k' st _ Hst Hkw Hk0)
    as (u' & c' & p & E & Hp & Hpar & _).
  apply app_inj_tail in E as [<- <-]. exists p. split; [done|].
  apply (chain_resolved wd self0 self (length yw) y yw u p); try done.
  by exists yst; rewrite Hf.
Qed.

Lemma search_lss_linking wd self0 fuel self a w :
  linking wd self0 self → wd !! a = Some w → length wd ≤ fuel →
  (∀ st, heap self !! a = Some st → longest_strict_suffix st = None →
     ∃ p, parent st = Some p ∧ resolved self p) →
  ∃ self',
    search_lss fuel self a = (Ok (), self') ∧
    linking wd self0 self' ∧ resolved self' a ∧ frame_resolved self self'.
Proof.
  intros (Hs & Hss & Hroot & Htree & Hok) Ha Hfuel Hpar.
  pose proof (depth_bound _ _ _ _ Hs Ha) as Hd.
  destruct (search_lss_spec wd self0 fuel self a w)
    as (self' & E & Hss' & Hr' & Hok' & Hfr & Hfd); try done; [lia|].
  exists self'. split; [done|]. split; [|done].
  split; [by apply (shape_same_static _ self)|].
  split; [by apply (same_static_trans _ self)|].
  split; [by apply (resolved_frame self)|]. split; [done|].
  intros d b u Hb _. destruct (decide (length u ≤ length w)) as [Hle|Hgt].
  - by apply (Hok' b u).
  - apply (node_ok_transfer wd self0 self);
      [by apply (Hok (length u) b u)|..].
    + apply (Hfd b u); [done|lia].
    + intros stb f Hstb Hlb. apply Hfr.
      by destruct (node_ok_resolved wd self0 self b stb u f
                     (Hok (length u) b u Hb (le_n _)) Hstb Hb Hlb)
        as (_ & _ & ?).
Qed.
End Linking.

Section Dfs.
Context {sym : Type} `{EqDecision sym}.
Implicit Types (self : @KeywordTree sym) (st : @State sym)
  (wd : list (list sym)) (w u v x : list sym) (P : gset nat).

Lemma children_loop_spec wd self0 fuel P y yst :
  length wd ≤ fuel → is_Some (longest_strict_suffix yst) →
  ∀ steps i stack self,
  linking wd self0 self → heap self !! y = Some yst →
  steps + i = S (length (transitions yst)) → i ≤ length (transitions yst) →
  ∃ self',
    children_loop steps fuel P y (length (transitions yst)) i stack self =
      (Ok (reverse (filter (λ k, k ∉ P) (drop i (dict_values (transitions yst))))
             ++ stack), self') ∧
    linking wd self0 self' ∧ frame_resolved self self' ∧
    ∀ k, k ∈ filter (λ k, k ∉ P) (drop i (dict_values (transitions yst))) →
         resolved self' k.
Proof.
  intros Hfuel Hyl. set (kids := dict_values (transitions yst)).
  assert (Hkl : length kids = length (transitions yst))
    by apply length_fmap.
  induction steps as [|steps IH]; intros i stack self Hlk Hy Hsteps Hi; [lia|].
  simpl. rewrite Hy. rewrite decide_False by (by intros ?). fold kids.
  destruct (kids !! i) as [child|] eqn:Hc.
  - assert (i < length (transitions yst)) as Hlt.
    { apply lookup_lt_Some in Hc. lia. }
    rewrite (drop_S kids child i) by done.
    pose proof Hlk as (Hs & _).
    destruct (child_ready wd self0 self y yst child Hlk Hy Hyl)
      as (kw & Hkw & Hpar).
    { apply list_elem_of_lookup. by exists i. }
    destruct (shape_state _ _ _ _ Hs Hkw) as [cst Hcst]. rewrite Hcst.
    rewrite (shape_id _ _ Hs _ _ Hcst).
    destruct (decide (child ∈ P)) as [Hin|Hnin].
    + rewrite filter_cons_False by (by intros ?).
      apply IH; [done..|lia|lia].
    + rewrite filter_cons_True by done.
      destruct (search_lss_linking wd self0 fuel self child kw Hlk Hkw Hfuel Hpar)
        as (self1 & E1 & Hlk1 & Hr1 & Hf1).
      rewrite E1.
      destruct (IH (S i) (child :: stack) self1) as (self' & E' & Hlk' & Hf' & Hr');
        [done| |lia|lia|].
      { rewrite Hf1; [done|]. by exists yst. }
      exists self'. rewrite E'. split.
      { f_equal. f_equal. rewrite reverse_cons. by rewrite <-app_assoc. }
      split; [done|]. split; [by apply (frame_resolved_trans _ self1)|].
      intros k [->|Hk]%elem_of_cons; [|by apply Hr'].
      by apply (resolved_frame self1).
  - apply lookup_ge_None in Hc. rewrite drop_ge by done. rewrite filter_nil.
    exists self. split; [done|]. split; [done|].
    split; [apply frame_resolved_refl|]. by intros k ?%elem_of_nil.
Qed.

Lemma dfs_inv_frame self self' P stack :
  frame_resolved self self' → dfs_inv self P stack → dfs_inv self' P stack.
Proof.
  intros Hf (H1 & H2 & H3 & H4). split; [|split; [|split]].
  - intros y Hy. apply (resolved_frame self); [done|]. by apply H1.
  - intros y Hy. apply (resolved_frame self); [done|]. by apply H2.
  - intros y yst k Hy Hst. rewrite (Hf y (H2 y Hy)) in Hst. by apply (H3 y yst).
  - intros y yst k l1 l2 Hy Hst. rewrite (Hf y (H2 y Hy)) in Hst.
    by apply (H4 y yst).
Qed.

Lemma app_split_not_in (pushed rest l1 l2 : list nat) y :
  pushed ++ rest = l1 ++ y :: l2 → y ∉ pushed →
  ∃ l1', l1 = pushed ++ l1' ∧ rest = l1' ++ y :: l2.
Proof.
  revert l1. induction pushed as [|a pushed IH]; intros l1 E Hn; simpl in *.
  - by exists l1.
  - destruct l1 as [|b l1]; simpl in *.
    + injection E as -> _. exfalso. apply Hn. by left.
    + injection E as -> E. destruct (IH l1 E) as (l1' & -> & ->).
      { intros ?. apply Hn. by right. }
      by exists l1'.
Qed.

Lemma unprocessed_lt P y (l : list nat) :
  y ∈ l → y ∉ P →
  length (filter (λ a, a ∉ ({[y]} ∪ P : gset nat)) l) <
  length (filter (λ a, a ∉ P) l).
Proof.
  intros Hy HP.
  assert (filter (λ a, a ∉ ({[y]} ∪ P : gset nat)) l =
          filter (λ a, a ≠ y) (filter (λ a, a ∉ P) l)) as ->.
  { rewrite list_filter_filter. apply list_filter_iff. intros a. set_solver. }
  apply (length_filter_lt _ _ y); [|by intros ?].
  apply list_elem_of_filter. done.
Qed.

(** One iteration of the loop, on the stack and the set alone. *)
Lemma dfs_step self P y yst rest pushed :
  dfs_inv self P (y :: rest) → heap self !! y = Some yst →
  (∀ k, k ∈ pushed ↔
        k ∈ dict_values (transitions yst) ∧ k ∉ ({[y]} ∪ P : gset nat)) →
  (∀ k, k ∈ pushed → resolved self k) →
  dfs_inv self ({[y]} ∪ P) (pushed ++ rest).
Proof.
  intros (H1 & H2 & H3 & H4) Hy Hpushed Hres. set (P1 := {[y]} ∪ P) in *.
  assert (HP1res : ∀ y', y' ∈ P1 → resolved self y').
  { intros y' [->%elem_of_singleton|?]%elem_of_union; [|by apply H2].
    apply H1. by left. }
  split; [|split; [|split]].
  - intros k [Hk|Hk]%elem_of_app; [by apply Hres|]. apply H1. by right.
  - done.
  - intros y' yst' k Hy' Hst' Hk.
    apply elem_of_union in Hy' as [->%elem_of_singleton|Hy'].
    + assert (yst' = yst) as -> by congruence.
      destruct (decide (k ∈ P1)); [by left|]. right.
      apply elem_of_app. left. by apply Hpushed.
    + destruct (H3 y' yst' k Hy' Hst' Hk) as [?|[->|?]%elem_of_cons].
      * left. set_solver.
      * left. set_solver.
      * right. apply elem_of_app. by right.
  - intros y' yst' k l1 l2 Hy' Hst' Hk HkP E.
    destruct (app_split_not_in pushed rest l1 l2 y' E) as (l1' & -> & Hrest).
    { intros [_ ?]%Hpushed. done. }
    apply elem_of_app.
    apply elem_of_union in Hy' as [->%elem_of_singleton|Hy'].
    + assert (yst' = yst) as -> by congruence. left. by apply Hpushed.
    + right. assert (k ∈ y :: l1') as [->|?]%elem_of_cons; [|set_solver|done].
      apply (H4 y' yst' k (y :: l1') l2); try done; [set_solver|].
      by rewrite Hrest.
Qed.

Lemma dfs_step_potential N self P y yst rest pushed :
  dfs_inv self P (y :: rest) → heap self !! y = Some yst → y < N →
  (∀ k, k ∈ pushed ↔
        k ∈ dict_values (transitions yst) ∧ k ∉ ({[y]} ∪ P : gset nat)) →
  length pushed ≤ N →
  dfs_potential N ({[y]} ∪ P) (pushed ++ rest) <
  dfs_potential N P (y :: rest).
Proof.
  intros (H1 & H2 & H3 & H4) Hy HyN Hpushed Hlen. set (P1 := {[y]} ∪ P) in *.
  unfold dfs_potential. rewrite length_app. simpl.
  destruct (decide (y ∈ P)) as [Hin|Hnin].
  - assert (pushed = []) as ->.
    { destruct pushed as [|k pushed']; [done|]. exfalso.
      assert (k ∈ dict_values (transitions yst) ∧ k ∉ P1) as [Hk HkP].
      { apply Hpushed. by left. }
      assert (k ∈ @nil nat) as Hnil; [|by apply elem_of_nil in Hnil].
      apply (H4 y yst k [] rest); try done. set_solver. }
    simpl.
    assert (filter (λ a, a ∉ P1) (seq 0 N) = filter (λ a, a ∉ P) (seq 0 N))
      as ->; [|lia].
    apply list_filter_iff. intros a. set_solver.
  - assert (length (filter (λ a, a ∉ P1) (seq 0 N)) <
            length (filter (λ a, a ∉ P) (seq 0 N))).
    { apply unprocessed_lt; [|done]. apply elem_of_seq. lia. }
    nia.
Qed.

Lemma process_loop_spec wd self0 fuel :
  length wd ≤ fuel →
  ∀ n P stack self,
  linking wd self0 self → dfs_inv self P stack →
  dfs_potential (length wd) P stack < n →
  ∃ self' P',
    process_loop n fuel P stack self = (Ok (), self') ∧
    linking wd self0 self' ∧ dfs_inv self' P' [] ∧ P ⊆ P' ∧
    (∀ y, y ∈ stack → y ∈ P').
Proof.
  intros Hfuel. induction n as [|n IH]; intros P stack self Hlk Hdfs Hpot; [lia|].
  destruct stack as [|y rest]; cbn [process_loop].
  { exists self, P. split; [done|]. split; [done|]. split; [done|].
    split; [done|]. by intros y ?%elem_of_nil. }
  pose proof Hlk as (Hs & _).
  pose proof Hdfs as (H1 & _).
  destruct (H1 y) as (yst & Hy & Hyl); [by left|]. rewrite Hy.
  rewrite (shape_id _ _ Hs _ _ Hy).
  set (P1 := {[y]} ∪ P).
  destruct (children_loop_spec wd self0 fuel P1 y yst Hfuel Hyl
              (S (length (transitions yst))) 0 rest self Hlk Hy)
    as (self1 & E1 & Hlk1 & Hf1 & Hr1); [lia|lia|].
  rewrite E1. rewrite drop_0 in *.
  set (kids := dict_values (transitions yst)) in *.
  remember (reverse (filter (λ k, k ∉ P1) kids)) as pushed eqn:Epushed.
  assert (Hpushed : ∀ k, k ∈ pushed ↔ k ∈ kids ∧ k ∉ P1).
  { intros k. rewrite Epushed, elem_of_reverse, list_elem_of_filter. tauto. }
  assert (Hy1 : heap self1 !! y = Some yst).
  { rewrite Hf1; [done|]. by exists yst. }
  pose proof (dfs_inv_frame self self1 P (y :: rest) Hf1 Hdfs) as Hdfs0.
  assert (Hdfs1 : dfs_inv self1 P1 (pushed ++ rest)).
  { apply (dfs_step self1 P y yst rest pushed); try done.
    intros k Hk. apply Hr1. by rewrite <-elem_of_reverse, <-Epushed. }
  assert (Hpot1 : dfs_potential (length wd) P1 (pushed ++ rest) <
                  dfs_potential (length wd) P (y :: rest)).
  { apply (dfs_step_potential (length wd) self1 P y yst rest pushed); try done.
    - apply lookup_lt_Some in Hy. by rewrite (shape_len _ _ Hs) in Hy.
    - rewrite Epushed. rewrite length_reverse. etrans; [apply length_filter|].
      unfold kids, dict_values. rewrite length_fmap.
      destruct Hyl as [f Hf]. destruct (shape_word _ _ _ _ Hs Hy) as [yw Hyw].
      destruct (linking_node _ _ _ _ _ _ _ Hlk Hy Hyw Hf) as (_ & Hg & _).
      by eapply goto_dict_length. }
  destruct (IH P1 (pushed ++ rest) self1 Hlk1 Hdfs1)
    as (self' & P' & E' & Hlk' & Hdfs' & Hsub & HP'); [lia|].
  exists self', P'. split; [done|]. split; [done|]. split; [done|].
  split; [set_solver|].
  intros k [->|Hk]%elem_of_cons; [set_solver|].
  apply HP'. apply elem_of_app. by right.
Qed.
End Dfs.

Section Finalize.
Context {sym : Type} `{EqDecision sym}.
Implicit Types (self : @KeywordTree sym) (st : @State sym)
  (wd : list (list sym)) (w u v x : list sym) (P : gset nat)
  (lower : list sym → list sym).

Lemma linking_start wd self0 :
  shape wd self0 → unlinked wd self0 →
  linking wd self0
    (mutate (_zero_state self0)
       (set_longest_strict_suffix (Some (_zero_state self0))) self0).
Proof.
  intros Hs Hu. rewrite (shape_zero _ _ Hs).
  set (self1 := mutate 0 (set_longest_strict_suffix (Some 0)) self0).
  destruct (shape_state _ _ _ _ Hs (shape_root _ _ Hs)) as [rst Hrst].
  assert (Hr1 : heap self1 !! 0 = Some (set_longest_strict_suffix (Some 0) rst))
    by by apply heap_mutate_eq.
  split; [|split; [|split; [|split]]].
  - apply (shape_same_static _ self0); [apply same_static_set_lss|done].
  - apply same_static_set_lss.
  - eexists. split; [exact Hr1|]. by eexists.
  - intros b st0 u Hb Hw. by destruct (Hu b st0 u Hb Hw).
  - intros d b u Hb _ st w Hst Hw. assert (w = u) as -> by congruence.
    destruct (decide (b = 0)) as [->|Hne].
    + rewrite Hr1 in Hst. injection Hst as <-. simpl.
      assert (u = []) as ->.
      { pose proof (shape_root _ _ Hs). congruence. }
      exists rst. split; [done|]. split; [done|]. split.
      * apply tree_goto_root; [by eapply shape_nil_in|].
        by destruct (Hu 0 rst [] Hrst Hb).
      * eexists. split; [exact Hr1|]. split; [by eexists|]. simpl.
        by rewrite merge_loop_zero.
    + unfold self1 in Hst. rewrite heap_mutate_ne in Hst by done.
      exists st. split; [done|]. by destruct (Hu b st u Hst Hb) as [-> _].
Qed.

Lemma dfs_all_processed wd self0 self P :
  linking wd self0 self → dfs_inv self P [] → 0 ∈ P →
  ∀ w a, wd !! a = Some w → a ∈ P.
Proof.
  intros Hlk (_ & H2 & H3 & _) H0. pose proof Hlk as (Hs & _).
  induction w as [|c x IH] using rev_ind; intros a Ha.
  - by rewrite (shape_nil _ _ _ Hs Ha).
  - assert (x ∈ wd) as [p Hp]%list_elem_of_lookup.
    { apply (shape_prefix_closed _ _ Hs x c). apply list_elem_of_lookup.
      by exists a. }
    specialize (IH p Hp). destruct (H2 p IH) as (pst & Hpst & [f Hf]).
    destruct (linking_node _ _ _ _ _ _ _ Hlk Hpst Hp Hf) as (_ & Hg & _).
    pose proof (goto_tree_edge _ _ _ _ _ Hg Ha) as Hget.
    destruct (H3 p pst a IH Hpst) as [?|Hn]; [|done|by apply elem_of_nil in Hn].
    apply list_elem_of_fmap. exists (c, a). split; [done|].
    by apply dict_get_Some_elem.
Qed.

Lemma finalize_spec lower ks wd self0 fuel :
  built lower ks wd self0 → enough_fuel (length wd) ≤ fuel →
  ∃ self, finalize fuel self0 = (Ok (), self) ∧ linked wd self0 self.
Proof.
  intros (Hs & Hm & Hu & Hf) Hfuel. unfold finalize. rewrite Hf.
  unfold search_lss_for_children, enough_fuel in *.
  pose proof (linking_start wd self0 Hs Hu) as Hlk.
  set (self1 := mutate (_zero_state self0)
                  (set_longest_strict_suffix (Some (_zero_state self0))) self0) in *.
  assert (Hz1 : _zero_state self1 = 0) by apply Hlk. rewrite Hz1.
  assert (length wd ≤ fuel) as Hfuel' by nia.
  destruct (process_loop_spec wd self0 fuel Hfuel' fuel ∅ [0] self1 Hlk)
    as (self2 & P & E & Hlk2 & Hdfs & _ & HP).
  { pose proof Hlk as (_ & _ & Hr & _). split; [|split; [|split]].
    - by intros y ->%list_elem_of_singleton.
    - by intros y ?%elem_of_empty.
    - by intros y yst k ?%elem_of_empty.
    - by intros y yst k l1 l2 ?%elem_of_empty. }
  { unfold dfs_potential.
    assert (Har : ∀ f n, f ≤ n → n * S n + 2 ≤ fuel → 1 + f * S n < fuel)
      by (intros; nia).
    apply (Har _ (length wd)); [|done].
    etrans; [apply length_filter|]. by rewrite length_seq. }
  rewrite E. eexists. split; [done|].
  pose proof Hlk2 as (Hs2 & Hss2 & _ & _ & Hok2).
  assert (Hssf : same_static self2 (with_finalized true self2)).
  { repeat split; try done. intros a st' Hst'. by exists st'. }
  split; [by apply (shape_same_static _ self2)|].
  split; [|split; [done|]].
  { by apply (same_static_trans _ self2). }
  intros a Ha. apply lookup_lt_is_Some in Ha as [w Hw].
  assert (a ∈ P) as HaP.
  { apply (dfs_all_processed wd self0 self2 P Hlk2 Hdfs) with w; [|done].
    apply HP. by left. }
  destruct Hdfs as (_ & H2 & _). split.
  - destruct (H2 a HaP) as (st & ? & ?). by exists st.
  - intros st w' Hst Hw'. by apply (Hok2 (length w') a w').
Qed.
End Finalize.

Section Search.
Context {sym : Type} `{EqDecision sym}.
Implicit Types (self : @KeywordTree sym) (st : @State sym)
  (wd : list (list sym)) (w u v x pre text : list sym)
  (lower fold : list sym → list sym) (ks : list (list sym)).

Lemma reference_loop_flat_map fold ks text : ∀ pre,
  reference_loop fold ks pre text =
  flat_map (λ i, matches_ending fold ks (pre ++ take (S i) text))
    (seq 0 (length text)).
Proof.
  induction text as [|c text IH]; intros pre; simpl; [done|].
  f_equal. rewrite IH. rewrite <-fmap_S_seq.
  rewrite flat_map_concat_map, (flat_map_concat_map _ (S <$> _)).
  f_equal. rewrite <-list_fmap_compose. apply list_fmap_ext.
  intros _ i _. simpl. by rewrite <-app_assoc.
Qed.

Lemma reference_search_loop fold ks text :
  reference_search fold ks text = reference_loop fold ks [] text.
Proof. by rewrite reference_loop_flat_map. Qed.

Lemma flat_map_emit_filter fold ks wd self n l :
  marks fold ks wd self →
  flat_map (emit fold ks n) (filter (λ u, u ∈ wd) l) =
  flat_map (emit fold ks n) l.
Proof.
  intros Hm. induction l as [|u l IH]; simpl; [done|].
  destruct (decide (u ∈ wd)).
  - rewrite filter_cons_True by done. simpl. by rewrite IH.
  - rewrite filter_cons_False by done. rewrite IH. unfold emit at 2.
    by rewrite (keyword_of_absent fold ks wd self).
Qed.

Lemma lsuf_short_single wd x c :
  [] ∈ wd → length (lsuf wd (x ++ [c])) < 2 →
  lsuf wd (x ++ [c]) = lsuf wd [c].
Proof.
  intros H0 Hl. symmetry. apply lsuf_unique; [done| |by apply lsuf_in|].
  - pose proof (lsuf_suffix wd (x ++ [c])) as Hs.
    apply suffix_snoc_inv' in Hs as [E|(u' & E & _)].
    + rewrite E. apply suffix_nil.
    + rewrite E in *. rewrite length_app in Hl. simpl in Hl.
      destruct u'; simpl in *; [done|lia].
  - intros u Hu Hin. apply lsuf_max; [|done].
    etrans; [exact Hu|]. by apply suffix_app_r.
Qed.

Lemma output_loop_spec fold ks wd self0 self idx :
  linked wd self0 self → marks fold ks wd self →
  ∀ fuel a w, wd !! a = Some w → length w < fuel →
  output_loop fuel self idx (Some a) =
    (flat_map (emit fold ks (Z.of_nat idx + 1))
       (filter (λ u, u ∈ wd) (tails w)), Done).
Proof.
  intros (Hs & _ & _ & Hall) [Hm _].
  induction fuel as [|fuel IH]; intros a w Ha Hfuel; [lia|].
  simpl. rewrite (shape_zero _ _ Hs).
  destruct (decide (Some a = Some 0)) as [[= ->]|Hne].
  { pose proof (shape_root _ _ Hs). by assert (w = []) as -> by congruence. }
  assert (a ≠ 0) as Ha0 by congruence.
  assert (w ≠ []) as Hw.
  { intros ->. apply Ha0. by eapply shape_nil. }
  destruct (Hall a) as [(st & Hst & [f Hf]) Hok]; [by apply lookup_lt_Some in Ha|].
  rewrite Hst.
  destruct (node_ok_resolved _ _ _ _ _ _ _ Hok Hst Ha Hf) as (Hfw & _ & _).
  rewrite filter_tails_cons; [|done|by apply list_elem_of_lookup; exists a].
  pose proof (fail_length wd w Hw) as Hlt.
  destruct (Hm a st w Hst Ha) as [Hmk Hsucc].
  rewrite Hf, (IH f (fail wd w) Hfw) by lia. simpl.
  destruct (success st) eqn:Es.
  - destruct Hsucc as [Hsucc _]. destruct (Hsucc eq_refl) as [k Hk].
    rewrite Hmk, Hk. unfold emit at 2. by rewrite Hk.
  - destruct (keyword_of fold ks w) as [k|] eqn:Hk.
    + destruct Hsucc as [_ Hsucc].
      by specialize (Hsucc (mk_is_Some _ _ eq_refl)).
    + unfold emit at 2. by rewrite Hk.
Qed.

Lemma step_spec wd self0 self cur curst zero pre c :
  linked wd self0 self → wd !! cur = Some (lsuf wd pre) →
  heap self !! cur = Some curst → heap self !! 0 = Some zero →
  wd !! default (default 0 (dict_get c (transitions zero)))
          (dict_get c (transitions curst))
    = Some (lsuf wd (pre ++ [c])).
Proof.
  intros (Hs & _ & _ & Hall) Hcur Hcurst Hzero.
  pose proof (shape_nil_in _ _ Hs) as Hnil.
  pose proof (shape_prefix_closed _ _ Hs) as Hpc.
  rewrite (lsuf_snoc wd pre c) by done.
  set (w := lsuf wd pre) in *. remember (lsuf wd (w ++ [c])) as v eqn:Ev.
  assert (∃ bv, wd !! bv = Some v) as [bv Hbv].
  { apply list_elem_of_lookup. subst v. by apply lsuf_in. }
  assert (Hgoto : ∀ a st u, heap self !! a = Some st → wd !! a = Some u →
            goto_dict wd u (transitions st)).
  { intros a st u Hst Hu.
    destruct (Hall a) as [(st' & Hst' & [f Hf]) Hok]; [by apply lookup_lt_Some in Hu|].
    assert (st' = st) as -> by congruence.
    by destruct (node_ok_resolved _ _ _ _ _ _ _ Hok Hst Hu Hf) as (_ & ? & _). }
  destruct (Hgoto cur curst w Hcurst Hcur) as [_ Hg].
  destruct (Hgoto 0 zero [] Hzero (shape_root _ _ Hs)) as [_ Hg0].
  destruct (dict_get c (transitions curst)) as [b|] eqn:Hget; simpl.
  { apply Hg in Hget as [? _]. by rewrite Ev. }
  assert (Hshort : length v < 2).
  { destruct (decide (length v < 2)); [done|]. exfalso.
    assert (dict_get c (transitions curst) = Some bv); [|congruence].
    apply Hg. rewrite <-Ev. split; [done|]. right. lia. }
  assert (v = lsuf wd [c]) as Ev'.
  { rewrite Ev. apply lsuf_short_single; [done|]. by rewrite <-Ev. }
  destruct (dict_get c (transitions zero)) as [b|] eqn:Hget0; simpl.
  { apply Hg0 in Hget0 as [? _]. by rewrite Ev'. }
  rewrite (shape_root _ _ Hs). f_equal.
  destruct (decide (v = [])) as [->|Hv]; [done|]. exfalso.
  assert (dict_get c (transitions zero) = Some bv); [|congruence].
  apply Hg0. change ([] ++ [c]) with [c]. rewrite <-Ev'. split; [done|by left].
Qed.

Lemma matches_ending_emit fold ks pre :
  matches_ending fold ks pre =
  flat_map (emit fold ks (Z.of_nat (length pre))) (tails pre).
Proof. done. Qed.

Lemma search_loop_spec fold ks wd self0 self fuel :
  linked wd self0 self → marks fold ks wd self → length wd ≤ fuel →
  ∀ text pre cur, wd !! cur = Some (lsuf wd pre) →
  search_loop fuel self (length pre) text cur =
    (reference_loop fold ks pre text, Done).
Proof.
  intros Hlk Hm Hfuel. pose proof Hlk as (Hs & _).
  induction text as [|c text IH]; intros pre cur Hcur; simpl; [done|].
  destruct (shape_state _ _ _ _ Hs Hcur) as [curst Hcurst].
  destruct (shape_state _ _ _ _ Hs (shape_root _ _ Hs)) as [zero Hzero].
  rewrite (shape_zero _ _ Hs), Hcurst, Hzero.
  pose proof (step_spec wd self0 self cur curst zero pre c Hlk Hcur Hcurst Hzero)
    as Hstep.
  rewrite (output_loop_spec fold ks wd self0 self (length pre) Hlk Hm fuel _ _ Hstep).
  2:{ pose proof (depth_bound _ _ _ _ Hs Hstep). lia. }
  rewrite <-filter_tails_lsuf.
  rewrite (flat_map_emit_filter fold ks wd self) by done.
  assert (length (pre ++ [c]) = S (length pre)) as Hlen.
  { rewrite length_app. simpl. lia. }
  rewrite <-Hlen, (IH (pre ++ [c]) _ Hstep).
  rewrite matches_ending_emit. rewrite Hlen.
  by replace (Z.of_nat (length pre) + 1)%Z with (Z.of_nat (S (length pre))) by lia.
Qed.

(** The tree of [ks], with the words of its states. *)
Lemma build_linked lower ci ks fuel :
  fuel_for lower ci ks ≤ fuel →
  ∃ wd self0 self,
    added lower ci ks = (Ok (), self0) ∧
    built lower ks wd self0 ∧ _case_insensitive self0 = ci ∧
    finalize fuel self0 = (Ok (), self) ∧
    build lower ci ks fuel = Ok self ∧
    linked wd self0 self ∧
    marks (the_fold lower ci) ks wd self ∧
    _counter self0 = length wd.
Proof.
  unfold fuel_for, build, added.
  destruct (add_all_init lower ci ks) as (wd & self0 & E & Hb & Hci).
  rewrite E. simpl. intros Hfuel.
  pose proof Hb as (Hs & Hm & _).
  rewrite (shape_counter _ _ Hs) in Hfuel.
  destruct (finalize_spec lower ks wd self0 fuel Hb Hfuel) as (self & Ef & Hlk).
  exists wd, self0, self. rewrite Ef.
  do 6 (split; [done|]). split; [|apply Hs].
  rewrite <-Hci. apply (marks_same_static _ _ _ self0); [apply Hlk|done].
Qed.

(** [search_all] on a finalized tree is the reference matcher on the
    folded keywords and the folded text. *)
Lemma search_all_reference lower ci ks fuel self text fuel' :
  fuel_for lower ci ks ≤ fuel → build lower ci ks fuel = Ok self →
  _counter self ≤ fuel' →
  search_all lower fuel' self text =
    (reference_search (the_fold lower ci) ks (the_fold lower ci text), Done).
Proof.
  intros Hfuel Hbuild Hfuel'.
  destruct (build_linked lower ci ks fuel Hfuel)
    as (wd & self0 & self' & _ & _ & Hci & _ & Hbuild' & Hlk & Hm & Hcnt).
  assert (self' = self) as -> by congruence.
  pose proof Hlk as (Hs & (_ & _ & _ & Hci' & _) & Hfin & _).
  unfold search_all. rewrite Hfin. simpl.
  rewrite (shape_zero _ _ Hs), reference_search_loop.
  rewrite Hci', Hci.
  assert ((if ci then lower text else text) = the_fold lower ci text) as ->
    by (by destruct ci).
  assert (length wd ≤ fuel') as Hle by (by rewrite <-(shape_counter _ _ Hs)).
  apply (search_loop_spec _ ks wd self0 self fuel' Hlk Hm Hle _ [] 0).
  apply Hs.
Qed.
End Search.

Section Reference.
Context {sym : Type} `{EqDecision sym}.
Variables (fold : list sym → list sym) (ks : list (list sym)).
Implicit Types (w u v x pre text k : list sym) (off n : Z)
  (m : list sym * Z).

Lemma occurs_at_suffix u text i :
  occurs_at u text i ↔
  i + length u ≤ length text ∧ u `suffix_of` take (i + length u) text.
Proof.
  unfold occurs_at. split.
  - intros [Hle E]. split; [done|]. exists (take i text).
    by rewrite <-take_take_drop, E.
  - intros [Hle [p E]]. split; [done|].
    assert (length p = i) as Hp.
    { apply (f_equal length) in E. rewrite length_take, length_app in E. lia. }
    rewrite take_drop_commute, E, <-Hp. by rewrite drop_app_length.
Qed.

Lemma emit_elem n u k off :
  (k, off) ∈ emit fold ks n u ↔
  keyword_of fold ks u = Some k ∧ off = (n - Z.of_nat (length k))%Z.
Proof.
  unfold emit. destruct (keyword_of fold ks u) as [k'|].
  - rewrite list_elem_of_singleton. split.
    + by intros [= -> ->].
    + by intros [[= ->] ->].
  - split; [by intros ?%elem_of_nil|by intros []].
Qed.

Lemma flat_map_emit_elem n l k off :
  (k, off) ∈ flat_map (emit fold ks n) l ↔
  ∃ u, u ∈ l ∧ keyword_of fold ks u = Some k ∧
       off = (n - Z.of_nat (length k))%Z.
Proof.
  induction l as [|u l IH]; simpl.
  - split; [by intros ?%elem_of_nil|]. by intros (u & ?%elem_of_nil & _).
  - rewrite elem_of_app, emit_elem, IH. split.
    + intros [[? ?]|(u' & ? & ? & ?)].
      * exists u. split; [by left|done].
      * exists u'. split; [by right|done].
    + intros (u' & [->|?]%elem_of_cons & ? & ?); [by left|].
      right. by exists u'.
Qed.

Lemma matches_ending_elem pre k off :
  (k, off) ∈ matches_ending fold ks pre ↔
  keyword_of fold ks (fold k) = Some k ∧ fold k ≠ [] ∧
  fold k `suffix_of` pre ∧
  off = (Z.of_nat (length pre) - Z.of_nat (length k))%Z.
Proof.
  rewrite matches_ending_emit, flat_map_emit_elem. split.
  - intros (u & [Hne Hs]%elem_of_tails & Hk & ->).
    destruct (keyword_of_elem _ _ _ _ Hk) as (_ & <- & _). done.
  - intros (Hk & Hne & Hs & ->). exists (fold k). split; [|done].
    by apply elem_of_tails.
Qed.

Lemma reference_loop_elem text : ∀ pre k off,
  (k, off) ∈ reference_loop fold ks pre text ↔
  ∃ j, j < length text ∧
    keyword_of fold ks (fold k) = Some k ∧ fold k ≠ [] ∧
    fold k `suffix_of` pre ++ take (S j) text ∧
    off = (Z.of_nat (length pre + S j) - Z.of_nat (length k))%Z.
Proof.
  induction text as [|c text IH]; intros pre k off; simpl.
  - split; [by intros ?%elem_of_nil|]. intros (j & ? & _). lia.
  - rewrite elem_of_app, matches_ending_elem, IH. split.
    + intros [(? & ? & ? & ->)|(j & ? & ? & ? & Hs & ->)].
      * exists 0. rewrite take_0. split; [lia|]. do 3 (split; [done|]).
        rewrite length_app. simpl. lia.
      * exists (S j). split; [lia|]. do 2 (split; [done|]).
        rewrite <-app_assoc in Hs. split; [done|].
        rewrite length_app. simpl. lia.
    + intros ([|j] & ? & ? & ? & Hs & ->).
      * left. rewrite take_0 in Hs. do 3 (split; [done|]).
        rewrite length_app. simpl. lia.
      * right. exists j. split; [lia|]. do 2 (split; [done|]).
        rewrite <-app_assoc. split; [done|].
        rewrite length_app. simpl. lia.
Qed.

Lemma reference_search_elem text k off :
  (k, off) ∈ reference_search fold ks text ↔
  ∃ e, 1 ≤ e ≤ length text ∧
    keyword_of fold ks (fold k) = Some k ∧ fold k ≠ [] ∧
    fold k `suffix_of` take e text ∧
    off = (Z.of_nat e - Z.of_nat (length k))%Z.
Proof.
  rewrite reference_search_loop, reference_loop_elem. simpl. split.
  - intros (j & ? & ? & ? & ? & ->). exists (S j). split; [lia|done].
  - intros ([|j] & ? & ? & ? & ? & ->); [lia|]. exists j. split; [lia|done].
Qed.

Lemma tails_sorted w :
  StronglySorted (λ u v, length v < length u) (tails w).
Proof.
  induction w as [|a w IH]; simpl; [constructor|].
  constructor; [done|]. apply Forall_forall.
  intros v [_ Hv%suffix_length]%elem_of_tails. simpl. lia.
Qed.

Lemma emit_sorted n u : StronglySorted (yielded_before fold) (emit fold ks n u).
Proof.
  unfold emit. destruct (keyword_of fold ks u); repeat constructor.
Qed.

Lemma flat_map_emit_sorted n l :
  StronglySorted (λ u v, length v < length u) l →
  StronglySorted (yielded_before fold) (flat_map (emit fold ks n) l).
Proof.
  induction 1 as [|u l Hl IH Hall]; simpl; [constructor|].
  apply StronglySorted_app_2; [|apply emit_sorted|done].
  intros [k1 o1] [k2 o2] [Hk1 ->]%emit_elem (u' & Hu' & Hk2 & ->)%flat_map_emit_elem.
  right. unfold end_pos. simpl. split; [lia|].
  destruct (keyword_of_elem _ _ _ _ Hk1) as (_ & -> & _).
  destruct (keyword_of_elem _ _ _ _ Hk2) as (_ & -> & _).
  rewrite Forall_forall in Hall. by apply Hall.
Qed.

Lemma reference_loop_sorted text : ∀ pre,
  StronglySorted (yielded_before fold) (reference_loop fold ks pre text).
Proof.
  induction text as [|c text IH]; intros pre; simpl; [constructor|].
  apply StronglySorted_app_2; [| |apply IH].
  - intros [k1 o1] [k2 o2] (_ & _ & _ & ->)%matches_ending_elem
      (j & _ & _ & _ & _ & ->)%reference_loop_elem.
    left. unfold end_pos. simpl. lia.
  - rewrite matches_ending_emit. apply flat_map_emit_sorted, tails_sorted.
Qed.

Lemma reference_search_sorted text :
  StronglySorted (yielded_before fold) (reference_search fold ks text).
Proof. rewrite reference_search_loop. apply reference_loop_sorted. Qed.

Lemma yielded_before_irrefl m : ¬ yielded_before fold m m.
Proof. intros [?|[_ ?]]; lia. Qed.
End Reference.

Section SortedLemmas.
Context {A : Type} (R : relation A).

Lemma StronglySorted_lookup_lt l i j x y :
  StronglySorted R l → i < j → l !! i = Some x → l !! j = Some y → R x y.
Proof.
  intros Hl. revert i j. induction Hl as [|a l Hl IH Hall]; intros i j Hij Hi Hj.
  - by rewrite lookup_nil in Hi.
  - destruct j as [|j]; [lia|]. destruct i as [|i]; simpl in *.
    + injection Hi as ->. rewrite Forall_forall in Hall. apply Hall.
      apply list_elem_of_lookup. by exists j.
    + apply (IH i j); [lia|done..].
Qed.

Lemma StronglySorted_NoDup l :
  (∀ x, ¬ R x x) → StronglySorted R l → NoDup l.
Proof.
  intros Hirr. induction 1 as [|a l Hl IH Hall]; constructor; [|done].
  intros Hin. rewrite Forall_forall in Hall. by apply (Hirr a), Hall.
Qed.

Lemma NoDup_filter_eq `{EqDecision A} (l : list A) x :
  NoDup l → x ∈ l → length (filter (λ y, y = x) l) = 1.
Proof.
  induction 1 as [|a l Hn Hl IH]; [by intros ?%elem_of_nil|].
  intros [->|Hin]%elem_of_cons.
  - rewrite filter_cons_True by done. simpl. f_equal.
    assert (filter (λ y, y = a) l = []) as ->; [|done].
    destruct (filter (λ y, y = a) l) as [|b l'] eqn:E; [done|]. exfalso.
    assert (b ∈ filter (λ y, y = a) l) as [-> ?]%list_elem_of_filter
      by (rewrite E; by left).
    done.
  - rewrite filter_cons_False; [by apply IH|]. by intros ->.
Qed.
End SortedLemmas.

Section Snapshot.
Context {sym : Type} `{EqDecision sym}.
Implicit Types (self : @KeywordTree sym) (st : @State sym)
  (h : list (@State sym)) (wd : list (list sym)) (P : gset nat)
  (sl : list (option (@Serialized sym))).

Lemma identifiers_of_spec h d : ∀ acc,
  (∀ k, k ∈ dict_values d → ∃ st, h !! k = Some st ∧ identifier st = k) →
  NoDup (acc ++ d).*1 →
  identifiers_of h d acc = Ok (acc ++ d).
Proof.
  induction d as [|[key value] d IH]; intros acc Hv Hnd; simpl.
  - by rewrite app_nil_r.
  - destruct (Hv value) as (st & -> & ->); [by left|].
    rewrite dict_set_new.
    2:{ apply dict_get_None. rewrite fmap_app in Hnd.
        apply NoDup_app in Hnd as (_ & Hn & _). intros Hin.
        apply (Hn key Hin). by left. }
    rewrite IH.
    + by rewrite <-app_assoc.
    + intros k Hk. apply Hv. by right.
    + by rewrite <-app_assoc.
Qed.

Lemma identifier_of_spec h x :
  closed_heap h → (∀ a, x = Some a → a < length h) →
  identifier_of h x = Ok x.
Proof.
  intros Hc Hx. destruct x as [a|]; simpl; [|done].
  destruct (lookup_lt_is_Some_2 h a (Hx a eq_refl)) as [st Hst].
  rewrite Hst. by destruct (Hc a st Hst) as (-> & _).
Qed.

Lemma serialize_spec h a st :
  closed_heap h → h !! a = Some st → serialize h st = Ok (ser st).
Proof.
  intros Hc Hst. destruct (Hc a st Hst) as (Hid & Hp & Hf & Hnd & Hk).
  unfold serialize. rewrite (identifiers_of_spec h (transitions st) []); [|..|done].
  2:{ intros k Hkin. destruct (lookup_lt_is_Some_2 h k (Hk k Hkin)) as [kst Hkst].
      exists kst. split; [done|]. by destruct (Hc k kst Hkst) as (-> & _). }
  rewrite !identifier_of_spec by done. done.
Qed.

Lemma getstate_children_spec h sl P kids : ∀ todo,
  closed_heap h → length sl = length h →
  (∀ i, i ∈ P ↔ ∃ s, sl !! i = Some (Some s)) →
  (∀ k, k ∈ kids → k < length h) →
  getstate_children h sl kids todo =
    Ok (reverse (filter (λ k, k ∉ P) kids) ++ todo).
Proof.
  intros todo Hc Hlen HP. revert todo.
  induction kids as [|child kids IH]; intros todo Hk; simpl; [done|].
  destruct (lookup_lt_is_Some_2 h child) as [cst Hcst]; [apply Hk; by left|].
  rewrite Hcst. destruct (Hc child cst Hcst) as (-> & _).
  rewrite decide_False by (apply lookup_lt_Some in Hcst; lia).
  assert (Hrest : ∀ k, k ∈ kids → k < length h).
  { intros k ?. apply Hk. by right. }
  destruct (decide (child ∈ P)) as [Hin|Hnin].
  - rewrite filter_cons_False by (by intros ?).
    apply HP in Hin as [s ->]. by apply IH.
  - rewrite filter_cons_True by done. rewrite reverse_cons, <-app_assoc. simpl.
    destruct (sl !! child) as [[s|]|] eqn:E; [|by apply IH..].
    exfalso. apply Hnin. apply HP. by exists s.
Qed.

Lemma linked_linking wd self0 self :
  linked wd self0 self → unlinked wd self0 → linking wd self0 self.
Proof.
  intros (Hs & Hss & _ & Hall) Hu. split; [done|]. split; [done|].
  assert (0 < length wd) as H0.
  { apply (lookup_lt_Some wd 0 []). apply Hs. }
  split; [by apply Hall|]. split.
  - intros b st0 u Hb Hw. by destruct (Hu b st0 u Hb Hw).
  - intros d b u Hb _. apply Hall. by apply lookup_lt_Some in Hb.
Qed.

Lemma linked_goto wd self0 self a st w :
  linked wd self0 self → heap self !! a = Some st → wd !! a = Some w →
  goto_dict wd w (transitions st) ∧
  ∃ f, longest_strict_suffix st = Some f ∧ wd !! f = Some (fail wd w).
Proof.
  intros (Hs & _ & _ & Hall) Hst Hw.
  destruct (Hall a) as [(st' & Hst' & [f Hf]) Hok]; [by apply lookup_lt_Some in Hw|].
  assert (st' = st) as -> by congruence.
  destruct (node_ok_resolved _ _ _ _ _ _ _ Hok Hst Hw Hf) as (? & ? & _).
  split; [done|]. by exists f.
Qed.

Lemma linked_closed wd self0 self :
  linked wd self0 self → closed_heap (heap self).
Proof.
  intros Hlk a st Hst. pose proof Hlk as (Hs & _).
  destruct (shape_word _ _ _ _ Hs Hst) as [w Hw].
  destruct (linked_goto _ _ _ _ _ _ Hlk Hst Hw) as ([Hnd Hg] & f & Hf & Hfw).
  rewrite (shape_len _ _ Hs).
  split; [by apply (shape_id _ _ Hs)|]. split; [|split; [|split; [done|]]].
  - intros p Hp. destruct (decide (a = 0)) as [->|Hne].
    + destruct (shape_root_state _ _ Hs st Hst). congruence.
    + destruct (shape_parent _ _ Hs a st w Hst Hw Hne) as (x & c & p' & _ & Hp' & ? & _).
      assert (p' = p) as -> by congruence. by apply lookup_lt_Some in Hp'.
  - intros f' Hf'. assert (f' = f) as -> by congruence.
    by apply lookup_lt_Some in Hfw.
  - intros k ([c k'] & -> & Hin)%list_elem_of_fmap. simpl.
    apply dict_get_elem in Hin; [|done]. apply Hg in Hin as [Hk _].
    by apply lookup_lt_Some in Hk.
Qed.

Lemma linked_resolved wd self0 self a :
  linked wd self0 self → a < length wd → resolved self a.
Proof. intros (_ & _ & _ & Hall) Ha. by apply Hall. Qed.

Lemma getstate_loop_spec wd self0 self :
  linked wd self0 self →
  ∀ n P todo sl,
  getstate_inv (heap self) sl P → dfs_inv self P todo →
  dfs_potential (length wd) P todo < n →
  ∃ sl' P',
    getstate_loop n (heap self) sl todo = Ok sl' ∧
    getstate_inv (heap self) sl' P' ∧ dfs_inv self P' [] ∧ P ⊆ P' ∧
    (∀ y, y ∈ todo → y ∈ P').
Proof.
  intros Hlk. pose proof Hlk as (Hs & _).
  pose proof (linked_closed _ _ _ Hlk) as Hc.
  induction n as [|n IH]; intros P todo sl Hinv Hdfs Hpot; [lia|].
  destruct todo as [|y rest]; cbn [getstate_loop].
  { exists sl, P. split; [done|]. split; [done|]. split; [done|].
    split; [done|]. by intros y ?%elem_of_nil. }
  pose proof Hdfs as (H1 & _). pose proof Hinv as (Hlen & HP & Hser).
  destruct (H1 y) as (yst & Hy & _); [by left|]. rewrite Hy.
  rewrite (serialize_spec _ _ _ Hc Hy).
  destruct (Hc y yst Hy) as (-> & _ & _ & _ & Hkids).
  assert (y < length (heap self)) as Hylt by (by apply lookup_lt_Some in Hy).
  rewrite decide_False by lia.
  set (P1 := {[y]} ∪ P). set (sl1 := <[y := Some (ser yst)]> sl).
  assert (Hinv1 : getstate_inv (heap self) sl1 P1).
  { split; [|split].
    - unfold sl1. by rewrite length_insert.
    - intros i. unfold sl1, P1. destruct (decide (i = y)) as [->|Hne].
      + rewrite list_lookup_insert_eq by lia. split; [by eexists|set_solver].
      + rewrite list_lookup_insert_ne by done. rewrite <-HP. set_solver.
    - intros i s. unfold sl1. destruct (decide (i = y)) as [->|Hne].
      + rewrite list_lookup_insert_eq by lia. intros [= <-]. by exists yst.
      + rewrite list_lookup_insert_ne by done. apply Hser. }
  rewrite (getstate_children_spec (heap self) sl1 P1 _ rest Hc); try apply Hinv1;
    [|done].
  set (kids := dict_values (transitions yst)) in *.
  remember (reverse (filter (λ k, k ∉ P1) kids)) as pushed eqn:Epushed.
  assert (Hpushed : ∀ k, k ∈ pushed ↔ k ∈ kids ∧ k ∉ P1).
  { intros k. rewrite Epushed, elem_of_reverse, list_elem_of_filter. tauto. }
  assert (Hdfs1 : dfs_inv self P1 (pushed ++ rest)).
  { apply (dfs_step self P y yst rest pushed); try done.
    intros k [Hk _]%Hpushed. apply (linked_resolved wd self0); [done|].
    rewrite <-(shape_len _ _ Hs). by apply Hkids. }
  assert (Hpot1 : dfs_potential (length wd) P1 (pushed ++ rest) <
                  dfs_potential (length wd) P (y :: rest)).
  { apply (dfs_step_potential (length wd) self P y yst rest pushed); try done.
    - by rewrite <-(shape_len _ _ Hs).
    - rewrite Epushed. rewrite length_reverse. etrans; [apply length_filter|].
      unfold kids, dict_values. rewrite length_fmap.
      destruct (shape_word _ _ _ _ Hs Hy) as [yw Hyw].
      destruct (linked_goto _ _ _ _ _ _ Hlk Hy Hyw) as (Hg & _).
      by eapply goto_dict_length. }
  destruct (IH P1 (pushed ++ rest) sl1 Hinv1 Hdfs1)
    as (sl' & P' & E' & Hinv' & Hdfs' & Hsub & HP'); [lia|].
  exists sl', P'. split; [done|]. split; [done|]. split; [done|].
  split; [set_solver|].
  intros k [->|Hk]%elem_of_cons; [set_solver|].
  apply HP'. apply elem_of_app. by right.
Qed.

Lemma getstate_spec wd self0 self fuel :
  linked wd self0 self → unlinked wd self0 →
  enough_fuel (length wd) ≤ fuel →
  getstate fuel self =
    Ok {| snap_case_insensitive := _case_insensitive self;
          snap_finalized := _finalized self;
          snap_counter := _counter self;
          snap_states := (λ st, Some (ser st)) <$> heap self |}.
Proof.
  intros Hlk Hu Hfuel. pose proof Hlk as (Hs & _). unfold getstate.
  rewrite (shape_zero _ _ Hs), (shape_counter _ _ Hs).
  assert (0 < length wd) as H0.
  { apply (lookup_lt_Some wd 0 []). apply Hs. }
  destruct (getstate_loop_spec wd self0 self Hlk fuel ∅ [0]
              (replicate (length wd) None))
    as (sl & P & E & (Hlen & HP & Hser) & Hdfs & _ & Hin).
  { split; [|split].
    - rewrite length_replicate. symmetry. apply Hs.
    - intros i. split; [by intros ?%elem_of_empty|].
      intros [s Hl]. by apply lookup_replicate in Hl as [? _].
    - intros i s Hl. by apply lookup_replicate in Hl as [? _]. }
  { split; [|split; [|split]].
    - intros y ->%list_elem_of_singleton. by apply (linked_resolved wd self0).
    - by intros y ?%elem_of_empty.
    - by intros y yst k ?%elem_of_empty.
    - by intros y yst k l1 l2 ?%elem_of_empty. }
  { unfold dfs_potential, enough_fuel in *.
    assert (Har : ∀ f n, f ≤ n → n * S n + 2 ≤ fuel → 1 + f * S n < fuel)
      by (intros; nia).
    apply (Har _ (length wd)); [|done].
    etrans; [apply length_filter|]. by rewrite length_seq. }
  rewrite E. do 2 f_equal. apply list_eq. intros i.
  rewrite list_lookup_fmap.
  destruct (heap self !! i) as [st|] eqn:Hst; simpl.
  - destruct (shape_word _ _ _ _ Hs Hst) as [w Hw].
    assert (i ∈ P) as HiP.
    { apply (dfs_all_processed wd self0 self P) with w; try done.
      - by apply linked_linking.
      - apply Hin. by left. }
    apply HP in HiP as [s Hs']. rewrite Hs'.
    destruct (Hser i s Hs') as (st' & ? & ->). by assert (st' = st) as -> by congruence.
  - apply lookup_ge_None. apply lookup_ge_None in Hst. lia.
Qed.

Lemma setstate_create_spec (l : list (@State sym)) : ∀ idx,
  setstate_create idx ((λ st, Some (ser st)) <$> l) =
    Ok (imap (λ i st, blank (idx + i) st) l).
Proof.
  induction l as [|st l IH]; intros idx; simpl; [done|].
  rewrite IH. rewrite Nat.add_0_r. f_equal. f_equal.
  apply imap_ext. intros i x _. simpl. f_equal. lia.
Qed.

Lemma states_at_spec n (d : list (sym * nat)) : ∀ acc,
  (∀ k, k ∈ dict_values d → k < n) → NoDup (acc ++ d).*1 →
  states_at n d acc = Ok (acc ++ d).
Proof.
  induction d as [|[key value] d IH]; intros acc Hv Hnd; simpl.
  - by rewrite app_nil_r.
  - rewrite decide_True by (apply Hv; by left).
    rewrite dict_set_new.
    2:{ apply dict_get_None. rewrite fmap_app in Hnd.
        apply NoDup_app in Hnd as (_ & Hn & _). intros Hin.
        apply (Hn key Hin). by left. }
    rewrite IH.
    + by rewrite <-app_assoc.
    + intros k Hk. apply Hv. by right.
    + by rewrite <-app_assoc.
Qed.

Lemma state_at_spec n (x : option nat) :
  (∀ a, x = Some a → a < n) → state_at n x = Ok x.
Proof.
  intros Hx. destruct x as [a|]; simpl; [|done].
  by rewrite decide_True by by apply Hx.
Qed.

Lemma setstate_link_spec (rest : list (@State sym)) : ∀ done,
  closed_heap (done ++ rest) →
  setstate_link (length done) ((λ st, Some (ser st)) <$> rest)
    (done ++ imap (λ i st, blank (length done + i) st) rest) =
    Ok (done ++ rest).
Proof.
  induction rest as [|st rest IH]; intros done Hc; simpl.
  - done.
  - assert (Hst : (done ++ st :: rest) !! length done = Some st)
      by apply list_lookup_middle, eq_refl.
    destruct (Hc _ _ Hst) as (Hid & Hp & Hf & Hnd & Hk).
    assert (Hlen : length (done ++ blank (length done + 0) st ::
                     imap ((λ i st0, blank (length done + i) st0) ∘ S) rest)
                   = length (done ++ st :: rest)).
    { rewrite !length_app. simpl. by rewrite length_imap. }
    rewrite Hlen.
    rewrite state_at_spec by done. rewrite state_at_spec by done.
    rewrite (states_at_spec _ (transitions st) []) by done.
    rewrite alter_app_r_alt by done. rewrite Nat.sub_diag. simpl.
    specialize (IH (done ++ [st])). rewrite <-app_assoc in IH. simpl in IH.
    rewrite <-(IH Hc). f_equal.
    + rewrite length_app. simpl. lia.
    + rewrite <-app_assoc. simpl. f_equal. f_equal.
      * destruct st. simpl in *. by rewrite Nat.add_0_r, Hid.
      * apply imap_ext. intros i x _. simpl. f_equal.
        rewrite length_app. simpl. lia.
Qed.

Lemma setstate_spec self :
  closed_heap (heap self) → heap self ≠ [] → _zero_state self = 0 →
  setstate {| snap_case_insensitive := _case_insensitive self;
              snap_finalized := _finalized self;
              snap_counter := _counter self;
              snap_states := (λ st, Some (ser st)) <$> heap self |} = Ok self.
Proof.
  intros Hc Hne Hz. unfold setstate. simpl.
  rewrite setstate_create_spec.
  pose proof (setstate_link_spec (heap self) [] Hc) as E.
  change (setstate_link 0 ((λ st, Some (ser st)) <$> heap self)
            (imap (λ i st, blank (0 + i) st) (heap self)) = Ok (heap self)) in E.
  rewrite E. destruct self as [h z c f ci]. simpl in *. subst z.
  by destruct h.
Qed.
End Snapshot.

Section Claims.
Context {sym : Type} `{EqDecision sym}.
Variable lower : list sym → list sym.
Implicit Types (self : @KeywordTree sym) (st : @State sym)
  (wd : list (list sym)) (ks : list (list sym)) (k text : list sym).

Lemma depth_spec wd self :
  shape wd self →
  ∀ fuel a w, wd !! a = Some w → length w < fuel →
  depth fuel (heap self) a = Some (length w).
Proof.
  intros Hs. induction fuel as [|fuel IH]; intros a w Ha Hfuel; [lia|].
  simpl. destruct (shape_state _ _ _ _ Hs Ha) as [st Hst]. rewrite Hst.
  destruct (decide (a = 0)) as [->|Hne].
  - destruct (shape_root_state _ _ Hs st Hst) as [-> _].
    pose proof (shape_root _ _ Hs). by assert (w = []) as -> by congruence.
  - destruct (shape_parent _ _ Hs a st w Hst Ha Hne) as (x & c & p & -> & Hp & -> & _).
    rewrite length_app in *. simpl in *.
    rewrite (IH p x Hp) by lia. simpl. f_equal. lia.
Qed.

Lemma finalize_finalized fuel self0 self :
  finalize fuel self0 = (Ok (), self) → _finalized self = true.
Proof.
  unfold finalize. destruct (_finalized self0); [done|].
  destruct (search_lss_for_children _ _ _) as [[[]| |] self2]; [|done..].
  by intros [= <-].
Qed.

(** C3. No search before [finalize]: the tree that the constructor and
    any number of [add] calls make has its [_finalized] flag not set; and
    on a tree whose flag is not set [search_all] raises the [ValueError]
    before it yields anything, and so do [search_one] and its alias
    [search]. *)
Theorem no_search_before_finalize :
  (∀ ci ks, ∃ self,
     added lower ci ks = (Ok (), self) ∧ _finalized self = false) ∧
  (∀ self fuel text,
     _finalized self = false →
     search_all lower fuel self text =
       ([], Raised (ValueError msg_not_finalized)) ∧
     search_one lower fuel self text =
       Raise (ValueError msg_not_finalized) ∧
     search lower fuel self text = Raise (ValueError msg_not_finalized)).
Proof.
  split.
  - intros ci ks.
    destruct (add_all_init lower ci ks) as (wd & self & E & Hb & _).
    exists self. split; [done|]. apply Hb.
  - intros self fuel text Hf. unfold search, search_one, search_all.
    by rewrite Hf.
Qed.

(** C4. No insert after [finalize]: after a successful [finalize], [add]
    raises the [ValueError] and leaves the tree as it was, so that every
    search gives what it gave before. *)
Theorem no_add_after_finalize fuel self0 self keyword :
  finalize fuel self0 = (Ok (), self) →
  ∃ self',
    add lower keyword self =
      (Raise (ValueError msg_no_more_additions), self') ∧
    ∀ fuel' text,
      search_all lower fuel' self' text = search_all lower fuel' self text ∧
      search_one lower fuel' self' text = search_one lower fuel' self text.
Proof.
  intros Hfin%finalize_finalized. exists self. unfold add. by rewrite Hfin.
Qed.

(** C7. Failure-link invariant: after [finalize] the root's
    [longest_strict_suffix] is the root, and that of every other state is
    another state, of strictly smaller depth along the [parent] links. *)
Theorem failure_link_invariant ci ks fuel :
  fuel_for lower ci ks ≤ fuel →
  ∃ self,
    build lower ci ks fuel = Ok self ∧
    (∃ zero, heap self !! _zero_state self = Some zero ∧
             longest_strict_suffix zero = Some (_zero_state self)) ∧
    ∀ a st, heap self !! a = Some st → a ≠ _zero_state self →
      ∃ f d df,
        longest_strict_suffix st = Some f ∧ f ≠ a ∧
        depth (length (heap self)) (heap self) a = Some d ∧
        depth (length (heap self)) (heap self) f = Some df ∧
        df < d.
Proof.
  intros Hfuel.
  destruct (build_linked lower ci ks fuel Hfuel)
    as (wd & self0 & self & _ & _ & _ & _ & Hbuild & Hlk & _ & _).
  exists self. split; [done|]. pose proof Hlk as (Hs & _).
  rewrite (shape_zero _ _ Hs), (shape_len _ _ Hs). split.
  - destruct (shape_state _ _ _ _ Hs (shape_root _ _ Hs)) as [zero Hzero].
    exists zero. split; [done|].
    destruct (linked_goto _ _ _ _ _ _ Hlk Hzero (shape_root _ _ Hs))
      as (_ & f & -> & Hf).
    f_equal. by eapply shape_nil.
  - intros a st Hst Ha. destruct (shape_word _ _ _ _ Hs Hst) as [w Hw].
    destruct (linked_goto _ _ _ _ _ _ Hlk Hst Hw) as (_ & f & Hf & Hfw).
    assert (w ≠ []) as Hne.
    { intros ->. apply Ha. by eapply shape_nil. }
    pose proof (fail_length wd w Hne) as Hlt.
    exists f, (length w), (length (fail wd w)). split; [done|].
    split; [intros ->; assert (fail wd w = w) as E by congruence;
            rewrite E in Hlt; lia|].
    split; [|split; [|done]].
    + apply (depth_spec wd self Hs); [done|]. by eapply depth_bound.
    + apply (depth_spec wd self Hs); [done|]. by eapply depth_bound.
Qed.

(** C6. The merge step of [finalize] and the root: a state other than the
    root whose failure link [f] is not the root has, for every symbol of
    [f]'s transitions that it had no child for, the transition of [f];
    it keeps the children it had; when [f] is the root its transitions
    are what they were; and so are those of the root. *)
Theorem merge_step_and_root ci ks fuel :
  fuel_for lower ci ks ≤ fuel →
  ∃ self0 self,
    added lower ci ks = (Ok (), self0) ∧
    finalize fuel self0 = (Ok (), self) ∧
    (∀ a st, heap self !! a = Some st → a ≠ _zero_state self →
       ∃ st0 f fst,
         heap self0 !! a = Some st0 ∧
         longest_strict_suffix st = Some f ∧ heap self !! f = Some fst ∧
         (f ≠ _zero_state self →
            ∀ c m, dict_get c (transitions fst) = Some m →
                   dict_get c (transitions st0) = None →
                   dict_get c (transitions st) = Some m) ∧
         (∀ c m, dict_get c (transitions st0) = Some m →
                 dict_get c (transitions st) = Some m) ∧
         (f = _zero_state self → transitions st = transitions st0)) ∧
    (∀ zero zero0,
       heap self !! _zero_state self = Some zero →
       heap self0 !! _zero_state self = Some zero0 →
       transitions zero = transitions zero0).
Proof.
  intros Hfuel.
  destruct (build_linked lower ci ks fuel Hfuel)
    as (wd & self0 & self & Hadd & _ & _ & Hfin & _ & Hlk & _ & _).
  exists self0, self. split; [done|]. split; [done|].
  pose proof Hlk as (Hs & _ & _ & Hall). rewrite (shape_zero _ _ Hs).
  assert (Hnode : ∀ a st, heap self !! a = Some st →
    ∃ st0 f fst, heap self0 !! a = Some st0 ∧
      longest_strict_suffix st = Some f ∧ heap self !! f = Some fst ∧
      transitions st =
        merge_loop (transitions fst) (bool_decide (f = 0)) (transitions st0)).
  { intros a st Hst. destruct (shape_word _ _ _ _ Hs Hst) as [w Hw].
    destruct (Hall a) as [(st' & Hst' & [f Hf]) Hok];
      [by apply lookup_lt_Some in Hw|].
    assert (st' = st) as -> by congruence.
    destruct (Hok st w Hst Hw) as (st0 & Hst0 & Hm). rewrite Hf in Hm.
    destruct Hm as (_ & _ & fst & ? & _ & ?). by exists st0, f, fst. }
  split.
  - intros a st Hst Ha.
    destruct (Hnode a st Hst) as (st0 & f & fst & Hst0 & Hf & Hfst & Etr).
    exists st0, f, fst. do 3 (split; [done|]). rewrite Etr.
    split; [|split].
    + intros Hf0 c m Hc Hn. rewrite bool_decide_eq_false_2 by done.
      by rewrite merge_loop_get, Hn.
    + intros c m Hc. case_bool_decide.
      * by rewrite merge_loop_zero.
      * by rewrite merge_loop_get, Hc.
    + intros ->. rewrite bool_decide_eq_true_2 by done. apply merge_loop_zero.
  - intros zero zero0 Hz Hz0.
    destruct (Hnode 0 zero Hz) as (st0 & f & fst & Hst0 & Hf & Hfst & Etr).
    assert (st0 = zero0) as -> by congruence.
    destruct (linked_goto _ _ _ _ _ _ Hlk Hz (shape_root _ _ Hs))
      as (_ & f' & Hf' & Hfw).
    assert (f' = f) as -> by congruence. rewrite fail_nil in Hfw.
    assert (f = 0) as -> by by eapply shape_nil.
    rewrite Etr. rewrite bool_decide_eq_true_2 by done. apply merge_loop_zero.
Qed.

(** C8. Snapshot round trip: [__getstate__] of a finalized tree, given to
    [__setstate__] on a fresh instance, makes a tree on which every
    search yields the same matches in the same order. *)
Theorem snapshot_round_trip ci ks fuel :
  fuel_for lower ci ks ≤ fuel →
  ∃ self,
    build lower ci ks fuel = Ok self ∧
    ∀ fuel1, fuel_for lower ci ks ≤ fuel1 →
      ∃ state self',
        getstate fuel1 self = Ok state ∧
        setstate state = Ok self' ∧
        ∀ fuel' text,
          search_all lower fuel' self' text = search_all lower fuel' self text.
Proof.
  intros Hfuel.
  destruct (build_linked lower ci ks fuel Hfuel)
    as (wd & self0 & self & Hadd & Hb & _ & _ & Hbuild & Hlk & _ & Hcnt).
  exists self. split; [done|]. intros fuel1 Hfuel1.
  pose proof Hlk as (Hs & _). pose proof Hb as (_ & _ & Hu & _).
  unfold fuel_for in Hfuel1. rewrite Hadd in Hfuel1. simpl in Hfuel1.
  rewrite Hcnt in Hfuel1.
  eexists _, self. split; [by apply (getstate_spec wd self0)|].
  split; [|done]. apply setstate_spec.
  - by apply (linked_closed wd self0).
  - intros E. pose proof (shape_len _ _ Hs) as Hl. rewrite E in Hl.
    pose proof (shape_root _ _ Hs) as Hr. apply lookup_lt_Some in Hr.
    simpl in Hl. lia.
  - apply Hs.
Qed.

Lemma last_filter_same ks k :
  k ∈ ks → last (filter (λ k', id k' = id k) ks) = Some k.
Proof.
  intros Hin.
  destruct (last (filter (λ k', id k' = id k) ks)) as [k'|] eqn:E.
  - pose proof (last_Some_elem_of _ _ E) as [E' _]%list_elem_of_filter.
    unfold id in E'. by subst k'.
  - apply last_None in E. exfalso.
    assert (k ∈ filter (λ k', id k' = id k) ks) as Hk
      by (by apply list_elem_of_filter).
    rewrite E in Hk. by apply elem_of_nil in Hk.
Qed.

(** C1, amended. Completeness of [search_all] on a finalized tree: let
    [k] be the keyword that was added last among the keywords with its
    folded form, this folded form being not empty and of the length of
    [k], and let folding keep the length of the text.  Then every
    occurrence of the folded [k] in the folded text, at offset [i], lies
    within the text and is yielded exactly once by [search_all], as the
    pair [(k, i)].  In a case-sensitive tree this is every occurrence of
    every keyword that is not empty. *)
Theorem occurrences_yielded_once ci ks fuel :
  fuel_for lower ci ks ≤ fuel →
  ∃ self,
    build lower ci ks fuel = Ok self ∧
    (∀ text k i fuel',
       _counter self ≤ fuel' →
       last (filter (λ k', the_fold lower ci k' = the_fold lower ci k) ks)
         = Some k →
       the_fold lower ci k ≠ [] →
       length (the_fold lower ci k) = length k →
       length (the_fold lower ci text) = length text →
       occurs_at (the_fold lower ci k) (the_fold lower ci text) i →
       ∃ yields,
         search_all lower fuel' self text = (yields, Done) ∧
         times_yielded (k, Z.of_nat i) yields = 1 ∧
         i + length k ≤ length text) ∧
    (ci = false →
     ∀ text k i fuel',
       _counter self ≤ fuel' →
       k ∈ ks → k ≠ [] → occurs_at k text i →
       ∃ yields,
         search_all lower fuel' self text = (yields, Done) ∧
         times_yielded (k, Z.of_nat i) yields = 1).
Proof.
  intros Hfuel.
  destruct (build_linked lower ci ks fuel Hfuel)
    as (wd & self0 & self & _ & _ & _ & _ & Hbuild & _).
  exists self. split; [done|].
  assert (Hgen : ∀ text k i fuel',
    _counter self ≤ fuel' →
    last (filter (λ k', the_fold lower ci k' = the_fold lower ci k) ks)
      = Some k →
    the_fold lower ci k ≠ [] →
    length (the_fold lower ci k) = length k →
    occurs_at (the_fold lower ci k) (the_fold lower ci text) i →
    ∃ yields,
      search_all lower fuel' self text = (yields, Done) ∧
      times_yielded (k, Z.of_nat i) yields = 1).
  { intros text k i fuel' Hfuel' Hlast Hne Hlen Hocc.
    set (fold := the_fold lower ci) in *.
    eexists. split; [by apply (search_all_reference lower ci ks fuel)|].
    fold fold. apply NoDup_filter_eq.
    - apply (StronglySorted_NoDup (yielded_before fold)).
      + apply yielded_before_irrefl.
      + apply reference_search_sorted.
    - apply reference_search_elem.
      apply occurs_at_suffix in Hocc as [Hle Hsuf].
      exists (i + length (fold k)). split.
      { assert (length (fold k) ≠ 0) by (by destruct (fold k)). lia. }
      split.
      { unfold keyword_of. by rewrite decide_False. }
      split; [done|]. split; [done|]. lia. }
  split.
  - intros text k i fuel' Hfuel' Hlast Hne Hlen Htext Hocc.
    destruct (Hgen text k i fuel') as (yields & Hy & Ht); try done.
    exists yields. split; [done|]. split; [done|].
    destruct Hocc as [Hle _]. lia.
  - intros -> text k i fuel' Hfuel' Hin Hne Hocc.
    apply Hgen; try done. simpl. by apply last_filter_same.
Qed.

(** C2, amended. Order of the matches: [search_all] yields them in
    non-decreasing order of end position (start offset plus keyword
    length); of two matches with the same end position the one whose
    folded keyword is longer comes first, which is the longer keyword
    when folding keeps the length of the keywords. *)
Theorem yield_order ci ks fuel :
  fuel_for lower ci ks ≤ fuel →
  ∃ self,
    build lower ci ks fuel = Ok self ∧
    ∀ text fuel', _counter self ≤ fuel' →
      ∃ yields,
        search_all lower fuel' self text = (yields, Done) ∧
        ∀ i j m1 m2,
          i < j → yields !! i = Some m1 → yields !! j = Some m2 →
          (end_pos m1 ≤ end_pos m2)%Z ∧
          (end_pos m1 = end_pos m2 →
             length (the_fold lower ci m2.1) <
             length (the_fold lower ci m1.1)) ∧
          ((∀ k, k ∈ ks → length (the_fold lower ci k) = length k) →
             end_pos m1 = end_pos m2 → length m2.1 < length m1.1).
Proof.
  intros Hfuel.
  destruct (build_linked lower ci ks fuel Hfuel)
    as (wd & self0 & self & _ & _ & _ & _ & Hbuild & _).
  exists self. split; [done|]. intros text fuel' Hfuel'.
  set (fold := the_fold lower ci) in *.
  eexists. split; [by apply (search_all_reference lower ci ks fuel)|].
  fold fold. intros i j m1 m2 Hij H1 H2.
  pose proof (StronglySorted_lookup_lt (yielded_before fold) _ i j m1 m2
                (reference_search_sorted fold ks (fold text)) Hij H1 H2) as Hyb.
  assert (Hks : ∀ n m, reference_search fold ks (fold text) !! n = Some m →
                       m.1 ∈ ks).
  { intros n [k off] Hn. simpl.
    assert ((k, off) ∈ reference_search fold ks (fold text)) as Hin
      by (apply list_elem_of_lookup; by exists n).
    apply reference_search_elem in Hin as (e & _ & Hk & _).
    by apply keyword_of_elem in Hk as (? & _). }
  assert (Heq : end_pos m1 = end_pos m2 →
                length (fold m2.1) < length (fold m1.1)).
  { intros E. destruct Hyb as [?|[_ ?]]; [lia|done]. }
  split; [destruct Hyb as [?|[? _]]; lia|]. split; [done|].
  intros Hlen E. rewrite <-(Hlen m1.1), <-(Hlen m2.1); eauto.
Qed.

(** Soundness of the matches, when folding keeps the length of the
    keywords and of the text (as it does in a case-sensitive tree):
    a yielded [(k, off)] has [k] among the keywords, [0 ≤ off],
    [off + len(k) ≤ len(text)], and the folded [k] is what the folded
    text has from [off] on. *)
Lemma search_all_sound ci ks fuel self text fuel' :
  fuel_for lower ci ks ≤ fuel → build lower ci ks fuel = Ok self →
  _counter self ≤ fuel' →
  (∀ k, k ∈ ks → length (the_fold lower ci k) = length k) →
  length (the_fold lower ci text) = length text →
  ∃ yields,
    search_all lower fuel' self text = (yields, Done) ∧
    ∀ k off, (k, off) ∈ yields →
      k ∈ ks ∧ (0 ≤ off)%Z ∧
      (off + Z.of_nat (length k) ≤ Z.of_nat (length text))%Z ∧
      occurs_at (the_fold lower ci k) (the_fold lower ci text) (Z.to_nat off).
Proof.
  intros Hfuel Hbuild Hfuel' Hlen Htext.
  set (fold := the_fold lower ci) in *.
  eexists. split; [by apply (search_all_reference lower ci ks fuel)|].
  fold fold. intros k off (e & [He1 He2] & Hk & Hne & Hsuf & ->)%reference_search_elem.
  apply keyword_of_elem in Hk as (Hin & _ & _).
  pose proof (suffix_length _ _ Hsuf) as Hl. rewrite length_take in Hl.
  rewrite (Hlen k Hin) in Hl. rewrite Htext in He2.
  split; [done|]. split; [lia|]. split; [lia|].
  apply occurs_at_suffix. rewrite (Hlen k Hin), Htext.
  replace (Z.to_nat (Z.of_nat e - Z.of_nat (length k)) + length k) with e by lia.
  split; [lia|done].
Qed.

(** The general half of C5: what a case-insensitive tree yields is what
    the reference matcher finds for the folded keywords in the folded
    text, and each keyword it reports is one that was added, as added. *)
Lemma case_folding_general ks fuel :
  fuel_for lower true ks ≤ fuel →
  ∃ self,
    build lower true ks fuel = Ok self ∧ _case_insensitive self = true ∧
    ∀ text fuel', _counter self ≤ fuel' →
      ∃ yields,
        search_all lower fuel' self text = (yields, Done) ∧
        yields = reference_search lower ks (lower text) ∧
        ∀ k off, (k, off) ∈ yields →
          k ∈ ks ∧
          ∃ e, off = (Z.of_nat e - Z.of_nat (length k))%Z ∧
               lower k `suffix_of` take e (lower text).
Proof.
  intros Hfuel.
  destruct (build_linked lower true ks fuel Hfuel)
    as (wd & self0 & self & _ & _ & Hci & _ & Hbuild & Hlk & _).
  exists self. split; [done|]. split.
  { destruct Hlk as (_ & (_ & _ & _ & -> & _) & _). done. }
  intros text fuel' Hfuel'.
  eexists. split; [by apply (search_all_reference lower true ks fuel)|].
  split; [done|]. simpl.
  intros k off (e & _ & Hk & _ & Hsuf & ->)%reference_search_elem.
  apply keyword_of_elem in Hk as (Hin & _ & _). split; [done|]. by exists e.
Qed.
End Claims.

(** ** The claims at concrete keywords and texts *)

(** C5. Case folding, original casing kept: a case-insensitive tree yields
    what the reference matcher finds for the folded keywords in the folded
    text, and reports each keyword as it was added; with the keyword "Abc"
    the text "xxABCxx" yields ("Abc", 2). *)
Theorem case_folding_keeps_original :
  (∀ (sym : Type) (Heq : EqDecision sym) (lower : list sym → list sym)
     (ks : list (list sym)) (fuel : nat),
     fuel_for lower true ks ≤ fuel →
     ∃ self,
       build lower true ks fuel = Ok self ∧ _case_insensitive self = true ∧
       ∀ text fuel', _counter self ≤ fuel' →
         ∃ yields,
           search_all lower fuel' self text = (yields, Done) ∧
           yields = reference_search lower ks (lower text) ∧
           ∀ k off, (k, off) ∈ yields →
             k ∈ ks ∧
             ∃ e, off = (Z.of_nat e - Z.of_nat (length k))%Z ∧
                  lower k `suffix_of` take e (lower text)) ∧
  (∃ self,
     build ascii_lower true [str "Abc"] 22 = Ok self ∧
     search_all ascii_lower 22 self (str "xxABCxx") = ([(str "Abc", 2%Z)], Done)).
Proof.
  split.
  - intros sym Heq lower ks fuel. apply case_folding_general.
  - eexists. split; [vm_compute; reflexivity|]. vm_compute. reflexivity.
Qed.

Lemma case_folding_keeps_original_witness :
  fuel_for ascii_lower true [str "Abc"] ≤ 22 ∧
  ∃ self,
    build ascii_lower true [str "Abc"] 22 = Ok self ∧
    _case_insensitive self = true ∧
    ∀ text fuel', _counter self ≤ fuel' →
      ∃ yields,
        search_all ascii_lower fuel' self text = (yields, Done) ∧
        yields = reference_search ascii_lower [str "Abc"] (ascii_lower text) ∧
        ∀ k off, (k, off) ∈ yields →
          k ∈ [str "Abc"] ∧
          ∃ e, off = (Z.of_nat e - Z.of_nat (length k))%Z ∧
               ascii_lower k `suffix_of` take e (ascii_lower text).
Proof.
  split; [vm_compute; lia|].
  apply (proj1 case_folding_keeps_original). vm_compute. lia.
Defined.

(** C9. The re-implementation under-reports: for the keywords "she" and
    "he" and the text "she", [KeywordTree.search_all] yields ("she", 0) and
    then ("he", 1), and [KdTree.search_all], which looks at the reached
    state only, yields ("she", 0) alone: the shorter keyword that is a
    strict suffix of the one just matched is missing. *)
Theorem kdtree_under_reports :
  ∃ (ks : list (list ascii)) (text long short : list ascii) (i j : Z)
    (self : KeywordTree) (kd : Kd.KdTree),
    build ascii_lower false ks 44 = Ok self ∧
    kd_build ascii_lower true ks 44 = Ok kd ∧
    long ∈ ks ∧ short ∈ ks ∧ short `suffix_of` long ∧ short ≠ long ∧
    search_all ascii_lower 44 self text = ([(long, i); (short, j)], Done) ∧
    Kd.search_all ascii_lower kd text = ([(long, i)], Done).
Proof.
  exists [str "she"; str "he"], (str "she"), (str "she"), (str "he"), 0%Z, 1%Z.
  eexists _, _.
  split; [vm_compute; reflexivity|]. split; [vm_compute; reflexivity|].
  split; [by apply list_elem_of_lookup; exists 0|].
  split; [by apply list_elem_of_lookup; exists 1|].
  split; [by exists (str "s")|]. split; [done|].
  split; vm_compute; reflexivity.
Qed.

(** C10, at the input where it fails: in a case-insensitive tree the
    keyword U+0130 is found in the text U+0130, whose lower case has two
    code points, and is reported at offset 1 = 1 + 1 - len(keyword), past
    the end of the text of length 1. *)
Theorem offset_past_the_text :
  ∃ self yields,
    build unicode_lower true [[304%N]] 14 = Ok self ∧
    search_all unicode_lower 14 self [304%N] = (yields, Done) ∧
    yields = [([304%N], 1%Z)] ∧
    ∀ k off, (k, off) ∈ yields →
      ¬ (off + Z.of_nat (length k) ≤ Z.of_nat (length [304%N]))%Z.
Proof.
  eexists _, _. split; [vm_compute; reflexivity|].
  split; [vm_compute; reflexivity|]. split; [done|].
  intros k off [= -> ->]%list_elem_of_singleton. simpl. lia.
Qed.

(** C1 as it is stated fails in a case-insensitive tree on a keyword
    whose folded form is that of a keyword added later, a state holding
    one keyword: of "Abc" and "ABC", "Abc" occurs in the text "Abc" at
    offset 0, and what is yielded there is ("ABC", 0) and nothing else. *)
Lemma keyword_occurrence_not_yielded :
  ∃ self yields,
    build ascii_lower true [str "Abc"; str "ABC"] 22 = Ok self ∧
    str "Abc" ∈ [str "Abc"; str "ABC"] ∧
    occurs_at (str "Abc") (str "Abc") 0 ∧
    search_all ascii_lower 22 self (str "Abc") = (yields, Done) ∧
    yields = [(str "ABC", 0%Z)] ∧
    times_yielded (str "Abc", 0%Z) yields = 0.
Proof.
  eexists _, _. split; [vm_compute; reflexivity|].
  split; [by apply list_elem_of_lookup; exists 0|].
  split; [by split; [simpl; lia|]|].
  split; [vm_compute; reflexivity|]. split; [reflexivity|].
  vm_compute. reflexivity.
Qed.

(** C2 as it is stated fails where lower-casing makes a keyword longer:
    of the keywords U+0130 U+0130 (length 2) and U+0307 U+0069 U+0307
    (length 3), both found with end position 4 in the text U+0130 U+0130,
    the shorter one is yielded first. *)
Lemma shorter_keyword_yielded_first :
  ∃ self m1 m2,
    build unicode_lower true [[304%N; 304%N]; [775%N; 105%N; 775%N]] 74
      = Ok self ∧
    search_all unicode_lower 74 self [304%N; 304%N] = ([m1; m2], Done) ∧
    end_pos m1 = end_pos m2 ∧ length m1.1 < length m2.1.
Proof.
  eexists _, _, _. split; [vm_compute; reflexivity|].
  split; [vm_compute; reflexivity|]. split; [done|]. simpl. lia.
Qed.

Example demo_search :
  search_all ascii_lower 112 demo_tree (str "ushers") =
    ([(str "she", 1%Z); (str "he", 2%Z); (str "hers", 2%Z)], Done).
Proof. vm_compute. reflexivity. Qed.

Lemma no_search_before_finalize_witness :
  _finalized (KeywordTree_init (sym := ascii) false) = false ∧
  (search_all ascii_lower 5 (KeywordTree_init false) (str "ushers") =
     ([], Raised (ValueError msg_not_finalized)) ∧
   search_one ascii_lower 5 (KeywordTree_init false) (str "ushers") =
     Raise (ValueError msg_not_finalized) ∧
   search ascii_lower 5 (KeywordTree_init false) (str "ushers") =
     Raise (ValueError msg_not_finalized)).
Proof.
  split; [reflexivity|].
  apply (proj2 (no_search_before_finalize ascii_lower)). reflexivity.
Defined.

Lemma no_add_after_finalize_witness :
  finalize 112 demo_tree0 = (Ok (), demo_tree) ∧
  ∃ self',
    add ascii_lower (str "him") demo_tree =
      (Raise (ValueError msg_no_more_additions), self') ∧
    ∀ fuel' text,
      search_all ascii_lower fuel' self' text =
        search_all ascii_lower fuel' demo_tree text ∧
      search_one ascii_lower fuel' self' text =
        search_one ascii_lower fuel' demo_tree text.
Proof.
  split; [vm_compute; reflexivity|].
  apply (no_add_after_finalize ascii_lower 112 demo_tree0).
  vm_compute. reflexivity.
Defined.

Lemma failure_link_invariant_witness :
  fuel_for ascii_lower false demo_keywords ≤ 112 ∧
  ∃ self,
    build ascii_lower false demo_keywords 112 = Ok self ∧
    (∃ zero, heap self !! _zero_state self = Some zero ∧
             longest_strict_suffix zero = Some (_zero_state self)) ∧
    ∀ a st, heap self !! a = Some st → a ≠ _zero_state self →
      ∃ f d df,
        longest_strict_suffix st = Some f ∧ f ≠ a ∧
        depth (length (heap self)) (heap self) a = Some d ∧
        depth (length (heap self)) (heap self) f = Some df ∧
        df < d.
Proof.
  split; [vm_compute; lia|].
  apply (failure_link_invariant ascii_lower). vm_compute. lia.
Defined.

Lemma merge_step_and_root_witness :
  fuel_for ascii_lower false demo_keywords ≤ 112 ∧
  ∃ self0 self,
    added ascii_lower false demo_keywords = (Ok (), self0) ∧
    finalize 112 self0 = (Ok (), self) ∧
    (∀ a st, heap self !! a = Some st → a ≠ _zero_state self →
       ∃ st0 f fst,
         heap self0 !! a = Some st0 ∧
         longest_strict_suffix st = Some f ∧ heap self !! f = Some fst ∧
         (f ≠ _zero_state self →
            ∀ c m, dict_get c (transitions fst) = Some m →
                   dict_get c (transitions st0) = None →
                   dict_get c (transitions st) = Some m) ∧
         (∀ c m, dict_get c (transitions st0) = Some m →
                 dict_get c (transitions st) = Some m) ∧
         (f = _zero_state self → transitions st = transitions st0)) ∧
    (∀ zero zero0,
       heap self !! _zero_state self = Some zero →
       heap self0 !! _zero_state self = Some zero0 →
       transitions zero = transitions zero0).
Proof.
  split; [vm_compute; lia|].
  apply (merge_step_and_root ascii_lower). vm_compute. lia.
Defined.

Lemma snapshot_round_trip_witness :
  fuel_for ascii_lower false demo_keywords ≤ 112 ∧
  ∃ self,
    build ascii_lower false demo_keywords 112 = Ok self ∧
    ∀ fuel1, fuel_for ascii_lower false demo_keywords ≤ fuel1 →
      ∃ state self',
        getstate fuel1 self = Ok state ∧
        setstate state = Ok self' ∧
        ∀ fuel' text,
          search_all ascii_lower fuel' self' text =
            search_all ascii_lower fuel' self text.
Proof.
  split; [vm_compute; lia|].
  apply (snapshot_round_trip ascii_lower). vm_compute. lia.
Defined.

Lemma occurrences_yielded_once_witness :
  fuel_for ascii_lower true [str "Abc"; str "ABC"] ≤ 22 ∧
  ∃ self yields,
    build ascii_lower true [str "Abc"; str "ABC"] 22 = Ok self ∧
    last (filter (λ k', the_fold ascii_lower true k'
                        = the_fold ascii_lower true (str "ABC"))
            [str "Abc"; str "ABC"]) = Some (str "ABC") ∧
    occurs_at (the_fold ascii_lower true (str "ABC"))
      (the_fold ascii_lower true (str "xabcxABC")) 1 ∧
    search_all ascii_lower 22 self (str "xabcxABC") = (yields, Done) ∧
    times_yielded (str "ABC", 1%Z) yields = 1 ∧
    1 + length (str "ABC") ≤ length (str "xabcxABC").
Proof.
  split; [vm_compute; lia|].
  destruct (occurrences_yielded_once ascii_lower true
              [str "Abc"; str "ABC"] 22)
    as (self & Hb & H & _); [vm_compute; lia|].
  assert (Hlast : last (filter (λ k', the_fold ascii_lower true k'
                                      = the_fold ascii_lower true (str "ABC"))
                          [str "Abc"; str "ABC"]) = Some (str "ABC"))
    by (vm_compute; reflexivity).
  assert (Hocc : occurs_at (the_fold ascii_lower true (str "ABC"))
                   (the_fold ascii_lower true (str "xabcxABC")) 1)
    by (split; [simpl; lia|reflexivity]).
  destruct (H (str "xabcxABC") (str "ABC") 1 22) as (yields & Hy & Ht & Hl).
  - vm_compute in Hb. injection Hb as <-. vm_compute. lia.
  - exact Hlast.
  - discriminate.
  - reflexivity.
  - reflexivity.
  - exact Hocc.
  - exists self, yields. split; [exact Hb|]. split; [exact Hlast|].
    split; [exact Hocc|]. split; [exact Hy|]. split; [exact Ht|exact Hl].
Defined.

Lemma yield_order_witness :
  fuel_for ascii_lower false demo_keywords ≤ 112 ∧
  ∃ self yields,
    build ascii_lower false demo_keywords 112 = Ok self ∧
    search_all ascii_lower 112 self (str "ushers") = (yields, Done) ∧
    yields !! 0 = Some (str "she", 1%Z) ∧ yields !! 1 = Some (str "he", 2%Z) ∧
    (end_pos (str "she", 1%Z) ≤ end_pos (str "he", 2%Z))%Z ∧
    (end_pos (str "she", 1%Z) = end_pos (str "he", 2%Z) →
     length (str "he") < length (str "she")).
Proof.
  split; [vm_compute; lia|].
  destruct (yield_order ascii_lower false demo_keywords 112)
    as (self & Hb & H); [vm_compute; lia|].
  destruct (H (str "ushers") 112) as (yields & Hy & Ho).
  { vm_compute in Hb. injection Hb as <-. vm_compute. lia. }
  assert (Hys : yields = [(str "she", 1%Z); (str "he", 2%Z); (str "hers", 2%Z)]).
  { vm_compute in Hb. injection Hb as <-. vm_compute in Hy. by injection Hy. }
  assert (H0 : yields !! 0 = Some (str "she", 1%Z)) by (by rewrite Hys).
  assert (H1 : yields !! 1 = Some (str "he", 2%Z)) by (by rewrite Hys).
  destruct (Ho 0 1 _ _ ltac:(lia) H0 H1) as (Hle & _ & Hlen).
  exists self, yields. split; [exact Hb|]. split; [exact Hy|].
  split; [exact H0|]. split; [exact H1|]. split; [exact Hle|].
  apply Hlen. intros k _. reflexivity.
Defined.

Section Extras.
Context {sym : Type} `{EqDecision sym}.
Variable lower : list sym → list sym.
Implicit Types (self : @KeywordTree sym) (st : @State sym)
  (wd : list (list sym)) (ks : list (list sym)) (k text w : list sym).

Lemma keyword_of_some fold ks k :
  k ∈ ks → fold k ≠ [] →
  ∃ k', keyword_of fold ks (fold k) = Some k' ∧ k' ∈ ks ∧ fold k' = fold k.
Proof.
  intros Hin Hne. unfold keyword_of. rewrite decide_False by done.
  destruct (last (filter (λ k0, fold k0 = fold k) ks)) as [k'|] eqn:E.
  - exists k'. split; [done|].
    pose proof (last_Some_elem_of _ _ E) as [E' Hin']%list_elem_of_filter.
    done.
  - apply last_None in E.
    assert (k ∈ filter (λ k0, fold k0 = fold k) ks) as Hk
      by by apply list_elem_of_filter.
    rewrite E in Hk. by apply elem_of_nil in Hk.
Qed.

(** X1. What [search_all] yields are occurrences: on a finalized tree
    [search_all] comes to its end, and every pair [(k, off)] it yields
    has [k] among the keywords that were added, with a folded form that
    is not empty and that ends at the position [off + len(k)] of the
    folded text, a position in 1 .. length of the folded text.  When
    folding keeps the length of [k] (as in every case-sensitive tree),
    [off] is not negative, [off + len(k)] is within the folded text, and
    the folded [k] occurs in the folded text at [off]. *)
Theorem yields_are_occurrences ci ks fuel :
  fuel_for lower ci ks ≤ fuel →
  ∃ self,
    build lower ci ks fuel = Ok self ∧
    ∀ text fuel', _counter self ≤ fuel' →
      ∃ yields,
        search_all lower fuel' self text = (yields, Done) ∧
        ∀ k off, (k, off) ∈ yields →
          k ∈ ks ∧ the_fold lower ci k ≠ [] ∧
          (∃ e, 1 ≤ e ≤ length (the_fold lower ci text) ∧
                off = (Z.of_nat e - Z.of_nat (length k))%Z ∧
                the_fold lower ci k `suffix_of`
                  take e (the_fold lower ci text)) ∧
          (length (the_fold lower ci k) = length k →
             (0 ≤ off)%Z ∧
             (off + Z.of_nat (length k)
                ≤ Z.of_nat (length (the_fold lower ci text)))%Z ∧
             occurs_at (the_fold lower ci k) (the_fold lower ci text)
               (Z.to_nat off)).
Proof.
  intros Hfuel.
  destruct (build_linked lower ci ks fuel Hfuel)
    as (wd & self0 & self & _ & _ & _ & _ & Hbuild & _).
  exists self. split; [done|]. intros text fuel' Hfuel'.
  set (fold := the_fold lower ci) in *.
  eexists. split; [by apply (search_all_reference lower ci ks fuel)|].
  fold fold.
  intros k off (e & [He1 He2] & Hk & Hne & Hsuf & ->)%reference_search_elem.
  apply keyword_of_elem in Hk as (Hin & _ & _).
  split; [done|]. split; [done|]. split; [by exists e|].
  intros Hlen. pose proof (suffix_length _ _ Hsuf) as Hl.
  rewrite length_take, Hlen in Hl.
  split; [lia|]. split; [lia|].
  apply occurs_at_suffix. rewrite Hlen.
  replace (Z.to_nat (Z.of_nat e - Z.of_nat (length k)) + length k)
    with e by lia.
  split; [lia|done].
Qed.

(** X2. [search_one], and its alias [search], on a finalized tree: they
    return the first match that [search_all] yields, which is one with
    the least end position, and [None] exactly when no keyword with a
    non-empty folded form occurs in the folded text; they never raise. *)
Theorem search_one_first_match ci ks fuel :
  fuel_for lower ci ks ≤ fuel →
  ∃ self,
    build lower ci ks fuel = Ok self ∧
    ∀ text fuel', _counter self ≤ fuel' →
      ∃ yields,
        search_all lower fuel' self text = (yields, Done) ∧
        search_one lower fuel' self text = Ok (head yields) ∧
        search lower fuel' self text = Ok (head yields) ∧
        (head yields = None ↔
           ∀ k i, k ∈ ks → the_fold lower ci k ≠ [] →
             ¬ occurs_at (the_fold lower ci k) (the_fold lower ci text) i) ∧
        ∀ m m', head yields = Some m → m' ∈ yields →
          (end_pos m ≤ end_pos m')%Z.
Proof.
  intros Hfuel.
  destruct (build_linked lower ci ks fuel Hfuel)
    as (wd & self0 & self & _ & _ & _ & _ & Hbuild & _).
  exists self. split; [done|]. intros text fuel' Hfuel'.
  set (fold := the_fold lower ci) in *.
  pose proof (search_all_reference lower ci ks fuel self text fuel'
                Hfuel Hbuild Hfuel') as E. fold fold in E.
  pose proof (reference_search_sorted fold ks (fold text)) as Hsorted.
  pose proof (reference_search_elem fold ks (fold text)) as Helem.
  destruct (reference_search fold ks (fold text)) as [|m ys] eqn:El.
  - exists []. split; [done|]. unfold search, search_one. rewrite E.
    split; [done|]. split; [done|]. split; [|done].
    split; [|done]. intros _ k i Hin Hne Hocc.
    destruct (keyword_of_some fold ks k Hin Hne) as (k' & Hk' & _ & Hf).
    apply occurs_at_suffix in Hocc as [Hle Hsuf].
    assert ((k', (Z.of_nat (i + length (fold k)) - Z.of_nat (length k'))%Z)
              ∈ @nil (list sym * Z)) as Hnil; [|by apply elem_of_nil in Hnil].
    apply Helem. exists (i + length (fold k)). rewrite Hf.
    split; [|done].
    destruct (fold k); [done|]. simpl in *. lia.
  - exists (m :: ys). split; [done|]. unfold search, search_one. rewrite E.
    split; [done|]. split; [done|]. split.
    + split; [done|]. intros Hno. exfalso. destruct m as [k off].
      destruct (proj1 (Helem k off)) as (e & [He1 He2] & Hk & Hne & Hsuf & _);
        [by left|].
      apply keyword_of_elem in Hk as (Hin & _ & _).
      pose proof (suffix_length _ _ Hsuf) as Hl. rewrite length_take in Hl.
      apply (Hno k (e - length (fold k)) Hin Hne).
      apply occurs_at_suffix.
      replace (e - length (fold k) + length (fold k)) with e by lia.
      split; [lia|done].
    + intros m0 m' [= <-] [->|Hin]%elem_of_cons; [lia|].
      apply StronglySorted_inv in Hsorted as [_ Hall].
      rewrite Forall_forall in Hall. destruct (Hall m' Hin) as [?|[? _]]; lia.
Qed.

Lemma add_empty_fold ks wd self k :
  built lower ks wd self →
  the_fold lower (_case_insensitive self) k = [] →
  add lower k self = (Ok (), self).
Proof.
  intros (_ & _ & _ & Hf) Hk. unfold add. rewrite Hf.
  unfold the_fold in Hk. destruct (_case_insensitive self); simpl in *;
    by rewrite Hk.
Qed.

Lemma add_all_filter ks : ∀ ks1 wd self,
  built lower ks1 wd self →
  add_all lower ks self =
  add_all lower
    (filter (λ k, the_fold lower (_case_insensitive self) k ≠ []) ks) self.
Proof.
  induction ks as [|k ks IH]; intros ks1 wd self Hb; [done|].
  destruct (add_spec lower ks1 wd self k Hb) as (wd1 & self1 & E & Hb1 & Hci).
  rewrite filter_cons. case_decide as Hk.
  - simpl. rewrite E. rewrite (IH _ _ _ Hb1). by rewrite Hci.
  - simpl.
    rewrite (add_empty_fold ks1 wd self k Hb Hk).
    by apply (IH ks1 wd).
Qed.

(** X4. Keywords whose folded form is empty are ignored: the tree of
    [ks] is the tree of the keywords of [ks] that are not empty once
    folded. *)
Theorem empty_keywords_ignored ci ks :
  added lower ci ks =
  added lower ci (filter (λ k, the_fold lower ci k ≠ []) ks).
Proof.
  unfold added.
  by rewrite (add_all_filter ks [] [[]] _ (init_built lower ci)).
Qed.

Lemma keyword_of_id ks w :
  keyword_of id ks w = if decide (w ≠ [] ∧ w ∈ ks) then Some w else None.
Proof.
  unfold keyword_of. destruct (decide (w = [])) as [->|Hne].
  { rewrite decide_False; [done|]. by intros [? _]. }
  destruct (last (filter (λ k, id k = w) ks)) as [k|] eqn:E.
  - pose proof (last_Some_elem_of _ _ E) as [E' Hin]%list_elem_of_filter.
    simpl in E'. subst k. by rewrite decide_True.
  - apply last_None in E. rewrite decide_False; [done|].
    intros [_ Hin].
    assert (w ∈ filter (λ k, id k = w) ks) as Hk
      by by apply list_elem_of_filter.
    rewrite E in Hk. by apply elem_of_nil in Hk.
Qed.

Lemma reference_search_id_ext ks ks' text :
  (∀ k, k ∈ ks ↔ k ∈ ks') →
  reference_search id ks text = reference_search id ks' text.
Proof.
  intros Hks. unfold reference_search. apply flat_map_ext. intros i.
  unfold matches_ending. apply flat_map_ext. intros u.
  rewrite !keyword_of_id.
  destruct (decide (u ≠ [] ∧ u ∈ ks)) as [[? ?]|Hn].
  - rewrite decide_True; [done|]. split; [done|]. by apply Hks.
  - rewrite decide_False; [done|]. intros [? ?]. apply Hn.
    split; [done|]. by apply Hks.
Qed.

(** X5. In a case-sensitive tree the matches depend on the set of the
    keywords only: neither the order in which they were added nor a
    keyword added twice changes what [search_all] yields. *)
Theorem keyword_order_irrelevant ks ks' fuel fuel2 :
  (∀ k, k ∈ ks ↔ k ∈ ks') →
  fuel_for lower false ks ≤ fuel → fuel_for lower false ks' ≤ fuel2 →
  ∃ self self',
    build lower false ks fuel = Ok self ∧
    build lower false ks' fuel2 = Ok self' ∧
    ∀ text f f', _counter self ≤ f → _counter self' ≤ f' →
      search_all lower f self text = search_all lower f' self' text.
Proof.
  intros Hks Hfuel Hfuel2.
  destruct (build_linked lower false ks fuel Hfuel)
    as (wd & self0 & self & _ & _ & _ & _ & Hbuild & _).
  destruct (build_linked lower false ks' fuel2 Hfuel2)
    as (wd' & self0' & self' & _ & _ & _ & _ & Hbuild' & _).
  exists self, self'. split; [done|]. split; [done|].
  intros text f f' Hf Hf'.
  rewrite (search_all_reference lower false ks fuel self text f) by done.
  rewrite (search_all_reference lower false ks' fuel2 self' text f') by done.
  simpl. by rewrite (reference_search_id_ext ks ks').
Qed.
End Extras.

Section Trie.
Context {sym : Type} `{EqDecision sym}.
Variable lower : list sym → list sym.
Implicit Types (self : @KeywordTree sym) (st : @State sym)
  (wd : list (list sym)) (ks : list (list sym)) (k text w : list sym)
  (fold : list sym → list sym).

Lemma word_of_spec wd self :
  shape wd self →
  ∀ fuel a w, wd !! a = Some w → length w < fuel →
  word_of fuel (heap self) a = Some w.
Proof.
  intros Hs. induction fuel as [|fuel IH]; intros a w Ha Hfuel; [lia|].
  simpl. destruct (shape_state _ _ _ _ Hs Ha) as [st Hst]. rewrite Hst.
  destruct (decide (a = 0)) as [->|Hne].
  - destruct (shape_root_state _ _ Hs st Hst) as [-> _].
    pose proof (shape_root _ _ Hs). by assert (w = []) as -> by congruence.
  - destruct (shape_parent _ _ Hs a st w Hst Ha Hne)
      as (x & c & p & -> & Hp & -> & ->).
    rewrite length_app in Hfuel. simpl in Hfuel.
    rewrite (IH p x Hp) by lia. done.
Qed.

Lemma word_of_wd wd self a :
  shape wd self → word_of (length (heap self)) (heap self) a = wd !! a.
Proof.
  intros Hs. destruct (wd !! a) as [w|] eqn:Ha.
  - apply (word_of_spec wd); [done..|].
    rewrite (shape_len _ _ Hs). by eapply depth_bound.
  - apply lookup_ge_None in Ha. rewrite <-(shape_len _ _ Hs) in Ha.
    destruct (length (heap self)) as [|n] eqn:El; [done|]. simpl.
    rewrite (proj2 (lookup_ge_None (heap self) a)); [done|lia].
Qed.

Lemma elem_of_prefixes w v : w ∈ prefixes v ↔ w `prefix_of` v.
Proof.
  unfold prefixes. rewrite list_elem_of_fmap. split.
  - intros (i & -> & _). apply prefix_take.
  - intros [z ->]. exists (length w). split.
    + by rewrite take_app_length.
    + apply elem_of_seq. rewrite length_app. lia.
Qed.

Lemma elem_of_flat_map {A B} (f : A → list B) (l : list A) (y : B) :
  y ∈ flat_map f l ↔ ∃ x, x ∈ l ∧ y ∈ f x.
Proof.
  induction l as [|a l IH]; simpl.
  - split; [by intros ?%elem_of_nil|by intros (? & ?%elem_of_nil & _)].
  - rewrite elem_of_app, IH. split.
    + intros [?|(x & ? & ?)]; [exists a|exists x]; split; try done.
      * by left.
      * by right.
    + intros (x & [->|?]%elem_of_cons & ?); [by left|right; by exists x].
Qed.

Lemma add_loop_covered fold ks kw : ∀ self wd cur x,
  shape wd self → marks fold ks wd self → unlinked wd self →
  wd !! cur = Some x →
  ∃ wd' a self',
    add_loop kw cur self = (Ok a, self') ∧
    shape wd' self' ∧ marks fold ks wd' self' ∧ unlinked wd' self' ∧
    wd' !! a = Some (x ++ kw) ∧
    _finalized self' = _finalized self ∧
    _case_insensitive self' = _case_insensitive self ∧
    ∀ w, w ∈ wd' → w ∈ wd ∨ w `prefix_of` x ++ kw.
Proof.
  induction kw as [|char kw IH]; intros self wd cur x Hs Hm Hu Hx; simpl.
  - exists wd, cur, self. rewrite app_nil_r. naive_solver.
  - destruct (shape_state _ _ _ _ Hs Hx) as [curst Hcur]. rewrite Hcur.
    destruct (dict_get char (transitions curst)) as [nxt|] eqn:Hget.
    + destruct (Hu cur curst x Hcur Hx) as [_ [_ Ht]]. apply Ht in Hget.
      destruct (IH self wd nxt (x ++ [char]) Hs Hm Hu Hget)
        as (wd' & a & self' & E & ?). rewrite <-app_assoc in *.
      by exists wd', a, self'.
    + destruct (add_node_inv fold ks wd self cur x char curst)
        as (Hs' & Hm' & Hu' & Hn'); try done.
      destruct (IH _ _ _ _ Hs' Hm' Hu' Hn')
        as (wd' & a & self' & E & ? & ? & ? & ? & ? & ? & Hcov).
      rewrite <-app_assoc in *.
      exists wd', a, self'. rewrite E.
      do 7 (split; [done|]). intros w Hw.
      destruct (Hcov w Hw) as [[Hin|Hin%list_elem_of_singleton]%elem_of_app|Hp].
      * by left.
      * right. subst w. by apply prefix_app, prefix_cons, prefix_nil.
      * by right.
Qed.

Lemma add_covered ks wd self k :
  built lower ks wd self →
  (∀ w, w ∈ wd → w = [] ∨
     ∃ k', k' ∈ ks ∧ w `prefix_of` the_fold lower (_case_insensitive self) k') →
  ∃ wd' self',
    add lower k self = (Ok (), self') ∧
    built lower (ks ++ [k]) wd' self' ∧
    _case_insensitive self' = _case_insensitive self ∧
    ∀ w, w ∈ wd' → w = [] ∨
      ∃ k', k' ∈ ks ++ [k] ∧
            w `prefix_of` the_fold lower (_case_insensitive self) k'.
Proof.
  intros Hb Hcov.
  assert (Hcov' : ∀ w, w ∈ wd → w = [] ∨
    ∃ k', k' ∈ ks ++ [k] ∧
          w `prefix_of` the_fold lower (_case_insensitive self) k').
  { intros w Hw. destruct (Hcov w Hw) as [?|(k' & ? & ?)]; [by left|].
    right. exists k'. split; [|done]. apply elem_of_app. by left. }
  destruct (decide (the_fold lower (_case_insensitive self) k = []))
    as [Hk|Hk].
  - destruct (add_spec lower ks wd self k Hb) as (wd1 & self1 & E & Hb1 & Hci).
    rewrite (add_empty_fold lower ks wd self k Hb Hk) in E.
    injection E as <-.
    rewrite (add_empty_fold lower ks wd self k Hb Hk).
    exists wd, self. split; [done|]. split; [|done].
    destruct Hb as (Hs & Hm & Hu & Hf). split; [done|]. split; [|done].
    destruct Hm as [Hm1 Hm2]. split.
    + intros a st w Hst Hw. rewrite keyword_of_snoc.
      rewrite decide_False; [by apply (Hm1 _ _ _ Hst Hw)|].
      intros [E' Hne]. congruence.
    + intros k' [Hk'|Hk'%list_elem_of_singleton]%elem_of_app;
        [by apply Hm2|].
      subst k'. rewrite Hk. by eapply shape_nil_in.
  - destruct Hb as (Hs & Hm & Hu & Hf). unfold add. rewrite Hf.
    set (fold := the_fold lower (_case_insensitive self)) in *.
    assert (Hfold : (if _case_insensitive self then lower k else k) = fold k).
    { unfold fold, the_fold. by destruct (_case_insensitive self). }
    rewrite Hfold. rewrite decide_False.
    2:{ destruct (fold k); [done|simpl; lia]. }
    destruct (add_loop_covered fold ks (fold k) self wd 0 [] Hs Hm Hu)
      as (wd' & a & self1 & E & Hs' & Hm' & Hu' & Ha & Hf' & Hci & Hc).
    { apply Hs. }
    rewrite (shape_zero _ _ Hs). rewrite E. simpl in Ha.
    destruct (shape_state _ _ _ _ Hs' Ha) as [st Hst].
    destruct (set_match_inv fold ks wd' self1 a k st) as (? & ? & ?);
      try done.
    exists wd'. eexists. split; [done|]. split.
    { unfold built. unfold mutate at 2 3. simpl. rewrite Hci, Hf'. done. }
    split; [done|]. intros w Hw. destruct (Hc w Hw) as [Hin|Hp].
    + by apply Hcov'.
    + right. exists k. split; [|done].
      apply elem_of_app. right. by apply list_elem_of_singleton.
Qed.

Lemma add_all_covered ks2 : ∀ ks1 wd self,
  built lower ks1 wd self →
  (∀ w, w ∈ wd → w = [] ∨
     ∃ k', k' ∈ ks1 ∧
           w `prefix_of` the_fold lower (_case_insensitive self) k') →
  ∃ wd' self',
    add_all lower ks2 self = (Ok (), self') ∧
    built lower (ks1 ++ ks2) wd' self' ∧
    _case_insensitive self' = _case_insensitive self ∧
    ∀ w, w ∈ wd' → w = [] ∨
      ∃ k', k' ∈ ks1 ++ ks2 ∧
            w `prefix_of` the_fold lower (_case_insensitive self) k'.
Proof.
  induction ks2 as [|k ks2 IH]; intros ks1 wd self Hb Hcov; simpl.
  - exists wd, self. by rewrite app_nil_r.
  - destruct (add_covered ks1 wd self k Hb Hcov)
      as (wd1 & self1 & E & Hb1 & Hci & Hcov1).
    rewrite E. rewrite <-Hci in Hcov1.
    destruct (IH _ _ _ Hb1 Hcov1) as (wd' & self' & E' & Hb' & Hci' & Hcov').
    exists wd', self'. rewrite <-app_assoc in Hb', Hcov'. simpl in *.
    split; [done|]. split; [done|]. split; [congruence|].
    by rewrite <-Hci.
Qed.

Lemma added_covered ci ks :
  ∃ wd self,
    added lower ci ks = (Ok (), self) ∧
    built lower ks wd self ∧ _case_insensitive self = ci ∧
    ∀ w, w ∈ wd ↔
      w = [] ∨ ∃ k, k ∈ ks ∧ w `prefix_of` the_fold lower ci k.
Proof.
  destruct (add_all_covered ks [] [[]] _ (init_built lower ci))
    as (wd & self & E & Hb & Hci & Hcov).
  { intros w ->%list_elem_of_singleton. by left. }
  simpl in *. exists wd, self. split; [done|]. split; [done|].
  split; [done|]. intros w. split; [apply Hcov|].
  destruct Hb as (Hs & [_ Hm] & _). rewrite Hci in Hm.
  intros [->|(k & Hk & [z Hz])]; [by eapply shape_nil_in|].
  pose proof (prefix_closed_take wd _ (length w)
                (shape_prefix_closed _ _ Hs) (Hm k Hk)) as Hin.
  by rewrite Hz, take_app_length in Hin.
Qed.
(** X6. The tree that [add] builds: the states are numbered by their
    position from 0 up to [_counter], the root has neither parent nor
    symbol, every other state is the child, on its symbol, of its
    parent, and every transition leads to such a child. *)
Theorem trie_structure ci ks :
  ∃ self,
    added lower ci ks = (Ok (), self) ∧
    _zero_state self = 0 ∧ _counter self = length (heap self) ∧
    _case_insensitive self = ci ∧ _finalized self = false ∧
    (∃ zero, heap self !! 0 = Some zero ∧
             parent zero = None ∧ symbol zero = None) ∧
    (∀ a st, heap self !! a = Some st →
       identifier st = a ∧ longest_strict_suffix st = None ∧
       NoDup (transitions st).*1) ∧
    (∀ a st, heap self !! a = Some st → a ≠ 0 →
       ∃ p c pst, parent st = Some p ∧ symbol st = Some c ∧ p ≠ a ∧
                  heap self !! p = Some pst ∧
                  dict_get c (transitions pst) = Some a) ∧
    (∀ p pst c a, heap self !! p = Some pst →
       dict_get c (transitions pst) = Some a →
       a ≠ 0 ∧ ∃ st, heap self !! a = Some st ∧
                     parent st = Some p ∧ symbol st = Some c).
Proof.
  destruct (add_all_init lower ci ks) as (wd & self & E & Hb & Hci).
  exists self. split; [done|]. destruct Hb as (Hs & Hm & Hu & Hf).
  split; [apply Hs|].
  split; [by rewrite (shape_counter _ _ Hs), (shape_len _ _ Hs)|].
  split; [done|]. split; [done|]. split; [|split; [|split]].
  - destruct (shape_state _ _ _ _ Hs (shape_root _ _ Hs)) as [zero Hz].
    exists zero. split; [done|]. by apply (shape_root_state _ _ Hs).
  - intros a st Hst. destruct (shape_word _ _ _ _ Hs Hst) as [w Hw].
    destruct (Hu a st w Hst Hw) as (Hl & Hk & _).
    split; [by apply (shape_id _ _ Hs)|done].
  - intros a st Hst Hne. destruct (shape_word _ _ _ _ Hs Hst) as [w Hw].
    destruct (shape_parent _ _ Hs a st w Hst Hw Hne)
      as (x & c & p & -> & Hp & Hpar & Hsym).
    destruct (shape_state _ _ _ _ Hs Hp) as [pst Hpst].
    exists p, c, pst. split; [done|]. split; [done|]. split.
    + intros ->. assert (x ++ [c] = x) as Hx by congruence.
      apply (f_equal length) in Hx. rewrite length_app in Hx. simpl in Hx.
      lia.
    + split; [done|]. destruct (Hu p pst x Hpst Hp) as (_ & _ & Ht).
      by apply Ht.
  - intros p pst c a Hpst Hget.
    destruct (shape_word _ _ _ _ Hs Hpst) as [x Hx].
    destruct (Hu p pst x Hpst Hx) as (_ & _ & Ht). apply Ht in Hget.
    assert (a ≠ 0) as Hne.
    { intros ->. pose proof (shape_root _ _ Hs) as Hr.
      assert (x ++ [c] = []) as Hnil by congruence.
      by apply app_nil in Hnil as [_ ?]. }
    split; [done|]. destruct (shape_state _ _ _ _ Hs Hget) as [st Hst].
    exists st. split; [done|].
    destruct (shape_parent _ _ Hs a st _ Hst Hget Hne)
      as (x' & c' & p' & Heq & Hp' & Hpar & Hsym).
    apply app_inj_tail in Heq as [<- <-].
    by rewrite (shape_inj _ _ _ _ _ Hs Hx Hp').
Qed.

(** X7. One state for each prefix: in the tree that [add] builds, the
    words that lead from the root to the states are, without repetition,
    the empty word and the prefixes of the folded keywords; so [_counter]
    is the number of these words; and a state is marked as a match when
    its word is not empty and is a folded keyword, the keyword it holds
    being the one among them that was added last. *)
Theorem states_are_prefixes ci ks :
  ∃ self,
    added lower ci ks = (Ok (), self) ∧
    (∀ a, a < length (heap self) →
       is_Some (word_of (length (heap self)) (heap self) a)) ∧
    (∀ a b w, word_of (length (heap self)) (heap self) a = Some w →
              word_of (length (heap self)) (heap self) b = Some w → a = b) ∧
    (∀ w, (∃ a, word_of (length (heap self)) (heap self) a = Some w) ↔
          w = [] ∨ ∃ k, k ∈ ks ∧ w `prefix_of` the_fold lower ci k) ∧
    _counter self =
      length (remove_dups
                ([] :: flat_map (λ k, prefixes (the_fold lower ci k)) ks)) ∧
    (∀ a st w, heap self !! a = Some st →
       word_of (length (heap self)) (heap self) a = Some w →
       (success st = true ↔
          w ≠ [] ∧ ∃ k, k ∈ ks ∧ the_fold lower ci k = w) ∧
       matched_keyword st = keyword_of (the_fold lower ci) ks w).
Proof.
  destruct (added_covered ci ks) as (wd & self & E & Hb & Hci & Hcov).
  exists self. split; [done|]. destruct Hb as (Hs & Hm & Hu & Hf).
  rewrite Hci in Hm. set (fold := the_fold lower ci) in *.
  split; [|split; [|split; [|split]]].
  - intros a Ha. rewrite (word_of_wd wd) by done.
    apply lookup_lt_is_Some. by rewrite <-(shape_len _ _ Hs).
  - intros a b w. rewrite !(word_of_wd wd) by done.
    by apply (shape_inj wd self).
  - intros w. rewrite <-Hcov. rewrite list_elem_of_lookup.
    split; intros [a Ha]; exists a; by rewrite ?(word_of_wd wd) in *.
  - rewrite (shape_counter _ _ Hs). apply Permutation_length.
    apply NoDup_Permutation; [apply Hs|apply NoDup_remove_dups|].
    intros w. rewrite elem_of_remove_dups, elem_of_cons, Hcov.
    split; (intros [->|Hw]; [by left|right]).
    + destruct Hw as (k & Hk & Hp). apply elem_of_flat_map.
      exists k. split; [done|]. by apply elem_of_prefixes.
    + apply elem_of_flat_map in Hw as (k & Hk & Hp).
      exists k. split; [done|]. by apply elem_of_prefixes.
  - intros a st w Hst. rewrite (word_of_wd wd) by done. intros Hw.
    destruct Hm as [Hm1 _]. destruct (Hm1 a st w Hst Hw) as [Hk Hsucc].
    split; [|done]. rewrite Hsucc. split.
    + intros [k Hk']. apply keyword_of_elem in Hk' as (? & ? & ?).
      split; [done|]. by exists k.
    + intros (Hne & k & Hin & <-).
      destruct (keyword_of_some fold ks k Hin Hne) as (k' & -> & _).
      by eexists.
Qed.
End Trie.

Section Automaton.
Context {sym : Type} `{EqDecision sym}.
Variable lower : list sym → list sym.
Implicit Types (self : @KeywordTree sym) (st : @State sym)
  (wd : list (list sym)) (ks : list (list sym)) (k text w u v : list sym).

(** X8. The failure link is the longest strict suffix in the tree: after
    [finalize], [longest_strict_suffix] of a state leads to the state
    whose word is a suffix of the word of the state, a strict one unless
    the state is the root, and the longest one among the words of the
    states. *)
Theorem failure_is_longest_suffix ci ks fuel :
  fuel_for lower ci ks ≤ fuel →
  ∃ self,
    build lower ci ks fuel = Ok self ∧
    ∀ a st w, heap self !! a = Some st →
      word_of (length (heap self)) (heap self) a = Some w →
      ∃ f u,
        longest_strict_suffix st = Some f ∧
        word_of (length (heap self)) (heap self) f = Some u ∧
        u `suffix_of` w ∧ (w ≠ [] → length u < length w) ∧
        ∀ b v, word_of (length (heap self)) (heap self) b = Some v →
          v `suffix_of` w → v ≠ w → v `suffix_of` u.
Proof.
  intros Hfuel.
  destruct (build_linked lower ci ks fuel Hfuel)
    as (wd & self0 & self & _ & _ & _ & _ & Hbuild & Hlk & _ & _).
  exists self. split; [done|]. pose proof Hlk as (Hs & _).
  intros a st w Hst. rewrite (word_of_wd wd) by done. intros Hw.
  destruct (linked_goto _ _ _ _ _ _ Hlk Hst Hw) as (_ & f & Hf & Hfw).
  exists f, (fail wd w). split; [done|].
  split; [by rewrite (word_of_wd wd)|].
  split; [apply fail_suffix|]. split; [apply fail_length|].
  intros b v. rewrite (word_of_wd wd) by done. intros Hv Hsuf Hne.
  apply fail_max; [done..|]. apply list_elem_of_lookup. by exists b.
Qed.

(** X9. The transitions after [finalize] are those of the automaton: from
    the state of the word [w], the state that [search_all] goes to on
    the symbol [c] is the state of the longest suffix of [w ++ [c]] that
    is the word of a state. *)
Theorem next_state_is_longest_suffix ci ks fuel :
  fuel_for lower ci ks ≤ fuel →
  ∃ self,
    build lower ci ks fuel = Ok self ∧
    ∀ a w c, word_of (length (heap self)) (heap self) a = Some w →
      ∃ b u,
        next_state self a c = Some b ∧
        word_of (length (heap self)) (heap self) b = Some u ∧
        u `suffix_of` w ++ [c] ∧
        ∀ b' v, word_of (length (heap self)) (heap self) b' = Some v →
          v `suffix_of` w ++ [c] → v `suffix_of` u.
Proof.
  intros Hfuel.
  destruct (build_linked lower ci ks fuel Hfuel)
    as (wd & self0 & self & _ & _ & _ & _ & Hbuild & Hlk & _ & _).
  exists self. split; [done|]. pose proof Hlk as (Hs & _).
  intros a w c. rewrite (word_of_wd wd) by done. intros Hw.
  destruct (shape_state _ _ _ _ Hs Hw) as [cur Hcur].
  destruct (shape_state _ _ _ _ Hs (shape_root _ _ Hs)) as [zero Hzero].
  assert (w ∈ wd) as Hin by (apply list_elem_of_lookup; by exists a).
  pose proof (step_spec wd self0 self a cur zero w c Hlk) as Hstep.
  rewrite (lsuf_id wd w Hin) in Hstep. specialize (Hstep Hw Hcur Hzero).
  eexists _, (lsuf wd (w ++ [c])). unfold next_state.
  rewrite (shape_zero _ _ Hs), Hcur, Hzero. split; [done|].
  split; [by rewrite (word_of_wd wd)|]. split; [apply lsuf_suffix|].
  intros b' v. rewrite (word_of_wd wd) by done. intros Hv Hsuf.
  apply lsuf_max; [done|]. apply list_elem_of_lookup. by exists b'.
Qed.
End Automaton.

Section Monotone.
Context {sym : Type} `{EqDecision sym}.
Variable lower : list sym → list sym.
Implicit Types (self : @KeywordTree sym) (st : @State sym).


End Monotone.

Section SnapshotExtras.
Context {sym : Type} `{EqDecision sym}.
Variable lower : list sym → list sym.
Implicit Types (self : @KeywordTree sym) (st : @State sym)
  (entries : list (option (@Serialized sym))) (states : list (@State sym)).

(** X11. The snapshot of a finalized tree and what it restores:
    [__getstate__] gives one entry for each state, at the index that is
    the identifier of the state, holding its attributes with identifiers
    in the place of states; [counter] is the number of entries; and
    [__setstate__] makes of it, on a fresh instance, the tree that was
    exported, state by state. *)
Theorem snapshot_restores_tree ci ks fuel :
  fuel_for lower ci ks ≤ fuel →
  ∃ self snap,
    build lower ci ks fuel = Ok self ∧
    (∀ fuel1, fuel_for lower ci ks ≤ fuel1 →
       getstate fuel1 self = Ok snap) ∧
    snap_case_insensitive snap = ci ∧ snap_finalized snap = true ∧
    snap_counter snap = length (snap_states snap) ∧
    length (snap_states snap) = length (heap self) ∧
    (∀ i st, heap self !! i = Some st →
       identifier st = i ∧
       snap_states snap !! i =
         Some (Some {| s_symbol := symbol st; s_success := success st;
                       s_parent := parent st;
                       s_matched_keyword := matched_keyword st;
                       s_longest_strict_suffix := longest_strict_suffix st;
                       s_transitions := transitions st |})) ∧
    setstate snap = Ok self.
Proof.
  intros Hfuel.
  destruct (build_linked lower ci ks fuel Hfuel)
    as (wd & self0 & self & Hadd & Hb & Hci & Hfin & Hbuild & Hlk & _ & Hcnt).
  pose proof Hlk as (Hs & (_ & _ & _ & Hci' & _) & Hf & _).
  pose proof Hb as (_ & _ & Hu & _).
  eexists self, _. split; [done|]. split.
  { intros fuel1 Hfuel1. unfold fuel_for in Hfuel1.
    rewrite Hadd in Hfuel1. simpl in Hfuel1. rewrite Hcnt in Hfuel1.
    by apply (getstate_spec wd self0). }
  simpl. split; [congruence|]. split; [done|].
  rewrite length_fmap. split; [by rewrite (shape_counter _ _ Hs),
                                 (shape_len _ _ Hs)|].
  split; [done|]. split.
  - intros i st Hst. split; [by apply (shape_id _ _ Hs)|].
    by rewrite list_lookup_fmap, Hst.
  - apply setstate_spec.
    + by apply (linked_closed wd self0).
    + intros E. pose proof (shape_len _ _ Hs) as Hl. rewrite E in Hl.
      pose proof (shape_root _ _ Hs) as Hr. apply lookup_lt_Some in Hr.
      simpl in Hl. lia.
    + apply Hs.
Qed.

Lemma setstate_create_None entries : ∀ idx,
  None ∈ entries → setstate_create idx entries = Raise TypeError.
Proof.
  induction entries as [|[e|] entries IH]; intros idx Hin.
  - by apply elem_of_nil in Hin.
  - apply elem_of_cons in Hin as [?|Hin]; [done|]. simpl.
    by rewrite (IH (S idx) Hin).
  - done.
Qed.

Lemma setstate_create_Some entries : ∀ idx,
  None ∉ entries →
  ∃ states, setstate_create idx entries = Ok states ∧
            length states = length entries.
Proof.
  induction entries as [|[e|] entries IH]; intros idx Hin.
  - by exists [].
  - destruct (IH (S idx)) as (states & E & Hl).
    { intros ?. apply Hin. by right. }
    simpl. rewrite E. eexists. split; [done|]. simpl. by rewrite Hl.
  - exfalso. apply Hin. by left.
Qed.

Lemma states_at_cases n (d : list (sym * nat)) : ∀ acc,
  (∃ tr, states_at n d acc = Ok tr ∧ ∀ j, j ∈ dict_values d → j < n) ∨
  states_at n d acc = Raise IndexError.
Proof.
  induction d as [|[key value] d IH]; intros acc; simpl.
  - left. eexists. split; [done|]. by intros j ?%elem_of_nil.
  - case_decide; [|by right].
    destruct (IH (dict_set key value acc)) as [(tr & E & Hall)|E];
      [|by right].
    left. exists tr. split; [done|].
    intros j [->|Hj]%elem_of_cons; [done|by apply Hall].
Qed.

Lemma state_at_cases n (x : option nat) :
  state_at n x = Ok x ∧ (∀ j, x = Some j → j < n) ∨
  state_at n x = Raise IndexError.
Proof.
  destruct x as [j|]; simpl.
  - case_decide; [left|by right]. split; [done|]. by intros ? [= <-].
  - left. split; [done|]. by intros ?.
Qed.

Lemma setstate_link_dangling entries : ∀ idx states e j,
  None ∉ entries → Some e ∈ entries →
  s_longest_strict_suffix e = Some j ∨ s_parent e = Some j ∨
    j ∈ dict_values (s_transitions e) →
  length states ≤ j →
  setstate_link idx entries states = Raise IndexError.
Proof.
  induction entries as [|[e0|] entries IH];
    intros idx states e j Hnone Hin Hbad Hj.
  - by apply elem_of_nil in Hin.
  - simpl.
    destruct (state_at_cases (length states) (s_longest_strict_suffix e0))
      as [[-> Hf]| ->]; [|done].
    destruct (state_at_cases (length states) (s_parent e0))
      as [[-> Hp]| ->]; [|done].
    destruct (states_at_cases (length states) (s_transitions e0) [])
      as [(tr & -> & Ht)| ->]; [|done].
    apply elem_of_cons in Hin as [[= ->]|Hin].
    + exfalso. destruct Hbad as [Hb|[Hb|Hb]].
      * specialize (Hf j Hb). lia.
      * specialize (Hp j Hb). lia.
      * specialize (Ht j Hb). lia.
    + apply (IH _ _ e j); [|done|done|by rewrite length_alter].
      intros ?. apply Hnone. by right.
  - exfalso. apply Hnone. by left.
Qed.

(** X12. [__setstate__] on a record that no [__getstate__] gave: an
    entry of [states] that is [None] ends it in a [TypeError]; without
    such an entry, an empty [states], or an entry that names, as parent,
    as suffix link or as target of a transition, an index at which
    [states] has nothing, ends it in an [IndexError]. *)
Theorem setstate_rejects_malformed (snap : @Snapshot sym) :
  (None ∈ snap_states snap → setstate snap = Raise TypeError) ∧
  (snap_states snap = [] → setstate snap = Raise IndexError) ∧
  (None ∉ snap_states snap →
   ∀ e j, Some e ∈ snap_states snap →
     s_longest_strict_suffix e = Some j ∨ s_parent e = Some j ∨
       j ∈ dict_values (s_transitions e) →
     length (snap_states snap) ≤ j →
     setstate snap = Raise IndexError).
Proof.
  unfold setstate. split; [|split].
  - intros Hin. by rewrite setstate_create_None.
  - by intros ->.
  - intros Hnone e j Hin Hbad Hj.
    destruct (setstate_create_Some _ 0 Hnone) as (states & -> & Hl).
    rewrite (setstate_link_dangling _ 0 states e j); try done. lia.
Qed.
End SnapshotExtras.

Section KdExtras.
Context {sym : Type} `{EqDecision sym}.
Variable lower : list sym → list sym.
Implicit Types (self : @KeywordTree sym) (kd : @Kd.KdTree sym)
  (ks : list (list sym)) (k text kw : list sym).

Lemma kd_heap_mutate a f kd b :
  Kd.heap (Kd.mutate a f kd) !! b =
  if decide (a = b) then f <$> Kd.heap kd !! b else Kd.heap kd !! b.
Proof.
  unfold Kd.mutate. simpl. rewrite list_lookup_alter.
  by repeat case_decide; subst.
Qed.

Lemma kd_length_heap_mutate a f kd :
  length (Kd.heap (Kd.mutate a f kd)) = length (Kd.heap kd).
Proof. unfold Kd.mutate. simpl. by rewrite length_alter. Qed.

(** *** The guards *)

Lemma kd_finalize_finalized fuel kd0 kd :
  Kd.finalize fuel kd0 = (Ok (), kd) → Kd._finalized kd = true.
Proof.
  unfold Kd.finalize. destruct (Kd._finalized kd0); [done|].
  destruct (Kd.find_failure_for_children _ _ _) as [[[]| |] kd2]; [|done..].
  by intros [= <-].
Qed.

(** X13. The guards of the re-implementation: [search_all] on a tree
    that is not finalized raises a [ValueError] before it yields
    anything; after a [finalize] that returned, [add_keyword] and a
    second [finalize] raise a [ValueError] and leave the tree as it
    is. *)
Theorem kd_guards :
  (∀ kd text, Kd._finalized kd = false →
     ∃ msg, Kd.search_all lower kd text = ([], Raised (ValueError msg))) ∧
  (∀ fuel kd0 kd, Kd.finalize fuel kd0 = (Ok (), kd) →
     (∀ keyword, ∃ msg,
        Kd.add_keyword lower keyword kd = (Raise (ValueError msg), kd)) ∧
     (∀ fuel', ∃ msg,
        Kd.finalize fuel' kd = (Raise (ValueError msg), kd))).
Proof.
  split.
  - intros kd text Hf. unfold Kd.search_all. rewrite Hf. by eexists.
  - intros fuel kd0 kd Hfin%kd_finalize_finalized. split.
    + intros keyword. unfold Kd.add_keyword. rewrite Hfin. by eexists.
    + intros fuel'. unfold Kd.finalize. rewrite Hfin. by eexists.
Qed.

(** *** At most one match for each position *)

Lemma kd_search_loop_positions kd : ∀ text idx cur ys e,
  Kd.search_loop kd idx text cur = (ys, e) →
  length ys ≤ length text ∧
  Forall (λ m, (Z.of_nat idx < end_pos m ≤ Z.of_nat (idx + length text))%Z)
    ys ∧
  StronglySorted (λ m1 m2, (end_pos m1 < end_pos m2)%Z) ys.
Proof.
  induction text as [|c text IH]; intros idx cur ys e E; simpl in E.
  - injection E as <- <-. split; [done|]. split; constructor.
  - assert (Hnil : length (@nil (list sym * Z)) ≤ length (c :: text) ∧
      Forall (λ m : list sym * Z, (Z.of_nat idx < end_pos m
                    ≤ Z.of_nat (idx + length (c :: text)))%Z) [] ∧
      StronglySorted (λ m1 m2 : list sym * Z, (end_pos m1 < end_pos m2)%Z) []).
    { split; [simpl; lia|]. split; constructor. }
    assert (Hrec : ∀ cur', Kd.search_loop kd (S idx) text cur' = (ys, e) →
      length ys ≤ length (c :: text) ∧
      Forall (λ m, (Z.of_nat idx < end_pos m
                    ≤ Z.of_nat (idx + length (c :: text)))%Z) ys ∧
      StronglySorted (λ m1 m2, (end_pos m1 < end_pos m2)%Z) ys).
    { intros cur' E'. destruct (IH _ _ _ _ E') as (Hl & Hall & Hs).
      split; [simpl; lia|]. split; [|done].
      eapply Forall_impl; [done|]. simpl. intros m. lia. }
    destruct (Kd.heap kd !! cur) as [cst|]; [|by injection E as <- <-].
    destruct (dict_get c (Kd.transitions cst)) as [nxt|]; [|by apply Hrec in E].
    destruct (Kd.heap kd !! nxt) as [nst|]; [|by injection E as <- <-].
    destruct (Kd.success nst); [|by apply Hrec in E].
    destruct (Kd.keyword nst) as [kw|]; [|by injection E as <- <-].
    destruct (Kd.search_loop kd (S idx) text cur) as [ys' e'] eqn:E'.
    injection E as <- <-.
    destruct (IH _ _ _ _ E') as (Hl & Hall & Hs).
    split; [simpl; lia|]. split.
    + constructor.
      * unfold end_pos. simpl. lia.
      * eapply Forall_impl; [done|]. simpl. intros m. lia.
    + constructor; [done|].
      eapply Forall_impl; [done|]. unfold end_pos. simpl. intros m. lia.
Qed.

(** X14. The re-implementation yields at most one match for each
    position of the text: whatever the tree, the matches that
    [KdTree.search_all] yields have end positions (offset plus keyword
    length) that lie in the folded text and increase strictly, so there
    are at most as many matches as the folded text has symbols. *)
Theorem kd_one_match_per_position kd text yields e :
  Kd.search_all lower kd text = (yields, e) →
  let folded := if negb (Kd.case_sensitive kd) then lower text else text in
  length yields ≤ length folded ∧
  (∀ m, m ∈ yields → (1 ≤ end_pos m ≤ Z.of_nat (length folded))%Z) ∧
  ∀ i j m1 m2, i < j → yields !! i = Some m1 → yields !! j = Some m2 →
    (end_pos m1 < end_pos m2)%Z.
Proof.
  unfold Kd.search_all. destruct (negb (Kd._finalized kd)).
  { intros [= <- <-]. simpl. split; [lia|].
    split; [by intros m ?%elem_of_nil|]. by intros i j m1 m2 _ ?. }
  intros E. simpl.
  destruct (kd_search_loop_positions _ _ _ _ _ _ E) as (Hl & Hall & Hs).
  split; [done|]. split.
  - intros m Hm. rewrite Forall_forall in Hall. specialize (Hall m Hm).
    simpl in Hall. lia.
  - intros i j m1 m2 Hij H1 H2.
    by apply (StronglySorted_lookup_lt _ yields i j m1 m2 Hs).
Qed.
End KdExtras.

Section KdTrie.
Context {sym : Type} `{EqDecision sym}.
Variable lower : list sym → list sym.
Implicit Types (self : @KeywordTree sym) (kd : @Kd.KdTree sym)
  (ks : list (list sym)) (k text kw : list sym).

Lemma kd_of_tree_mutate a f g self :
  (∀ st, kd_of_state (f st) = g (kd_of_state st)) →
  kd_of_tree (mutate a f self) = Kd.mutate a g (kd_of_tree self).
Proof.
  intros Hfg. unfold mutate, Kd.mutate, kd_of_tree, with_heap, Kd.with_heap.
  simpl. f_equal. apply list_fmap_alter, Forall_forall. by intros st _.
Qed.

Lemma kd_add_loop kw : ∀ cur self,
  Kd.add_loop kw cur (kd_of_tree self) =
  (let '(r, self') := add_loop kw cur self in (r, kd_of_tree self')).
Proof.
  induction kw as [|char kw IH]; intros cur self; [done|].
  cbn [Kd.add_loop add_loop].
  change (Kd.heap (kd_of_tree self)) with (kd_of_state <$> heap self).
  rewrite list_lookup_fmap.
  destruct (heap self !! cur) as [curst|]; [|done]. simpl.
  destruct (dict_get char (transitions curst)) as [nxt|]; [apply IH|].
  rewrite length_fmap. rewrite <-IH. f_equal.
  rewrite (kd_of_tree_mutate _ _
    (λ s, Kd.set_transitions
            (dict_set char (length (heap self)) (Kd.transitions s)) s))
    by done.
  f_equal. unfold kd_of_tree. simpl. by rewrite fmap_app.
Qed.

Lemma kd_add_keyword ks wd self k :
  built lower ks wd self →
  the_fold lower (_case_insensitive self) k ≠ [] →
  ∃ wd' self',
    add lower k self = (Ok (), self') ∧
    built lower (ks ++ [k]) wd' self' ∧
    _case_insensitive self' = _case_insensitive self ∧
    Kd.add_keyword lower k (kd_of_tree self) = (Ok (), kd_of_tree self').
Proof.
  intros Hb Hne.
  destruct (add_spec lower ks wd self k Hb) as (wd' & self' & E & Hb' & Hci).
  exists wd', self'. split; [done|]. split; [done|]. split; [done|].
  destruct Hb as (_ & _ & _ & Hf).
  unfold add in E. unfold Kd.add_keyword. simpl. rewrite Hf in *.
  rewrite negb_involutive.
  assert (Hfold : (if _case_insensitive self then lower k else k)
                  = the_fold lower (_case_insensitive self) k).
  { unfold the_fold. by destruct (_case_insensitive self). }
  rewrite Hfold in *. rewrite decide_False in E.
  2:{ destruct (the_fold lower (_case_insensitive self) k);
        [done|simpl; lia]. }
  rewrite kd_add_loop.
  destruct (add_loop _ _ self) as [[cur| |] self1]; [|done..].
  injection E as <-. f_equal. symmetry. by apply kd_of_tree_mutate.
Qed.

Lemma kd_add_all ks2 : ∀ ks1 wd self,
  built lower ks1 wd self →
  (∀ k, k ∈ ks2 → the_fold lower (_case_insensitive self) k ≠ []) →
  ∃ self',
    add_all lower ks2 self = (Ok (), self') ∧
    Kd.add_all lower ks2 (kd_of_tree self) = (Ok (), kd_of_tree self').
Proof.
  induction ks2 as [|k ks2 IH]; intros ks1 wd self Hb Hne; simpl.
  - by exists self.
  - destruct (kd_add_keyword ks1 wd self k Hb)
      as (wd1 & self1 & -> & Hb1 & Hci & ->); [apply Hne; by left|].
    apply (IH _ _ _ Hb1). intros k' Hk'. rewrite Hci. apply Hne. by right.
Qed.

(** X15. Before [finalize] the two implementations build the same tree:
    for keywords that are not empty once folded, the [add_keyword] calls
    of the re-implementation make, state by state and attribute by
    attribute, the tree that the [add] calls of [KeywordTree] make (with
    [case_sensitive] the negation of [case_insensitive]).  The empty
    keyword is where they differ: [add] ignores it, [add_keyword] marks
    the root with it. *)
Theorem kd_builds_same_trie ci ks :
  ((∀ k, k ∈ ks → the_fold lower ci k ≠ []) →
   ∃ self,
     added lower ci ks = (Ok (), self) ∧
     Kd.add_all lower ks (Kd.KdTree_init (negb ci)) =
       (Ok (), kd_of_tree self)) ∧
  (∀ k, the_fold lower ci k = [] →
     add lower k (KeywordTree_init ci) = (Ok (), KeywordTree_init ci) ∧
     ∃ kd zero,
       Kd.add_keyword lower k (Kd.KdTree_init (negb ci)) = (Ok (), kd) ∧
       Kd.heap kd !! Kd._zero_node kd = Some zero ∧
       Kd.success zero = true ∧ Kd.keyword zero = Some k).
Proof.
  split.
  - intros Hne.
    destruct (kd_add_all ks [] [[]] _ (init_built lower ci) Hne)
      as (self & E & Ekd).
    by exists self.
  - intros k Hk. split.
    + by apply (add_empty_fold lower [] [[]] _ k (init_built lower ci)).
    + unfold Kd.add_keyword. simpl. rewrite negb_involutive.
      unfold the_fold in Hk. destruct ci; simpl in *; rewrite Hk; simpl;
        by eexists _, _.
Qed.

(** *** What the re-implementation keeps *)

Lemma kd_inv_mono ks ks' kd :
  (∀ k, k ∈ ks → k ∈ ks') → kd_inv ks kd → kd_inv ks' kd.
Proof.
  intros Hsub [Hz Hall]. split; [done|]. intros a st Hst.
  destruct (Hall a st Hst) as [Ht Hk]. split; [done|].
  intros Hs. destruct (Hk Hs) as (k & ? & ?). exists k. auto.
Qed.

Lemma kd_inv_set_transition ks kd a c b :
  kd_inv ks kd → b < length (Kd.heap kd) →
  kd_inv ks
    (Kd.mutate a
       (λ s, Kd.set_transitions (dict_set c b (Kd.transitions s)) s) kd).
Proof.
  intros [Hz Hall] Hb. split.
  { by rewrite kd_length_heap_mutate. }
  intros a' st'. rewrite kd_heap_mutate, kd_length_heap_mutate.
  case_decide; [|apply Hall]. subst a'.
  destruct (Kd.heap kd !! a) as [st|] eqn:Hst; [|done]. simpl.
  intros [= <-]. destruct (Hall a st Hst) as [Ht Hk]. simpl.
  split; [|done]. intros c' b'. rewrite dict_get_set.
  case_decide; [by intros [= <-]|apply Ht].
Qed.

Lemma kd_inv_set_failure ks kd a f :
  kd_inv ks kd → kd_inv ks (Kd.mutate a (Kd.set_failure f) kd).
Proof.
  intros [Hz Hall]. split.
  { by rewrite kd_length_heap_mutate. }
  intros a' st'. rewrite kd_heap_mutate, kd_length_heap_mutate.
  case_decide; [|apply Hall]. subst a'.
  destruct (Kd.heap kd !! a) as [st|] eqn:Hst; [|done]. simpl.
  intros [= <-]. by destruct (Hall a st Hst) as [Ht Hk].
Qed.

Lemma kd_inv_add_loop ks kw : ∀ cur kd r kd',
  kd_inv ks kd → cur < length (Kd.heap kd) →
  Kd.add_loop kw cur kd = (r, kd') →
  kd_inv ks kd' ∧ (∀ a, r = Ok a → a < length (Kd.heap kd')).
Proof.
  induction kw as [|char kw IH]; intros cur kd r kd' Hinv Hcur E;
    simpl in E.
  - injection E as <- <-. split; [done|]. by intros a [= <-].
  - destruct (Kd.heap kd !! cur) as [cst|] eqn:Hcst.
    2:{ by injection E as <- <-. }
    destruct (dict_get char (Kd.transitions cst)) as [nxt|] eqn:Hget.
    + apply (IH _ _ _ _ Hinv) in E; [done|].
      destruct Hinv as [_ Hall]. by apply (Hall cur cst Hcst) in Hget.
    + apply IH in E; [done| |].
      * apply kd_inv_set_transition.
        -- destruct Hinv as [Hz Hall]. split.
           { simpl. rewrite length_app. simpl in *. lia. }
           simpl. intros a st [Hst|[_ Hst]]%lookup_app_Some.
           ++ destruct (Hall a st Hst) as [Ht Hk]. split; [|done].
              intros c b Hb. rewrite length_app. apply Ht in Hb. lia.
           ++ destruct (a - length (Kd.heap kd)); [|done].
              injection Hst as <-. simpl. split; [done|done].
        -- simpl. rewrite length_app. simpl. lia.
      * rewrite kd_length_heap_mutate. simpl. rewrite length_app. simpl. lia.
Qed.

Lemma kd_inv_add_keyword ks kd k r kd' :
  kd_inv ks kd → Kd.add_keyword lower k kd = (r, kd') →
  kd_inv (ks ++ [k]) kd'.
Proof.
  intros Hinv. unfold Kd.add_keyword.
  assert (Hmono : kd_inv (ks ++ [k]) kd).
  { eapply kd_inv_mono; [|done]. intros k' ?. apply elem_of_app. by left. }
  destruct (Kd._finalized kd); [by intros [= <- <-]|].
  destruct (Kd.add_loop _ _ kd) as [r1 kd1] eqn:E.
  apply (kd_inv_add_loop (ks ++ [k])) in E as [[Hz Hall] Hcur];
    [|done|apply Hinv].
  destruct r1 as [cur| |]; intros [= <- <-]; [|done..].
  split. { by rewrite kd_length_heap_mutate. }
  intros a st. rewrite kd_heap_mutate, kd_length_heap_mutate.
  case_decide; [|apply Hall]. subst a.
  destruct (Kd.heap kd1 !! cur) as [st1|] eqn:Hst; [|done]. simpl.
  intros [= <-]. destruct (Hall cur st1 Hst) as [Ht _]. simpl.
  split; [done|]. intros _. exists k. split; [|done].
  apply elem_of_app. right. by apply list_elem_of_singleton.
Qed.

Lemma kd_inv_add_all ks2 : ∀ ks1 kd r kd',
  kd_inv ks1 kd → Kd.add_all lower ks2 kd = (r, kd') →
  kd_inv (ks1 ++ ks2) kd'.
Proof.
  induction ks2 as [|k ks2 IH]; intros ks1 kd r kd' Hinv E; simpl in E.
  - injection E as <- <-. by rewrite app_nil_r.
  - destruct (Kd.add_keyword lower k kd) as [r1 kd1] eqn:E1.
    apply (kd_inv_add_keyword ks1) in E1; [|done].
    assert (Hmono : kd_inv (ks1 ++ k :: ks2) kd1).
    { eapply kd_inv_mono; [|done]. intros k'.
      rewrite !elem_of_app, !elem_of_cons, elem_of_nil. tauto. }
    destruct r1 as [[]| |]; [|by injection E as <- <-..].
    apply (IH (ks1 ++ [k])) in E; [|done].
    by rewrite <-app_assoc in E.
Qed.

Lemma kd_inv_selfloop_loop ks items : ∀ kd r kd',
  kd_inv ks kd → Kd.selfloop_loop items kd = (r, kd') → kd_inv ks kd'.
Proof.
  induction items as [|[c node] items IH]; intros kd r kd' Hinv E;
    simpl in E.
  - by injection E as <- <-.
  - destruct (Kd.heap kd !! node) as [nst|] eqn:Hn.
    2:{ by injection E as <- <-. }
    destruct (dict_has c (Kd.transitions nst)); [by eapply IH|].
    eapply IH; [|done]. apply kd_inv_set_transition; [done|].
    by apply lookup_lt_Some in Hn.
Qed.

Lemma kd_inv_failure_loop ks fuel : ∀ kd node c tr r kd',
  kd_inv ks kd → Kd.failure_loop fuel kd node c tr = (r, kd') →
  kd_inv ks kd'.
Proof.
  induction fuel as [|fuel IH]; intros kd node c tr r kd' Hinv E;
    simpl in E.
  - by injection E as <- <-.
  - destruct tr as [t|]; [|by injection E as <- <-].
    destruct (Kd.heap kd !! t) as [trs|]; [|by injection E as <- <-].
    assert (Hother :
      (if decide (t = Kd._zero_node kd)
       then (Ok (), Kd.mutate node (Kd.set_failure (Some (Kd._zero_node kd))) kd)
       else Kd.failure_loop fuel kd node c (Kd.failure trs)) = (r, kd') →
      kd_inv ks kd').
    { case_decide; [|by apply IH].
      intros [= <- <-]. by apply kd_inv_set_failure. }
    destruct (match c with
              | Some c0 => dict_get c0 (Kd.transitions trs)
              | None => None
              end) as [tgt|]; [|by apply Hother].
    destruct (decide (node ≠ tgt)); [|by apply Hother].
    destruct (alter (Kd.set_failure (Some tgt)) node (Kd.heap kd) !! tgt)
      as [fst|]; [|injection E as <- <-; by apply kd_inv_set_failure].
    eapply kd_inv_selfloop_loop; [|done]. by apply kd_inv_set_failure.
Qed.

Lemma kd_inv_find_failure ks fuel kd node r kd' :
  kd_inv ks kd → Kd.find_failure fuel kd node = (r, kd') → kd_inv ks kd'.
Proof.
  intros Hinv. unfold Kd.find_failure.
  destruct (Kd.heap kd !! node) as [nst|]; [|by intros [= <- <-]].
  destruct (Kd.failure nst); [by intros [= <- <-]|].
  destruct (Kd.parent nst) as [p|]; [|by intros [= <- <-]].
  destruct (Kd.heap kd !! p) as [pst|]; [|by intros [= <- <-]].
  by apply kd_inv_failure_loop.
Qed.

Lemma kd_inv_children_loop ks fuel cur size steps : ∀ i to_add kd r kd',
  kd_inv ks kd →
  Kd.children_loop steps fuel cur size i to_add kd = (r, kd') →
  kd_inv ks kd'.
Proof.
  induction steps as [|steps IH]; intros i to_add kd r kd' Hinv E;
    simpl in E.
  - by injection E as <- <-.
  - destruct (Kd.heap kd !! cur) as [st|]; [|by injection E as <- <-].
    case_decide; [by injection E as <- <-|].
    destruct (dict_values (Kd.transitions st) !! i) as [child|];
      [|by injection E as <- <-].
    destruct (Kd.find_failure fuel kd child) as [r1 kd1] eqn:E1.
    apply (kd_inv_find_failure ks) in E1; [|done].
    destruct r1 as [[]| |]; [|by injection E as <- <-..].
    by eapply IH.
Qed.

Lemma kd_inv_process_loop ks fuel n : ∀ processed to_add kd r kd',
  kd_inv ks kd →
  Kd.process_loop n fuel processed to_add kd = (r, kd') →
  kd_inv ks kd'.
Proof.
  induction n as [|n IH]; intros processed to_add kd r kd' Hinv E;
    cbn [Kd.process_loop] in E.
  - by injection E as <- <-.
  - destruct to_add as [|cur to_add]; [by injection E as <- <-|].
    destruct (Kd.heap kd !! cur) as [st|]; [|by injection E as <- <-].
    case_decide; [by eapply IH|].
    destruct (Kd.children_loop _ _ _ _ _ _ kd) as [r1 kd1] eqn:E1.
    apply (kd_inv_children_loop ks) in E1; [|done].
    destruct r1 as [to_add''| |]; [|by injection E as <- <-..].
    by eapply IH.
Qed.

Lemma kd_inv_finalize ks fuel kd r kd' :
  kd_inv ks kd → Kd.finalize fuel kd = (r, kd') → kd_inv ks kd'.
Proof.
  intros Hinv. unfold Kd.finalize.
  destruct (Kd._finalized kd); [by intros [= <- <-]|].
  unfold Kd.find_failure_for_children.
  destruct (Kd.process_loop _ _ _ _ _) as [r1 kd1] eqn:E1.
  apply (kd_inv_process_loop ks) in E1; [|by apply kd_inv_set_failure].
  by destruct r1 as [[]| |]; intros [= <- <-].
Qed.

Lemma kd_search_loop_inv ks kd : ∀ text idx cur,
  kd_inv ks kd → cur < length (Kd.heap kd) →
  ∃ ys, Kd.search_loop kd idx text cur = (ys, Done) ∧
        ∀ k off, (k, off) ∈ ys → k ∈ ks.
Proof.
  induction text as [|c text IH]; intros idx cur Hinv Hcur; simpl.
  - exists []. split; [done|]. by intros k off ?%elem_of_nil.
  - destruct (lookup_lt_is_Some_2 _ _ Hcur) as [cst Hcst]. rewrite Hcst.
    destruct (dict_get c (Kd.transitions cst)) as [nxt|] eqn:Hget;
      [|by apply IH].
    pose proof Hinv as [_ Hall].
    destruct (Hall cur cst Hcst) as [Ht _]. apply Ht in Hget.
    destruct (lookup_lt_is_Some_2 _ _ Hget) as [nst Hnst]. rewrite Hnst.
    destruct (Kd.success nst) eqn:Hs; [|by apply IH].
    destruct (Hall nxt nst Hnst) as [_ Hk].
    destruct (Hk Hs) as (k & Hin & ->).
    destruct (IH (S idx) cur Hinv Hcur) as (ys & -> & Hys).
    eexists. split; [done|].
    intros k' off [[= -> _]|Hk']%elem_of_cons; [done|by eapply Hys].
Qed.

(** X16. What the re-implementation reports: once [finalize] has
    returned, [KdTree.search_all] comes to its end on every text, and
    every keyword it yields is one of those that were added. *)
Theorem kd_reports_added_keywords case_sensitive ks fuel kd :
  kd_build lower case_sensitive ks fuel = Ok kd →
  ∀ text, ∃ yields,
    Kd.search_all lower kd text = (yields, Done) ∧
    ∀ k off, (k, off) ∈ yields → k ∈ ks.
Proof.
  unfold kd_build.
  destruct (Kd.add_all lower ks _) as [r0 kd0] eqn:E0.
  apply (kd_inv_add_all ks []) in E0.
  2:{ split; [simpl; lia|]. intros [|a] st; [|done].
      intros [= <-]. by split. }
  destruct r0 as [[]| |]; [|done..].
  destruct (Kd.finalize fuel kd0) as [r1 kd1] eqn:E1.
  destruct r1 as [[]| |]; [|done..]. intros [= <-] text.
  pose proof (kd_finalize_finalized _ _ _ E1) as Hf.
  apply (kd_inv_finalize ks) in E1; [|done].
  unfold Kd.search_all. rewrite Hf. simpl.
  apply kd_search_loop_inv; [done|apply E1].
Qed.
End KdTrie.

Section Matches.
Context {sym : Type} `{EqDecision sym}.
Variable lower : list sym → list sym.
Implicit Types (self : @KeywordTree sym) (ks : list (list sym))
  (k text pre : list sym) (fold : list sym → list sym).

(** X17. What [search_all] yields, exactly: on a finalized tree the
    pair [(k, off)] is yielded if and only if [k] is the keyword that
    was added last among those with its folded form, this folded form is
    not empty, and it ends at a position [e] of the folded text with
    [off = e - len(k)]; and no pair is yielded twice. *)
Theorem search_all_exact ci ks fuel :
  fuel_for lower ci ks ≤ fuel →
  ∃ self,
    build lower ci ks fuel = Ok self ∧
    ∀ text fuel', _counter self ≤ fuel' →
      ∃ yields,
        search_all lower fuel' self text = (yields, Done) ∧
        NoDup yields ∧
        ∀ k off, (k, off) ∈ yields ↔
          last (filter (λ k', the_fold lower ci k' = the_fold lower ci k) ks)
            = Some k ∧
          the_fold lower ci k ≠ [] ∧
          ∃ e, 1 ≤ e ≤ length (the_fold lower ci text) ∧
               the_fold lower ci k `suffix_of`
                 take e (the_fold lower ci text) ∧
               off = (Z.of_nat e - Z.of_nat (length k))%Z.
Proof.
  intros Hfuel.
  destruct (build_linked lower ci ks fuel Hfuel)
    as (wd & self0 & self & _ & _ & _ & _ & Hbuild & _).
  exists self. split; [done|]. intros text fuel' Hfuel'.
  set (fold := the_fold lower ci) in *.
  eexists. split; [by apply (search_all_reference lower ci ks fuel)|].
  fold fold. split.
  - apply (StronglySorted_NoDup (yielded_before fold)).
    + apply yielded_before_irrefl.
    + apply reference_search_sorted.
  - intros k off. rewrite reference_search_elem. unfold keyword_of. split.
    + intros (e & He & Hk & Hne & Hsuf & ->).
      rewrite decide_False in Hk by done. split; [done|].
      split; [done|]. by exists e.
    + intros (Hk & Hne & e & He & Hsuf & ->). exists e.
      rewrite decide_False by done. done.
Qed.

Lemma reference_loop_app fold ks t1 : ∀ pre t2,
  reference_loop fold ks pre (t1 ++ t2) =
  reference_loop fold ks pre t1 ++ reference_loop fold ks (pre ++ t1) t2.
Proof.
  induction t1 as [|c t1 IH]; intros pre t2; simpl.
  - by rewrite app_nil_r.
  - rewrite IH. by rewrite <-!app_assoc.
Qed.

(** X18. The matches of a text are found as it is read: when folding
    goes through the concatenation of [t1] and [t2] (as it does in a
    case-sensitive tree), what [search_all] yields for [t1 ++ t2] is
    what it yields for [t1], followed by matches that end in [t2]. *)
Theorem matches_of_prefix ci ks fuel :
  fuel_for lower ci ks ≤ fuel →
  ∃ self,
    build lower ci ks fuel = Ok self ∧
    ∀ t1 t2 fuel', _counter self ≤ fuel' →
      the_fold lower ci (t1 ++ t2) =
        the_fold lower ci t1 ++ the_fold lower ci t2 →
      ∃ ys1 ys2,
        search_all lower fuel' self t1 = (ys1, Done) ∧
        search_all lower fuel' self (t1 ++ t2) = (ys1 ++ ys2, Done) ∧
        ∀ m, m ∈ ys2 →
          (Z.of_nat (length (the_fold lower ci t1)) < end_pos m)%Z.
Proof.
  intros Hfuel.
  destruct (build_linked lower ci ks fuel Hfuel)
    as (wd & self0 & self & _ & _ & _ & _ & Hbuild & _).
  exists self. split; [done|]. intros t1 t2 fuel' Hfuel' Hfold.
  set (fold := the_fold lower ci) in *.
  exists (reference_search fold ks (fold t1)),
         (reference_loop fold ks (fold t1) (fold t2)).
  split; [by apply (search_all_reference lower ci ks fuel)|]. split.
  - rewrite (search_all_reference lower ci ks fuel self (t1 ++ t2) fuel')
      by done.
    fold fold. rewrite Hfold, !reference_search_loop.
    by rewrite reference_loop_app.
  - intros [k off] (j & _ & _ & _ & _ & ->)%reference_loop_elem.
    unfold end_pos. simpl. lia.
Qed.

(** X19. More keywords, no match lost: in case-sensitive trees, if every
    keyword of [ks] is also one of [ks'], every match that [search_all]
    yields on the tree of [ks] is yielded on the tree of [ks'] too. *)
Theorem more_keywords_more_matches ks ks' fuel fuel2 :
  (∀ k, k ∈ ks → k ∈ ks') →
  fuel_for lower false ks ≤ fuel → fuel_for lower false ks' ≤ fuel2 →
  ∃ self self',
    build lower false ks fuel = Ok self ∧
    build lower false ks' fuel2 = Ok self' ∧
    ∀ text f f', _counter self ≤ f → _counter self' ≤ f' →
      ∃ ys ys',
        search_all lower f self text = (ys, Done) ∧
        search_all lower f' self' text = (ys', Done) ∧
        ∀ m, m ∈ ys → m ∈ ys'.
Proof.
  intros Hks Hfuel Hfuel2.
  destruct (build_linked lower false ks fuel Hfuel)
    as (wd & self0 & self & _ & _ & _ & _ & Hbuild & _).
  destruct (build_linked lower false ks' fuel2 Hfuel2)
    as (wd' & self0' & self' & _ & _ & _ & _ & Hbuild' & _).
  exists self, self'. split; [done|]. split; [done|].
  intros text f f' Hf Hf'. eexists _, _.
  split; [by apply (search_all_reference lower false ks fuel)|].
  split; [by apply (search_all_reference lower false ks' fuel2)|].
  simpl. intros [k off]. rewrite !reference_search_elem.
  intros (e & He & Hk & Hrest). exists e. split; [done|]. split; [|done].
  rewrite keyword_of_id in *. case_decide as Hd; [|done].
  rewrite decide_True; [done|]. destruct Hd. split; [done|]. by apply Hks.
Qed.
End Matches.

Section SnapshotBefore.
Context {sym : Type} `{EqDecision sym}.
Variable lower : list sym → list sym.
Implicit Types (self aux : @KeywordTree sym) (st : @State sym)
  (h : list (@State sym)) (wd : list (list sym)) (P : gset nat)
  (sl : list (option (@Serialized sym))).

Lemma tree_dict_length wd w (d : list (sym * nat)) :
  tree_dict wd w d → length d ≤ length wd.
Proof.
  intros [Hnd Hg].
  assert (Hsub : d.*1 ⊆+ omap last wd).
  { apply NoDup_submseteq; [done|].
    intros c (ck & -> & Hin)%list_elem_of_fmap.
    destruct ck as [c k]. apply dict_get_elem in Hin; [|done].
    apply Hg in Hin. apply list_elem_of_omap.
    exists (w ++ [c]). split; [apply list_elem_of_lookup; by exists k|].
    apply last_snoc. }
  apply submseteq_length in Hsub. rewrite length_fmap in Hsub.
  etrans; [exact Hsub|]. clear. induction wd as [|w wd IH]; [done|].
  change (omap last (w :: wd)) with
    (match last w with Some y => y :: omap last wd | None => omap last wd end).
  destruct (last w); simpl; lia.
Qed.

Lemma built_closed ks wd self :
  built lower ks wd self → closed_heap (heap self).
Proof.
  intros (Hs & _ & Hu & _) a st Hst.
  destruct (shape_word _ _ _ _ Hs Hst) as [w Hw].
  destruct (Hu a st w Hst Hw) as (Hl & Hnd & Ht).
  rewrite (shape_len _ _ Hs).
  split; [by apply (shape_id _ _ Hs)|]. split; [|split; [|split; [done|]]].
  - intros p Hp. destruct (decide (a = 0)) as [->|Hne].
    + destruct (shape_root_state _ _ Hs st Hst). congruence.
    + destruct (shape_parent _ _ Hs a st w Hst Hw Hne)
        as (x & c & p' & _ & Hp' & ? & _).
      assert (p' = p) as -> by congruence. by apply lookup_lt_Some in Hp'.
  - intros f Hf. congruence.
  - intros k ([c k'] & -> & Hin)%list_elem_of_fmap. simpl.
    apply dict_get_elem in Hin; [|done]. apply Ht in Hin.
    by apply lookup_lt_Some in Hin.
Qed.

(** The walk of [__getstate__] over a store [h]; [aux] has the
    transitions of [h], and serves to state what the stack holds. *)
Lemma getstate_loop_walk h aux :
  closed_heap h → length (heap aux) = length h →
  (∀ a st, h !! a = Some st → length (transitions st) ≤ length h) →
  (∀ a st, h !! a = Some st →
     ∃ st', heap aux !! a = Some st' ∧ transitions st' = transitions st) →
  (∀ a, a < length h → resolved aux a) →
  ∀ n P todo sl,
  getstate_inv h sl P → dfs_inv aux P todo →
  dfs_potential (length h) P todo < n →
  ∃ sl' P',
    getstate_loop n h sl todo = Ok sl' ∧
    getstate_inv h sl' P' ∧ dfs_inv aux P' [] ∧ P ⊆ P' ∧
    (∀ y, y ∈ todo → y ∈ P').
Proof.
  intros Hc Hlen Hbound Haux Hres.
  induction n as [|n IH]; intros P todo sl Hinv Hdfs Hpot; [lia|].
  destruct todo as [|y rest]; cbn [getstate_loop].
  { exists sl, P. split; [done|]. split; [done|]. split; [done|].
    split; [done|]. by intros y ?%elem_of_nil. }
  pose proof Hdfs as (H1 & _). pose proof Hinv as (Hl & HP & Hser).
  destruct (H1 y) as (yst' & Hy' & _); [by left|].
  assert (y < length h) as Hylt.
  { rewrite <-Hlen. by apply lookup_lt_Some in Hy'. }
  destruct (lookup_lt_is_Some_2 _ _ Hylt) as [yst Hy]. rewrite Hy.
  destruct (Haux y yst Hy) as (yst'' & Hy'' & Htr).
  assert (yst'' = yst') as -> by congruence.
  rewrite (serialize_spec _ _ _ Hc Hy).
  destruct (Hc y yst Hy) as (-> & _ & _ & _ & Hkids).
  rewrite decide_False by lia.
  set (P1 := {[y]} ∪ P). set (sl1 := <[y := Some (ser yst)]> sl).
  assert (Hinv1 : getstate_inv h sl1 P1).
  { split; [|split].
    - unfold sl1. by rewrite length_insert.
    - intros i. unfold sl1, P1. destruct (decide (i = y)) as [->|Hne].
      + rewrite list_lookup_insert_eq by lia. split; [by eexists|set_solver].
      + rewrite list_lookup_insert_ne by done. rewrite <-HP. set_solver.
    - intros i s. unfold sl1. destruct (decide (i = y)) as [->|Hne].
      + rewrite list_lookup_insert_eq by lia. intros [= <-]. by exists yst.
      + rewrite list_lookup_insert_ne by done. apply Hser. }
  rewrite (getstate_children_spec h sl1 P1 _ rest Hc); try apply Hinv1;
    [|done].
  set (kids := dict_values (transitions yst)) in *.
  remember (reverse (filter (λ k, k ∉ P1) kids)) as pushed eqn:Epushed.
  assert (Hpushed : ∀ k, k ∈ pushed ↔ k ∈ kids ∧ k ∉ P1).
  { intros k. rewrite Epushed, elem_of_reverse, list_elem_of_filter. tauto. }
  assert (Hpushed' : ∀ k, k ∈ pushed ↔
            k ∈ dict_values (transitions yst') ∧ k ∉ P1).
  { intros k. rewrite Htr. apply Hpushed. }
  assert (Hdfs1 : dfs_inv aux P1 (pushed ++ rest)).
  { apply (dfs_step aux P y yst' rest pushed); try done.
    intros k [Hk _]%Hpushed. apply Hres. by apply Hkids. }
  assert (Hpot1 : dfs_potential (length h) P1 (pushed ++ rest) <
                  dfs_potential (length h) P (y :: rest)).
  { apply (dfs_step_potential (length h) aux P y yst' rest pushed);
      try done.
    rewrite Epushed. rewrite length_reverse. etrans; [apply length_filter|].
    unfold kids, dict_values. rewrite length_fmap. by eapply Hbound. }
  destruct (IH P1 (pushed ++ rest) sl1 Hinv1 Hdfs1)
    as (sl' & P' & E' & Hinv' & Hdfs' & Hsub & HP'); [lia|].
  exists sl', P'. split; [done|]. split; [done|]. split; [done|].
  split; [set_solver|].
  intros k [->|Hk]%elem_of_cons; [set_solver|].
  apply HP'. apply elem_of_app. by right.
Qed.

Lemma getstate_built ks wd self fuel :
  built lower ks wd self → enough_fuel (length wd) ≤ fuel →
  getstate fuel self =
    Ok {| snap_case_insensitive := _case_insensitive self;
          snap_finalized := _finalized self;
          snap_counter := _counter self;
          snap_states := (λ st, Some (ser st)) <$> heap self |}.
Proof.
  intros Hb Hfuel. pose proof (built_closed ks wd self Hb) as Hc.
  destruct Hb as (Hs & _ & Hu & _). unfold getstate.
  rewrite (shape_zero _ _ Hs), (shape_counter _ _ Hs).
  assert (0 < length wd) as H0.
  { apply (lookup_lt_Some wd 0 []). apply Hs. }
  set (aux := with_heap
                (set_longest_strict_suffix (Some 0) <$> heap self) self).
  assert (Haux : ∀ a st, heap self !! a = Some st →
    ∃ st', heap aux !! a = Some st' ∧ transitions st' = transitions st).
  { intros a st Hst. eexists. unfold aux. simpl.
    rewrite list_lookup_fmap, Hst. by split. }
  assert (Hres : ∀ a, a < length (heap self) → resolved aux a).
  { intros a [st Hst]%lookup_lt_is_Some_2.
    destruct (Haux a st Hst) as (st' & Hst' & _). exists st'.
    split; [done|]. unfold aux in Hst'. simpl in Hst'.
    rewrite list_lookup_fmap, Hst in Hst'. injection Hst' as <-.
    by eexists. }
  destruct (getstate_loop_walk (heap self) aux Hc) with
    (n := fuel) (P := (∅ : gset nat)) (todo := [0])
    (sl := replicate (length wd) (@None (@Serialized sym)))
    as (sl & P & E & (Hlen & HP & Hser) & Hdfs & _ & Hin); try done.
  { unfold aux. simpl. by rewrite length_fmap. }
  { intros a st Hst. destruct (shape_word _ _ _ _ Hs Hst) as [w Hw].
    destruct (Hu a st w Hst Hw) as (_ & Ht).
    rewrite (shape_len _ _ Hs). by eapply tree_dict_length. }
  { split; [|split].
    - rewrite length_replicate. symmetry. apply Hs.
    - intros i. split; [by intros ?%elem_of_empty|].
      intros [s Hl]. by apply lookup_replicate in Hl as [? _].
    - intros i s Hl. by apply lookup_replicate in Hl as [? _]. }
  { split; [|split; [|split]].
    - intros y ->%list_elem_of_singleton. apply Hres.
      rewrite (shape_len _ _ Hs). lia.
    - by intros y ?%elem_of_empty.
    - by intros y yst k ?%elem_of_empty.
    - by intros y yst k l1 l2 ?%elem_of_empty. }
  { rewrite (shape_len _ _ Hs). unfold dfs_potential, enough_fuel in *.
    assert (Har : ∀ f n, f ≤ n → n * S n + 2 ≤ fuel → 1 + f * S n < fuel)
      by (intros; nia).
    apply (Har _ (length wd)); [|done].
    etrans; [apply length_filter|]. by rewrite length_seq. }
  rewrite E. do 2 f_equal. apply list_eq. intros i.
  rewrite list_lookup_fmap.
  assert (Hall : ∀ w a, wd !! a = Some w → a ∈ P).
  { destruct Hdfs as (_ & _ & H3 & _).
    induction w as [|c x IH] using rev_ind; intros a Ha.
    - rewrite (shape_nil _ _ _ Hs Ha). apply Hin. by left.
    - assert (x ∈ wd) as [p Hp]%list_elem_of_lookup.
      { apply (shape_prefix_closed _ _ Hs x c). apply list_elem_of_lookup.
        by exists a. }
      specialize (IH p Hp).
      destruct (shape_state _ _ _ _ Hs Hp) as [pst Hpst].
      destruct (Hu p pst x Hpst Hp) as (_ & _ & Ht).
      destruct (Haux p pst Hpst) as (pst' & Hpst' & Htr).
      destruct (H3 p pst' a IH Hpst') as [?|Hn];
        [|done|by apply elem_of_nil in Hn].
      rewrite Htr. apply list_elem_of_fmap. exists (c, a). split; [done|].
      apply dict_get_Some_elem. by apply Ht. }
  destruct (heap self !! i) as [st|] eqn:Hst; simpl.
  - destruct (shape_word _ _ _ _ Hs Hst) as [w Hw].
    pose proof (Hall w i Hw) as HiP.
    apply HP in HiP as [s Hs']. rewrite Hs'.
    destruct (Hser i s Hs') as (st' & ? & ->).
    by assert (st' = st) as -> by congruence.
  - apply lookup_ge_None. rewrite Hlen. by apply lookup_ge_None.
Qed.

(** X20. A tree can be exported before [finalize]: [__getstate__] of the
    tree that the constructor and [add] calls have made gives a record
    with [finalized] false and one entry for each state, and
    [__setstate__] makes of it the same tree, on which [add] and
    [finalize] go on as on the first one. *)
Theorem snapshot_before_finalize ci ks fuel :
  fuel_for lower ci ks ≤ fuel →
  ∃ self snap,
    added lower ci ks = (Ok (), self) ∧
    getstate fuel self = Ok snap ∧
    snap_finalized snap = false ∧ snap_case_insensitive snap = ci ∧
    snap_counter snap = length (snap_states snap) ∧
    length (snap_states snap) = length (heap self) ∧
    (None ∉ snap_states snap) ∧
    setstate snap = Ok self.
Proof.
  intros Hfuel.
  destruct (add_all_init lower ci ks) as (wd & self & E & Hb & Hci).
  unfold fuel_for, added in Hfuel. rewrite E in Hfuel. simpl in Hfuel.
  pose proof Hb as (Hs & _ & _ & Hf).
  rewrite (shape_counter _ _ Hs) in Hfuel.
  eexists self, _. split; [done|].
  split; [by apply (getstate_built ks wd)|]. simpl.
  split; [done|]. split; [done|]. rewrite length_fmap.
  split; [by rewrite (shape_counter _ _ Hs), (shape_len _ _ Hs)|].
  split; [done|]. split.
  - by intros (st & ? & _)%list_elem_of_fmap.
  - apply setstate_spec.
    + by apply (built_closed ks wd).
    + intros E0. pose proof (shape_len _ _ Hs) as Hl. rewrite E0 in Hl.
      pose proof (shape_root _ _ Hs) as Hr. apply lookup_lt_Some in Hr.
      simpl in Hl. lia.
    + apply Hs.
Qed.
End SnapshotBefore.

(** Running the model on symbols of which only equalities are known:
    the run is computed as far as it goes without them, then one case for
    each outcome of a comparison of symbols, those that the hypotheses
    exclude falling away. *)
Ltac run_by_cases Heq :=
  vm_compute;
  repeat match goal with
         | |- context [Heq ?x ?y] =>
             destruct (Heq x y); try congruence; try vm_compute
         end.

Section KdFaults.
Context {sym : Type} {Heq : EqDecision sym}.
Variable lower : list sym → list sym.
Implicit Types (kd : @Kd.KdTree sym) (k text : list sym).

Lemma kd_search_loop_repeat kd : ∀ text idx cur ys e,
  Kd.search_loop kd idx text cur = (ys, e) →
  ∀ k off j c,
    (k, off) ∈ ys →
    (off + Z.of_nat (length k) = Z.of_nat (idx + j + 1))%Z →
    text !! j = Some c → text !! S j = Some c →
    (k, (off + 1)%Z) ∈ ys.
Proof.
  induction text as [|s text IH]; intros idx cur ys e E k off j c Hin Hend Hj HSj.
  { done. }
  assert (Hlater : ∀ cur' ys' e',
    Kd.search_loop kd (S idx) text cur' = (ys', e') →
    ∀ m, m ∈ ys' → (Z.of_nat (S idx) < end_pos m)%Z).
  { intros cur' ys' e' E' m Hm.
    destruct (kd_search_loop_positions _ _ _ _ _ _ E') as (_ & Hall & _).
    rewrite Forall_forall in Hall. by apply Hall. }
  assert (Hrec : ∀ cur', Kd.search_loop kd (S idx) text cur' = (ys, e) →
    (k, (off + 1)%Z) ∈ ys).
  { intros cur' E'. destruct j as [|j].
    - specialize (Hlater _ _ _ E' _ Hin). unfold end_pos in Hlater.
      simpl in Hlater. lia.
    - apply (IH _ _ _ _ E' k off j c); [done|lia|done..]. }
  simpl in E.
  destruct (Kd.heap kd !! cur) as [cst|] eqn:Hcst;
    [|injection E as <- <-; by apply elem_of_nil in Hin].
  destruct (dict_get s (Kd.transitions cst)) as [nxt|] eqn:Hget;
    [|by apply Hrec in E].
  destruct (Kd.heap kd !! nxt) as [nst|] eqn:Hnst;
    [|injection E as <- <-; by apply elem_of_nil in Hin].
  destruct (Kd.success nst) eqn:Hsucc; [|by apply Hrec in E].
  destruct (Kd.keyword nst) as [kw|] eqn:Hkw;
    [|injection E as <- <-; by apply elem_of_nil in Hin].
  destruct (Kd.search_loop kd (S idx) text cur) as [ys' e'] eqn:E'.
  injection E as <- <-.
  destruct j as [|j].
  - simpl in Hj. injection Hj as ->.
    apply elem_of_cons in Hin as [[= -> ->]|Hin].
    2:{ specialize (Hlater _ _ _ E' _ Hin). unfold end_pos in Hlater.
        simpl in Hlater. lia. }
    right. destruct text as [|s' text]; [done|].
    simpl in HSj. injection HSj as ->. simpl in E'.
    rewrite Hcst, Hget, Hnst, Hsucc, Hkw in E'.
    destruct (Kd.search_loop kd (S (S idx)) text cur) as [ys'' e''].
    injection E' as <- <-. apply elem_of_cons. left. f_equal. lia.
  - apply elem_of_cons in Hin as [[= -> ->]|Hin]; [lia|].
    right. apply (IH _ _ _ _ E' k off j c); [done|lia|done..].
Qed.

(** X21. The re-implementation repeats a match: [KdTree.search_all]
    stays in the state it was in when it yields, so whenever it yields
    [(k, off)] and the symbol of the folded text after the end of this
    match, at index [off + len(k)], is the same as the one before it, it
    yields [(k, off + 1)] too, whether [k] occurs there or not. *)
Theorem kd_repeats_match kd text yields e k off c :
  Kd.search_all lower kd text = (yields, e) →
  (k, off) ∈ yields →
  let folded := if negb (Kd.case_sensitive kd) then lower text else text in
  folded !! Z.to_nat (off + Z.of_nat (length k) - 1) = Some c →
  folded !! Z.to_nat (off + Z.of_nat (length k)) = Some c →
  (k, (off + 1)%Z) ∈ yields.
Proof.
  unfold Kd.search_all. destruct (negb (Kd._finalized kd)).
  { intros [= <- <-] Hin. by apply elem_of_nil in Hin. }
  cbv zeta. intros E Hin H1 H2.
  destruct (kd_search_loop_positions _ _ _ _ _ _ E) as (_ & Hall & _).
  rewrite Forall_forall in Hall. specialize (Hall _ Hin).
  unfold end_pos in Hall. simpl in Hall.
  apply (kd_search_loop_repeat _ _ _ _ _ _ E k off
           (Z.to_nat (off + Z.of_nat (length k) - 1)) c); [done|lia|done|].
  by replace (S (Z.to_nat (off + Z.of_nat (length k) - 1)))
    with (Z.to_nat (off + Z.of_nat (length k))) by lia.
Qed.

(** *** More fuel changes nothing once a call has come to its end *)

Lemma kd_failure_loop_fuel fuel : ∀ kd node c tr r kd' fuel',
  Kd.failure_loop fuel kd node c tr = (r, kd') → r ≠ OutOfFuel →
  fuel ≤ fuel' →
  Kd.failure_loop fuel' kd node c tr = (r, kd').
Proof.
  induction fuel as [|fuel IH]; intros kd node c tr r kd' fuel' E Hr Hle;
    simpl in E.
  { by injection E as <- <-. }
  destruct fuel' as [|fuel']; [lia|]. simpl.
  destruct tr as [t|]; [|done].
  destruct (Kd.heap kd !! t) as [trs|]; [|done].
  assert (Hother : ∀ res,
    (if decide (t = Kd._zero_node kd)
     then (Ok (), Kd.mutate node (Kd.set_failure (Some (Kd._zero_node kd))) kd)
     else Kd.failure_loop fuel kd node c (Kd.failure trs)) = res →
    res = (r, kd') →
    (if decide (t = Kd._zero_node kd)
     then (Ok (), Kd.mutate node (Kd.set_failure (Some (Kd._zero_node kd))) kd)
     else Kd.failure_loop fuel' kd node c (Kd.failure trs)) = (r, kd')).
  { intros res <- E'. case_decide; [done|]. apply IH; [done..|lia]. }
  destruct (match c with
            | Some c0 => dict_get c0 (Kd.transitions trs)
            | None => None
            end) as [tgt|]; [|by eapply Hother].
  destruct (decide (node ≠ tgt)); [done|by eapply Hother].
Qed.

Lemma kd_find_failure_fuel fuel kd node r kd' fuel' :
  Kd.find_failure fuel kd node = (r, kd') → r ≠ OutOfFuel →
  fuel ≤ fuel' →
  Kd.find_failure fuel' kd node = (r, kd').
Proof.
  unfold Kd.find_failure.
  destruct (Kd.heap kd !! node) as [nst|]; [|done].
  destruct (Kd.failure nst); [done|].
  destruct (Kd.parent nst) as [p|]; [|done].
  destruct (Kd.heap kd !! p) as [pst|]; [|done].
  apply kd_failure_loop_fuel.
Qed.

Lemma kd_children_loop_fuel fuel fuel' cur size steps :
  fuel ≤ fuel' →
  ∀ i to_add kd r kd',
  Kd.children_loop steps fuel cur size i to_add kd = (r, kd') →
  r ≠ OutOfFuel →
  Kd.children_loop steps fuel' cur size i to_add kd = (r, kd').
Proof.
  intros Hle. induction steps as [|steps IH];
    intros i to_add kd r kd' E Hr; simpl in E.
  { by injection E as <- <-. }
  simpl. destruct (Kd.heap kd !! cur) as [st|]; [|done].
  case_decide; [done|].
  destruct (dict_values (Kd.transitions st) !! i) as [child|]; [|done].
  destruct (Kd.find_failure fuel kd child) as [r1 kd1] eqn:E1.
  destruct r1 as [[]|e1|].
  - rewrite (kd_find_failure_fuel _ _ _ _ _ fuel' E1); [|done|done].
    by apply IH.
  - rewrite (kd_find_failure_fuel _ _ _ _ _ fuel' E1); done.
  - by injection E as <- <-.
Qed.

Lemma kd_process_loop_fuel fuel fuel' n :
  fuel ≤ fuel' →
  ∀ n' processed to_add kd r kd',
  Kd.process_loop n fuel processed to_add kd = (r, kd') →
  r ≠ OutOfFuel → n ≤ n' →
  Kd.process_loop n' fuel' processed to_add kd = (r, kd').
Proof.
  intros Hle. induction n as [|n IH];
    intros n' processed to_add kd r kd' E Hr Hn;
    cbn [Kd.process_loop] in E.
  { by injection E as <- <-. }
  destruct n' as [|n']; [lia|]. cbn [Kd.process_loop].
  destruct to_add as [|cur to_add]; [done|].
  destruct (Kd.heap kd !! cur) as [st|]; [|done].
  case_decide; [apply IH; [done..|lia]|].
  destruct (Kd.children_loop _ fuel _ _ _ _ kd) as [r1 kd1] eqn:E1.
  destruct r1 as [to_add''|e1|].
  - rewrite (kd_children_loop_fuel _ fuel' _ _ _ Hle _ _ _ _ _ E1);
      [|done]. apply IH; [done..|lia].
  - rewrite (kd_children_loop_fuel _ fuel' _ _ _ Hle _ _ _ _ _ E1); done.
  - by injection E as <- <-.
Qed.

Lemma kd_build_fuel case_sensitive ks fuel fuel' r :
  kd_build lower case_sensitive ks fuel = r → r ≠ OutOfFuel →
  fuel ≤ fuel' →
  kd_build lower case_sensitive ks fuel' = r.
Proof.
  unfold kd_build. destruct (Kd.add_all lower ks _) as [[[]| |] kd0];
    [|done..].
  unfold Kd.finalize. destruct (Kd._finalized kd0); [done|].
  unfold Kd.find_failure_for_children.
  destruct (Kd.process_loop fuel fuel _ _ _) as [r1 kd1] eqn:E1.
  intros <- Hr Hle.
  rewrite (kd_process_loop_fuel fuel fuel' fuel Hle fuel' _ _ _ _ _ E1);
    [done| |done].
  intros ->. by apply Hr.
Qed.

(** X22. [KdTree.finalize] can fail where [KeywordTree.finalize] does
    not: for the one keyword [c a c], with [a] another symbol than [c],
    [find_failure] gives the state of [c a] a transition to itself while
    [find_failure_for_children] goes through the transitions of this
    state, and [finalize] ends in the [RuntimeError] of a dict that
    changed size during iteration; [KeywordTree.finalize] returns on the
    same keyword. *)
Theorem kd_finalize_raises (c a : sym) fuel :
  c ≠ a → 4 ≤ fuel →
  kd_build lower true [[c; a; c]] fuel = Raise RuntimeError ∧
  ∃ self,
    build lower false [[c; a; c]] (fuel_for lower false [[c; a; c]])
      = Ok self.
Proof.
  intros Hca Hfuel. split.
  - apply (kd_build_fuel true _ 4); [|done|done].
    run_by_cases Heq; reflexivity.
  - destruct (build_linked lower false [[c; a; c]] _ (le_n _))
      as (wd & self0 & self & _ & _ & _ & _ & Hbuild & _).
    by exists self.
Qed.
End KdFaults.

Section Recursion.
Context {sym : Type} `{EqDecision sym}.
Variable lower : list sym → list sym.
Implicit Types (self : @KeywordTree sym) (st : @State sym)
  (wd : list (list sym)) (w u v x : list sym) (P : gset nat).

(** A loop that has ended ends the same way with more fuel. *)
Lemma lss_loop_fuel fuel : ∀ fuel' self state c tr r,
  lss_loop fuel self state c tr = r → r ≠ OutOfFuel → fuel ≤ fuel' →
  lss_loop fuel' self state c tr = r.
Proof.
  induction fuel as [|fuel IH]; intros fuel' self state c tr r E Hr Hle;
    [by subst r|].
  destruct fuel' as [|fuel']; [lia|]. simpl in *.
  destruct tr as [t|]; [|done].
  destruct (heap self !! t) as [trs|]; [|done].
  destruct (match c with Some c0 => dict_get c0 (transitions trs)
                       | None => None end) as [tgt|].
  - destruct (decide (tgt ≠ state)); [done|].
    destruct (decide (t = _zero_state self)); [done|].
    apply IH; [done..|lia].
  - destruct (decide (t = _zero_state self)); [done|].
    apply IH; [done..|lia].
Qed.

Lemma search_lss_fuel fuel : ∀ fuel' self a r self',
  search_lss fuel self a = (r, self') → r ≠ OutOfFuel → fuel ≤ fuel' →
  search_lss fuel' self a = (r, self').
Proof.
  induction fuel as [|fuel IH]; intros fuel' self a r self' E Hr Hle;
    [by injection E as <- _|].
  destruct fuel' as [|fuel']; [lia|]. cbn [search_lss] in *.
  destruct (heap self !! a) as [st|]; [|done].
  destruct (longest_strict_suffix st); [done|].
  destruct (parent st) as [p|]; [|done].
  destruct (heap self !! p) as [pst|]; [|done].
  destruct (lss_loop fuel self a (symbol st) (longest_strict_suffix pst))
    as [suffix|e|] eqn:El.
  - rewrite (lss_loop_fuel fuel fuel' _ _ _ _ _ El) by (done || lia).
    destruct (heap _ !! suffix) as [sst|]; [|done].
    destruct (longest_strict_suffix sst); [done|].
    destruct (search_lss fuel _ suffix) as [r1 self2] eqn:E1.
    assert (r1 ≠ OutOfFuel) as Hr1.
    { intros ->. by injection E as <- _. }
    by rewrite (IH fuel' _ _ _ _ E1 Hr1) by lia.
  - by rewrite (lss_loop_fuel fuel fuel' _ _ _ _ _ El) by (done || lia).
  - by injection E as <- _.
Qed.

(** A call of [search_lss] that returns with [k] as bound of the nested
    calls and of the loop, does the same where [k] nested calls are
    allowed. *)
Lemma search_lss_limited_of k : ∀ limit fuel self a r self',
  search_lss k self a = (r, self') → r ≠ OutOfFuel →
  k ≤ limit → k ≤ S fuel →
  search_lss_limited limit fuel self a = (r, self').
Proof.
  induction k as [|k IH]; intros limit fuel self a r self' E Hr Hlim Hfuel;
    [by injection E as <- _|].
  destruct limit as [|limit]; [lia|]. cbn [search_lss search_lss_limited] in *.
  destruct (heap self !! a) as [st|]; [|done].
  destruct (longest_strict_suffix st); [done|].
  destruct (parent st) as [p|]; [|done].
  destruct (heap self !! p) as [pst|]; [|done].
  destruct (lss_loop k self a (symbol st) (longest_strict_suffix pst))
    as [suffix|e|] eqn:El.
  - rewrite (lss_loop_fuel k fuel _ _ _ _ _ El) by (done || lia).
    destruct (heap _ !! suffix) as [sst|]; [|done].
    destruct (longest_strict_suffix sst); [done|].
    destruct (search_lss k _ suffix) as [r1 self2] eqn:E1.
    assert (r1 ≠ OutOfFuel) as Hr1.
    { intros ->. by injection E as <- _. }
    by rewrite (IH limit fuel _ _ _ _ E1 Hr1) by lia.
  - by rewrite (lss_loop_fuel k fuel _ _ _ _ _ El) by (done || lia).
  - by injection E as <- _.
Qed.

(** While the links are being made, a state whose word is shorter than
    [limit] is linked within the nested calls allowed. *)
Lemma search_lss_limited_eq wd self0 limit fuel self a w :
  linking wd self0 self → wd !! a = Some w → length wd ≤ fuel →
  length w < limit →
  (∀ st, heap self !! a = Some st → longest_strict_suffix st = None →
     ∃ p, parent st = Some p ∧ resolved self p) →
  search_lss_limited limit fuel self a = search_lss fuel self a.
Proof.
  intros (Hs & Hss & Hroot & Htree & Hok) Ha Hfuel Hlim Hpar.
  pose proof (depth_bound _ _ _ _ Hs Ha) as Hd.
  destruct (search_lss_spec wd self0 (S (length w)) self a w)
    as (self' & E & _); try done; [lia|].
  rewrite (search_lss_limited_of _ limit fuel _ _ _ _ E) by (done || lia).
  by rewrite (search_lss_fuel _ fuel _ _ _ _ E) by (done || lia).
Qed.

Lemma children_loop_limited_eq wd self0 limit fuel P y yst :
  length wd ≤ fuel → (∀ w, w ∈ wd → length w < limit) →
  is_Some (longest_strict_suffix yst) →
  ∀ steps i stack self,
  linking wd self0 self → heap self !! y = Some yst →
  steps + i = S (length (transitions yst)) → i ≤ length (transitions yst) →
  children_loop_limited steps limit fuel P y (length (transitions yst)) i
    stack self =
  children_loop steps fuel P y (length (transitions yst)) i stack self.
Proof.
  intros Hfuel Hlim Hyl. set (kids := dict_values (transitions yst)).
  induction steps as [|steps IH]; intros i stack self Hlk Hy Hsteps Hi; [lia|].
  cbn [children_loop children_loop_limited]. rewrite Hy.
  rewrite !decide_False by (by intros ?). fold kids.
  destruct (kids !! i) as [child|] eqn:Hc; [|done].
  assert (i < length (transitions yst)) as Hlt.
  { apply lookup_lt_Some in Hc. unfold kids, dict_values in Hc.
    by rewrite length_fmap in Hc. }
  pose proof Hlk as (Hs & _).
  destruct (child_ready wd self0 self y yst child Hlk Hy Hyl)
    as (kw & Hkw & Hpar).
  { apply list_elem_of_lookup. by exists i. }
  destruct (shape_state _ _ _ _ Hs Hkw) as [cst Hcst]. rewrite Hcst.
  destruct (decide (identifier cst ∈ P)); [apply IH; [done..|lia|lia]|].
  rewrite (search_lss_limited_eq wd self0 limit fuel self child kw);
    try done; [|apply Hlim, list_elem_of_lookup; by exists child].
  destruct (search_lss_linking wd self0 fuel self child kw Hlk Hkw Hfuel Hpar)
    as (self1 & E1 & Hlk1 & _ & Hf1).
  rewrite E1. apply IH; [done| |lia|lia].
  rewrite Hf1; [done|]. by exists yst.
Qed.

Lemma process_loop_limited_eq wd self0 limit fuel :
  length wd ≤ fuel → (∀ w, w ∈ wd → length w < limit) →
  ∀ n P stack self,
  linking wd self0 self → dfs_inv self P stack →
  dfs_potential (length wd) P stack < n →
  process_loop_limited n limit fuel P stack self =
  process_loop n fuel P stack self.
Proof.
  intros Hfuel Hlim.
  induction n as [|n IH]; intros P stack self Hlk Hdfs Hpot; [lia|].
  destruct stack as [|y rest]; cbn [process_loop process_loop_limited];
    [done|].
  pose proof Hlk as (Hs & _).
  pose proof Hdfs as (H1 & _).
  destruct (H1 y) as (yst & Hy & Hyl); [by left|]. rewrite Hy.
  rewrite (shape_id _ _ Hs _ _ Hy).
  set (P1 := {[y]} ∪ P).
  rewrite (children_loop_limited_eq wd self0 limit fuel P1 y yst Hfuel Hlim
             Hyl (S (length (transitions yst))) 0 rest self Hlk Hy)
    by lia.
  destruct (children_loop_spec wd self0 fuel P1 y yst Hfuel Hyl
              (S (length (transitions yst))) 0 rest self Hlk Hy)
    as (self1 & E1 & Hlk1 & Hf1 & Hr1); [lia|lia|].
  rewrite E1. rewrite drop_0 in *.
  set (kids := dict_values (transitions yst)) in *.
  remember (reverse (filter (λ k, k ∉ P1) kids)) as pushed eqn:Epushed.
  assert (Hpushed : ∀ k, k ∈ pushed ↔ k ∈ kids ∧ k ∉ P1).
  { intros k. rewrite Epushed, elem_of_reverse, list_elem_of_filter. tauto. }
  assert (Hy1 : heap self1 !! y = Some yst).
  { rewrite Hf1; [done|]. by exists yst. }
  pose proof (dfs_inv_frame self self1 P (y :: rest) Hf1 Hdfs) as Hdfs0.
  apply IH; [done| |].
  - apply (dfs_step self1 P y yst rest pushed); try done.
    intros k Hk. apply Hr1. by rewrite <-elem_of_reverse, <-Epushed.
  - assert (dfs_potential (length wd) P1 (pushed ++ rest) <
            dfs_potential (length wd) P (y :: rest)); [|lia].
    apply (dfs_step_potential (length wd) self1 P y yst rest pushed);
      try done.
    + apply lookup_lt_Some in Hy. by rewrite (shape_len _ _ Hs) in Hy.
    + rewrite Epushed. rewrite length_reverse. etrans; [apply length_filter|].
      unfold kids, dict_values. rewrite length_fmap.
      destruct Hyl as [f Hf]. destruct (shape_word _ _ _ _ Hs Hy) as [yw Hyw].
      destruct (linking_node _ _ _ _ _ _ _ Hlk Hy Hyw Hf) as (_ & Hg & _).
      by eapply goto_dict_length.
Qed.

(** [finalize] on the tree of the [add] calls does not depend on the
    nested calls allowed, when these are more than the symbols of every
    word of a state. *)
Lemma finalize_limited_eq ks wd self0 limit fuel :
  built lower ks wd self0 → enough_fuel (length wd) ≤ fuel →
  (∀ w, w ∈ wd → length w < limit) →
  finalize_limited limit fuel self0 = finalize fuel self0.
Proof.
  intros (Hs & Hm & Hu & Hf) Hfuel Hlim.
  unfold finalize_limited, finalize. rewrite Hf.
  unfold search_lss_for_children_limited, search_lss_for_children,
    enough_fuel in *.
  pose proof (linking_start wd self0 Hs Hu) as Hlk.
  set (self1 := mutate (_zero_state self0)
                  (set_longest_strict_suffix (Some (_zero_state self0))) self0) in *.
  assert (Hz1 : _zero_state self1 = 0) by apply Hlk. rewrite Hz1.
  assert (length wd ≤ fuel) as Hfuel' by nia.
  rewrite (process_loop_limited_eq wd self0 limit fuel Hfuel' Hlim fuel ∅ [0]
             self1 Hlk); [done| |].
  { pose proof Hlk as (_ & _ & Hr & _). split; [|split; [|split]].
    - by intros y ->%list_elem_of_singleton.
    - by intros y ?%elem_of_empty.
    - by intros y yst k ?%elem_of_empty.
    - by intros y yst k l1 l2 ?%elem_of_empty. }
  unfold dfs_potential.
  assert (Har : ∀ f n, f ≤ n → n * S n + 2 ≤ fuel → 1 + f * S n < fuel)
    by (intros; nia).
  apply (Har _ (length wd)); [|done].
  etrans; [apply length_filter|]. by rewrite length_seq.
Qed.

(** X3. [finalize] returns on every tree that the constructor and [add]
    calls have made, when the interpreter allows [search_lss] more nested
    calls than any keyword, once folded, has symbols: it raises nothing,
    no [RecursionError] either, and gives the tree that [finalize] gives
    with no limit on the nested calls.  It sets [_finalized], gives every
    state a suffix link, and leaves the number of states, [_counter],
    [_case_insensitive] and, in every state, identifier, symbol, parent,
    match mark and keyword as they were.  A second [finalize] raises the
    [ValueError] and changes nothing.  With fewer nested calls allowed
    [finalize] can raise: see [finalize_recursion_error]. *)
Theorem finalize_succeeds ci ks limit fuel :
  fuel_for lower ci ks ≤ fuel →
  (∀ k, k ∈ ks → length (the_fold lower ci k) < limit) →
  ∃ self0 self,
    added lower ci ks = (Ok (), self0) ∧
    finalize_limited limit fuel self0 = (Ok (), self) ∧
    finalize fuel self0 = (Ok (), self) ∧
    _finalized self = true ∧
    _counter self = _counter self0 ∧
    _case_insensitive self = ci ∧
    _zero_state self = _zero_state self0 ∧
    length (heap self) = length (heap self0) ∧
    (∀ a st, heap self !! a = Some st →
       is_Some (longest_strict_suffix st) ∧
       ∃ st0, heap self0 !! a = Some st0 ∧
         identifier st = identifier st0 ∧ symbol st = symbol st0 ∧
         parent st = parent st0 ∧ success st = success st0 ∧
         matched_keyword st = matched_keyword st0) ∧
    ∀ limit' fuel',
      finalize_limited limit' fuel' self =
        (Raise (ValueError msg_already_finalized), self).
Proof.
  intros Hfuel Hlim.
  destruct (added_covered lower ci ks)
    as (wd & self0 & Hadd & Hb & Hci & Hcov).
  unfold fuel_for in Hfuel. rewrite Hadd in Hfuel. simpl in Hfuel.
  pose proof Hb as (Hs0 & _). rewrite (shape_counter _ _ Hs0) in Hfuel.
  destruct (finalize_spec lower ks wd self0 fuel Hb Hfuel)
    as (self & Hfin & Hlk).
  exists self0, self. split; [done|].
  assert (finalize_limited limit fuel self0 = finalize fuel self0) as Heq.
  { destruct limit as [|limit].
    - destruct ks as [|k ks];
        [|by specialize (Hlim k (list_elem_of_here _ _)); lia].
      injection Hadd as <-.
      assert (4 ≤ fuel) as Hfour.
      { pose proof (depth_bound _ _ _ _ Hs0 (shape_root _ _ Hs0)).
        unfold enough_fuel in Hfuel. nia. }
      destruct fuel as [|[|fuel]]; [lia..|done].
    - apply (finalize_limited_eq ks wd); [done..|].
      intros w [->|(k & Hk & Hpre)]%Hcov; [simpl; lia|].
      apply prefix_length in Hpre. specialize (Hlim k Hk). lia. }
  split; [by rewrite Heq|]. split; [done|].
  destruct Hlk as (Hs & (Hlen & Hz & Hc & Hci' & Hst) & Hf & Hall).
  split; [done|]. split; [done|]. split; [congruence|].
  split; [done|]. split; [done|]. split.
  - intros a st Ha. split; [|by apply Hst].
    destruct (Hall a) as [(st' & Ha' & Hl) _].
    + rewrite <-(shape_len _ _ Hs). by apply lookup_lt_Some in Ha.
    + congruence.
  - intros limit' fuel'. unfold finalize_limited. by rewrite Hf.
Qed.
End Recursion.

(** The keywords [bb], [abb] and [aabb]: the link of the state of [aabb] is
    asked for when those of [abb] and [bb] are not made yet, which takes
    three nested calls of [search_lss].  Where only two are allowed,
    [finalize] raises [RecursionError] and leaves the tree unfinalized;
    three are enough. *)
Lemma finalize_recursion_error :
  ∃ self0 self' self,
    added ascii_lower false [str "bb"; str "abb"; str "aabb"] = (Ok (), self0) ∧
    fuel_for ascii_lower false [str "bb"; str "abb"; str "aabb"] ≤ 92 ∧
    finalize_limited 2 92 self0 = (Raise RecursionError, self') ∧
    _finalized self' = false ∧
    finalize_limited 3 92 self0 = (Ok (), self) ∧
    finalize 92 self0 = (Ok (), self).
Proof.
  eexists _, _, _. split; [vm_compute; reflexivity|].
  split; [vm_compute; lia|]. split; [vm_compute; reflexivity|].
  split; [reflexivity|]. split; vm_compute; reflexivity.
Qed.

Lemma yields_are_occurrences_witness :
  fuel_for ascii_lower false demo_keywords ≤ 112 ∧
  ∃ self,
    build ascii_lower false demo_keywords 112 = Ok self ∧
    ∀ text fuel', _counter self ≤ fuel' →
      ∃ yields,
        search_all ascii_lower fuel' self text = (yields, Done) ∧
        ∀ k off, (k, off) ∈ yields →
          k ∈ demo_keywords ∧ the_fold ascii_lower false k ≠ [] ∧
          (∃ e, 1 ≤ e ≤ length (the_fold ascii_lower false text) ∧
                off = (Z.of_nat e - Z.of_nat (length k))%Z ∧
                the_fold ascii_lower false k `suffix_of`
                  take e (the_fold ascii_lower false text)) ∧
          (length (the_fold ascii_lower false k) = length k →
             (0 ≤ off)%Z ∧
             (off + Z.of_nat (length k)
                ≤ Z.of_nat (length (the_fold ascii_lower false text)))%Z ∧
             occurs_at (the_fold ascii_lower false k)
               (the_fold ascii_lower false text) (Z.to_nat off)).
Proof.
  split; [vm_compute; lia|].
  apply (yields_are_occurrences ascii_lower). vm_compute. lia.
Defined.

Lemma search_one_first_match_witness :
  fuel_for ascii_lower false demo_keywords ≤ 112 ∧
  ∃ self,
    build ascii_lower false demo_keywords 112 = Ok self ∧
    ∀ text fuel', _counter self ≤ fuel' →
      ∃ yields,
        search_all ascii_lower fuel' self text = (yields, Done) ∧
        search_one ascii_lower fuel' self text = Ok (head yields) ∧
        search ascii_lower fuel' self text = Ok (head yields) ∧
        (head yields = None ↔
           ∀ k i, k ∈ demo_keywords → the_fold ascii_lower false k ≠ [] →
             ¬ occurs_at (the_fold ascii_lower false k)
                 (the_fold ascii_lower false text) i) ∧
        ∀ m m', head yields = Some m → m' ∈ yields →
          (end_pos m ≤ end_pos m')%Z.
Proof.
  split; [vm_compute; lia|].
  apply (search_one_first_match ascii_lower). vm_compute. lia.
Defined.

Lemma finalize_succeeds_witness :
  fuel_for ascii_lower true demo_keywords ≤ 112 ∧
  (∀ k, k ∈ demo_keywords → length (the_fold ascii_lower true k) < 100) ∧
  ∃ self0 self,
    added ascii_lower true demo_keywords = (Ok (), self0) ∧
    finalize_limited 100 112 self0 = (Ok (), self) ∧
    finalize 112 self0 = (Ok (), self) ∧
    _finalized self = true ∧
    _counter self = _counter self0 ∧
    _case_insensitive self = true ∧
    _zero_state self = _zero_state self0 ∧
    length (heap self) = length (heap self0) ∧
    (∀ a st, heap self !! a = Some st →
       is_Some (longest_strict_suffix st) ∧
       ∃ st0, heap self0 !! a = Some st0 ∧
         identifier st = identifier st0 ∧ symbol st = symbol st0 ∧
         parent st = parent st0 ∧ success st = success st0 ∧
         matched_keyword st = matched_keyword st0) ∧
    ∀ limit' fuel',
      finalize_limited limit' fuel' self =
        (Raise (ValueError msg_already_finalized), self).
Proof.
  assert (∀ k, k ∈ demo_keywords → length (the_fold ascii_lower true k) < 100)
    as Hshort.
  { apply Forall_forall. repeat constructor; vm_compute; lia. }
  split; [vm_compute; lia|]. split; [exact Hshort|].
  apply (finalize_succeeds ascii_lower); [vm_compute; lia|exact Hshort].
Defined.

Lemma keyword_order_irrelevant_witness :
  (∀ k, k ∈ she_he ↔ k ∈ [str "he"; str "she"; str "he"]) ∧
  fuel_for ascii_lower false she_he ≤ 44 ∧
  fuel_for ascii_lower false [str "he"; str "she"; str "he"] ≤ 44 ∧
  ∃ self self',
    build ascii_lower false she_he 44 = Ok self ∧
    build ascii_lower false [str "he"; str "she"; str "he"] 44 = Ok self' ∧
    ∀ text f f', _counter self ≤ f → _counter self' ≤ f' →
      search_all ascii_lower f self text = search_all ascii_lower f' self' text.
Proof.
  assert (H : ∀ k, k ∈ she_he ↔ k ∈ [str "he"; str "she"; str "he"]).
  { intros k. unfold she_he. rewrite !elem_of_cons, !elem_of_nil. tauto. }
  split; [exact H|]. split; [vm_compute; lia|]. split; [vm_compute; lia|].
  apply (keyword_order_irrelevant ascii_lower); [exact H|vm_compute; lia..].
Defined.

Lemma failure_is_longest_suffix_witness :
  fuel_for ascii_lower false demo_keywords ≤ 112 ∧
  ∃ self,
    build ascii_lower false demo_keywords 112 = Ok self ∧
    ∀ a st w, heap self !! a = Some st →
      word_of (length (heap self)) (heap self) a = Some w →
      ∃ f u,
        longest_strict_suffix st = Some f ∧
        word_of (length (heap self)) (heap self) f = Some u ∧
        u `suffix_of` w ∧ (w ≠ [] → length u < length w) ∧
        ∀ b v, word_of (length (heap self)) (heap self) b = Some v →
          v `suffix_of` w → v ≠ w → v `suffix_of` u.
Proof.
  split; [vm_compute; lia|].
  apply (failure_is_longest_suffix ascii_lower). vm_compute. lia.
Defined.

Lemma next_state_is_longest_suffix_witness :
  fuel_for ascii_lower false demo_keywords ≤ 112 ∧
  ∃ self,
    build ascii_lower false demo_keywords 112 = Ok self ∧
    ∀ a w c, word_of (length (heap self)) (heap self) a = Some w →
      ∃ b u,
        next_state self a c = Some b ∧
        word_of (length (heap self)) (heap self) b = Some u ∧
        u `suffix_of` w ++ [c] ∧
        ∀ b' v, word_of (length (heap self)) (heap self) b' = Some v →
          v `suffix_of` w ++ [c] → v `suffix_of` u.
Proof.
  split; [vm_compute; lia|].
  apply (next_state_is_longest_suffix ascii_lower). vm_compute. lia.
Defined.


Lemma snapshot_restores_tree_witness :
  fuel_for ascii_lower false demo_keywords ≤ 112 ∧
  ∃ self snap,
    build ascii_lower false demo_keywords 112 = Ok self ∧
    (∀ fuel1, fuel_for ascii_lower false demo_keywords ≤ fuel1 →
       getstate fuel1 self = Ok snap) ∧
    snap_case_insensitive snap = false ∧ snap_finalized snap = true ∧
    snap_counter snap = length (snap_states snap) ∧
    length (snap_states snap) = length (heap self) ∧
    (∀ i st, heap self !! i = Some st →
       identifier st = i ∧
       snap_states snap !! i =
         Some (Some {| s_symbol := symbol st; s_success := success st;
                       s_parent := parent st;
                       s_matched_keyword := matched_keyword st;
                       s_longest_strict_suffix := longest_strict_suffix st;
                       s_transitions := transitions st |})) ∧
    setstate snap = Ok self.
Proof.
  split; [vm_compute; lia|].
  apply (snapshot_restores_tree ascii_lower). vm_compute. lia.
Defined.

Lemma setstate_rejects_malformed_witness :
  None ∈ snap_states holed_snapshot ∧
  setstate holed_snapshot = Raise TypeError.
Proof.
  assert (H : None ∈ snap_states holed_snapshot) by (simpl; by left).
  split; [exact H|].
  exact (proj1 (setstate_rejects_malformed holed_snapshot) H).
Defined.

Lemma kd_guards_witness :
  Kd._finalized (Kd.KdTree_init (sym := ascii) true) = false ∧
  ∃ msg,
    Kd.search_all ascii_lower (Kd.KdTree_init true) (str "she") =
      ([], Raised (ValueError msg)).
Proof.
  split; [reflexivity|].
  apply (proj1 (kd_guards ascii_lower)). reflexivity.
Defined.

Lemma kd_one_match_per_position_witness :
  ∃ kd yields,
    kd_build ascii_lower true she_he 44 = Ok kd ∧
    Kd.search_all ascii_lower kd (str "she") = (yields, Done) ∧
    length yields ≤ length (str "she") ∧
    (∀ m, m ∈ yields → (1 ≤ end_pos m ≤ Z.of_nat (length (str "she")))%Z) ∧
    ∀ i j m1 m2, i < j → yields !! i = Some m1 → yields !! j = Some m2 →
      (end_pos m1 < end_pos m2)%Z.
Proof.
  pose (kd := match kd_build ascii_lower true she_he 44 with
              | Ok kd => kd
              | _ => Kd.KdTree_init true
              end).
  exists kd, (Kd.search_all ascii_lower kd (str "she")).1.
  split; [vm_compute; reflexivity|]. split; [vm_compute; reflexivity|].
  apply (kd_one_match_per_position ascii_lower kd (str "she") _ Done).
  vm_compute. reflexivity.
Defined.

Lemma kd_builds_same_trie_witness :
  (∀ k, k ∈ demo_keywords → the_fold ascii_lower false k ≠ []) ∧
  ∃ self,
    added ascii_lower false demo_keywords = (Ok (), self) ∧
    Kd.add_all ascii_lower demo_keywords (Kd.KdTree_init (negb false)) =
      (Ok (), kd_of_tree self).
Proof.
  assert (H : ∀ k, k ∈ demo_keywords → the_fold ascii_lower false k ≠ []).
  { intros k Hk E. simpl in E. unfold id in E. subst k.
    unfold demo_keywords in Hk.
    rewrite !elem_of_cons, elem_of_nil in Hk.
    by destruct Hk as [?|[?|[?|[?|[]]]]]. }
  split; [exact H|].
  exact (proj1 (kd_builds_same_trie ascii_lower false demo_keywords) H).
Defined.

Lemma kd_reports_added_keywords_witness :
  ∃ kd,
    kd_build ascii_lower true she_he 44 = Ok kd ∧
    ∀ text, ∃ yields,
      Kd.search_all ascii_lower kd text = (yields, Done) ∧
      ∀ k off, (k, off) ∈ yields → k ∈ she_he.
Proof.
  eexists. split; [vm_compute; reflexivity|].
  apply (kd_reports_added_keywords ascii_lower true she_he 44).
  vm_compute. reflexivity.
Defined.

Lemma search_all_exact_witness :
  fuel_for ascii_lower true demo_keywords ≤ 112 ∧
  ∃ self,
    build ascii_lower true demo_keywords 112 = Ok self ∧
    ∀ text fuel', _counter self ≤ fuel' →
      ∃ yields,
        search_all ascii_lower fuel' self text = (yields, Done) ∧
        NoDup yields ∧
        ∀ k off, (k, off) ∈ yields ↔
          last (filter (λ k', the_fold ascii_lower true k'
                              = the_fold ascii_lower true k) demo_keywords)
            = Some k ∧
          the_fold ascii_lower true k ≠ [] ∧
          ∃ e, 1 ≤ e ≤ length (the_fold ascii_lower true text) ∧
               the_fold ascii_lower true k `suffix_of`
                 take e (the_fold ascii_lower true text) ∧
               off = (Z.of_nat e - Z.of_nat (length k))%Z.
Proof.
  split; [vm_compute; lia|].
  apply (search_all_exact ascii_lower). vm_compute. lia.
Defined.

Lemma matches_of_prefix_witness :
  fuel_for ascii_lower false demo_keywords ≤ 112 ∧
  ∃ self,
    build ascii_lower false demo_keywords 112 = Ok self ∧
    ∀ t1 t2 fuel', _counter self ≤ fuel' →
      the_fold ascii_lower false (t1 ++ t2) =
        the_fold ascii_lower false t1 ++ the_fold ascii_lower false t2 →
      ∃ ys1 ys2,
        search_all ascii_lower fuel' self t1 = (ys1, Done) ∧
        search_all ascii_lower fuel' self (t1 ++ t2) = (ys1 ++ ys2, Done) ∧
        ∀ m, m ∈ ys2 →
          (Z.of_nat (length (the_fold ascii_lower false t1)) < end_pos m)%Z.
Proof.
  split; [vm_compute; lia|].
  apply (matches_of_prefix ascii_lower). vm_compute. lia.
Defined.

Lemma more_keywords_more_matches_witness :
  (∀ k, k ∈ she_he → k ∈ demo_keywords) ∧
  fuel_for ascii_lower false she_he ≤ 44 ∧
  fuel_for ascii_lower false demo_keywords ≤ 112 ∧
  ∃ self self',
    build ascii_lower false she_he 44 = Ok self ∧
    build ascii_lower false demo_keywords 112 = Ok self' ∧
    ∀ text f f', _counter self ≤ f → _counter self' ≤ f' →
      ∃ ys ys',
        search_all ascii_lower f self text = (ys, Done) ∧
        search_all ascii_lower f' self' text = (ys', Done) ∧
        ∀ m, m ∈ ys → m ∈ ys'.
Proof.
  assert (H : ∀ k, k ∈ she_he → k ∈ demo_keywords).
  { intros k. unfold she_he, demo_keywords.
    rewrite !elem_of_cons, !elem_of_nil. tauto. }
  split; [exact H|]. split; [vm_compute; lia|]. split; [vm_compute; lia|].
  apply (more_keywords_more_matches ascii_lower); [exact H|vm_compute; lia..].
Defined.

Lemma snapshot_before_finalize_witness :
  fuel_for ascii_lower false demo_keywords ≤ 112 ∧
  ∃ self snap,
    added ascii_lower false demo_keywords = (Ok (), self) ∧
    getstate 112 self = Ok snap ∧
    snap_finalized snap = false ∧ snap_case_insensitive snap = false ∧
    snap_counter snap = length (snap_states snap) ∧
    length (snap_states snap) = length (heap self) ∧
    (None ∉ snap_states snap) ∧
    setstate snap = Ok self.
Proof.
  split; [vm_compute; lia|].
  apply (snapshot_before_finalize ascii_lower). vm_compute. lia.
Defined.

Lemma kd_repeats_match_witness :
  ∃ kd yields,
    kd_build ascii_lower true [str "ab"] 4 = Ok kd ∧
    Kd.search_all ascii_lower kd (str "abb") = (yields, Done) ∧
    (str "ab", 0%Z) ∈ yields ∧
    str "abb" !! 1 = Some "b"%char ∧ str "abb" !! 2 = Some "b"%char ∧
    (str "ab", 1%Z) ∈ yields ∧
    ¬ occurs_at (str "ab") (str "abb") 1.
Proof.
  pose (kd := match kd_build ascii_lower true [str "ab"] 4 with
              | Ok kd => kd
              | _ => Kd.KdTree_init true
              end).
  exists kd, (Kd.search_all ascii_lower kd (str "abb")).1.
  split; [vm_compute; reflexivity|]. split; [vm_compute; reflexivity|].
  assert (H0 : (str "ab", 0%Z) ∈ (Kd.search_all ascii_lower kd (str "abb")).1).
  { vm_compute. by left. }
  split; [exact H0|]. split; [reflexivity|]. split; [reflexivity|].
  split.
  - apply (kd_repeats_match ascii_lower kd (str "abb") _ Done (str "ab") 0%Z
             "b"%char); [vm_compute; reflexivity|exact H0|reflexivity..].
  - intros [_ E]. vm_compute in E. discriminate.
Defined.

Lemma kd_finalize_raises_witness :
  "c"%char ≠ "a"%char ∧ 4 ≤ 4 ∧
  kd_build ascii_lower true [str "cac"] 4 = Raise RuntimeError ∧
  ∃ self,
    build ascii_lower false [str "cac"]
      (fuel_for ascii_lower false [str "cac"]) = Ok self.
Proof.
  assert (H : "c"%char ≠ "a"%char) by discriminate.
  split; [exact H|]. split; [lia|].
  exact (kd_finalize_raises ascii_lower "c"%char "a"%char 4 H (le_n 4)).
Defined.
